(** * vite-plugin-v8-bytecode: a shallow embedding and its properties

    The development follows the layout of the repository:

    - [JS]         the JavaScript data the sources compute with: strings as
                   sequences of UTF-16 code units, 32-bit integer operators,
                   thrown errors;
    - [Compiler]   src/compiler.ts  ([buffer2Number], [setFlagHashHeader],
                   [compileToBytecode]);
    - [Utils]      src/utils.ts     ([toRelativePath], [normalizePath]) over a
                   model of node:path;
    - [Transforms] src/transforms.ts (the two Babel visitors and
                   [transformCode]);
    - [Plugin]     src/index.ts     ([isBytecodeChunk], the require rewrite,
                   the reachability walk, [generateBundle]);
    - [Formats]    src/utils.ts     ([resolveBuildOutputs],
                   [detectModuleFormat]);
    - [Hooks]      src/index.ts     ([configResolved], [renderChunk],
                   [writeBundle]);
    - [Runs], [Segments], [Literals], [Settled], [Overlap], [Reach],
      [Outcome]    the notions further properties are stated with.

    Definitions come first; the properties of each part follow in the
    modules whose names end in [Facts]. *)

From Stdlib Require Import String Ascii.
From Stdlib Require Import ZArith List Bool Lia Arith DecimalString.
Import ListNotations.

Set Warnings "-register-all".

(* ================================================================== *)
(** * JavaScript data *)
(* ================================================================== *)

Module JS.

(** A JavaScript string is a sequence of UTF-16 code units. *)
Definition jsstring := list Z.

(** Source text written with ASCII characters only. *)
Definition js (s : string) : jsstring :=
  map (fun a => Z.of_N (N_of_ascii a)) (list_ascii_of_string s).

(** Line feed, which a Rocq string literal cannot escape. *)
Definition LF : Z := 10.

(** [s] between double quotes. *)
Definition quoted (s : jsstring) : jsstring := [34%Z] ++ s ++ [34%Z].

(** [a === b] on strings. *)
Fixpoint str_eqb (a b : jsstring) : bool :=
  match a, b with
  | [], [] => true
  | x :: a', y :: b' => (x =? y)%Z && str_eqb a' b'
  | _, _ => false
  end.

(** [s.startsWith(p)]. *)
Fixpoint startsWith (s p : jsstring) {struct p} : bool :=
  match p, s with
  | [], _ => true
  | y :: p', x :: s' => (x =? y)%Z && startsWith s' p'
  | _ :: _, [] => false
  end.

(** [list.includes(x)] on a list of strings. *)
Definition includes (l : list jsstring) (x : jsstring) : bool :=
  existsb (str_eqb x) l.

(** The first index at or after which [p] occurs in [s]
    ([s.indexOf(p)]), or [None]. *)
Fixpoint indexOf (s p : jsstring) : option nat :=
  if startsWith s p then Some 0
  else match s with
       | [] => None
       | _ :: s' => option_map S (indexOf s' p)
       end.

(** A computation that either returns or throws. *)
Inductive result (A : Type) : Type :=
| Ok (a : A)
| Throws (message : string).
Arguments Ok {A} a.
Arguments Throws {A} message.

Definition bind {A B} (r : result A) (k : A -> result B) : result B :=
  match r with
  | Ok a => k a
  | Throws m => Throws m
  end.

Local Open Scope Z_scope.

(** ToInt32 of the language definition, on integers. *)
Definition ToInt32 (z : Z) : Z := (z + 2^31) mod 2^32 - 2^31.

(** ToInt32 of an array element: [undefined] converts to NaN, then to 0. *)
Definition ToInt32_elem (v : option Z) : Z :=
  match v with
  | Some z => ToInt32 z
  | None => 0
  end.

(** [a << n]: the left operand as a signed 32-bit integer, shifted by the
    low five bits of [n], the result again a signed 32-bit integer. *)
Definition shl32 (a n : Z) : Z := ToInt32 (Z.shiftl a (Z.land n 31)).

(** [a | b] on signed 32-bit integers. *)
Definition or32 (a b : Z) : Z := ToInt32 (Z.lor a b).

End JS.

(* ================================================================== *)
(** * src/compiler.ts *)
(* ================================================================== *)

Module Compiler.
Import JS.

(** A Node.js Buffer: bytes, each in [0, 256). *)
Definition Buffer := list Z.

(** [buffer[i]]: [undefined] past the end. *)
Definition at_index (buffer : Buffer) (i : nat) : option Z := nth_error buffer i.

(** [buf.subarray(start, end)] for [start <= end]. *)
Definition subarray (buf : Buffer) (start end_ : nat) : Buffer :=
  firstn (end_ - start) (skipn start buf).

(** [source.copy(target, targetStart)]: as many bytes of [source] as fit
    in [target] from [targetStart] on are written there; nothing is
    written when [targetStart] is at or past the end of [target]. *)
Definition copy (source target : Buffer) (targetStart : nat) : Buffer :=
  let nb := Nat.min (length source) (length target - targetStart) in
  firstn targetStart target ++ firstn nb source ++ skipn (targetStart + nb) target.

(** [buffer2Number]:
<<
  let ret = 0;
  ret |= buffer[3] << 24;
  ret |= buffer[2] << 16;
  ret |= buffer[1] << 8;
  ret |= buffer[0];
  return ret;
>> *)
Definition buffer2Number (buffer : Buffer) : Z :=
  let ret := 0%Z in
  let ret := or32 ret (shl32 (ToInt32_elem (at_index buffer 3)) 24) in
  let ret := or32 ret (shl32 (ToInt32_elem (at_index buffer 2)) 16) in
  let ret := or32 ret (shl32 (ToInt32_elem (at_index buffer 1)) 8) in
  let ret := or32 ret (ToInt32_elem (at_index buffer 0)) in
  ret.

Definition SOURCE_HASH_OFFSET : nat := 8.
Definition FLAG_HASH_OFFSET : nat := 12.

(** [getSourceHashHeader]. *)
Definition getSourceHashHeader (bytecodeBuffer : Buffer) : Buffer :=
  subarray bytecodeBuffer SOURCE_HASH_OFFSET (SOURCE_HASH_OFFSET + 4).

(** The flag-hash field of an artifact: the four bytes at offset 12. *)
Definition flagHashField (bytecodeBuffer : Buffer) : Buffer :=
  subarray bytecodeBuffer FLAG_HASH_OFFSET (FLAG_HASH_OFFSET + 4).

(** [wrapInModuleWrapper]. *)
Definition wrapInModuleWrapper (code : jsstring) : jsstring :=
  js "(function (exports, require, module, __filename, __dirname) { "
    ++ code ++ [LF] ++ js "});".

(** The virtual machine is outside the repository.  [cachedData k src] is
    what [new vm.Script(src, {produceCachedData: true}).cachedData] holds
    when this is the [k]-th script the process constructs: [None] for
    [undefined].  The index lets two constructions of the same source
    differ, as two runs of the VM may. *)
Definition VM := nat -> jsstring -> option Buffer.

(** The state of one process: how many scripts it has constructed, and the
    module-level variable [dummyBytecode]. *)
Record Process : Type := mkProcess {
  scripts : nat;
  dummyBytecode : option Buffer
}.

(** A process that has compiled nothing yet. *)
Definition startProcess : Process := mkProcess 0 None.

(** [new vm.Script(src, { produceCachedData: true }).cachedData]. *)
Definition newScript (vm : VM) (p : Process) (src : jsstring)
  : Process * option Buffer :=
  (mkProcess (S (scripts p)) (dummyBytecode p), vm (scripts p) src).

(** [setFlagHashHeader]: the buffer is patched in place; the patched
    buffer is returned beside the new process state. *)
Definition setFlagHashHeader (vm : VM) (p : Process) (bytecodeBuffer : Buffer)
  : Process * Buffer :=
  let p1 :=
    match dummyBytecode p with
    | Some _ => p
    | None =>
        let '(p', data) := newScript vm p [] in
        mkProcess (scripts p') data
    end in
  match dummyBytecode p1 with
  | Some dummy =>
      if FLAG_HASH_OFFSET + 4 <? length dummy
      then (p1, copy (subarray dummy FLAG_HASH_OFFSET (FLAG_HASH_OFFSET + 4))
                     bytecodeBuffer FLAG_HASH_OFFSET)
      else (p1, bytecodeBuffer)
  | None => (p1, bytecodeBuffer)
  end.

(** [compileToBytecode]. *)
Definition compileToBytecode (vm : VM) (p : Process) (code : jsstring)
  : Process * result Buffer :=
  let wrappedCode := wrapInModuleWrapper code in
  let '(p1, data) := newScript vm p wrappedCode in
  match data with
  | None => (p1, Throws "Failed to generate bytecode: cachedData is undefined")
  | Some bytecode =>
      let '(p2, patched) := setFlagHashHeader vm p1 bytecode in
      (p2, Ok patched)
  end.

(** The compilations of one process, in order. *)
Fixpoint compileAll (vm : VM) (p : Process) (sources : list jsstring)
  : list (result Buffer) :=
  match sources with
  | [] => []
  | s :: rest =>
      let '(p', r) := compileToBytecode vm p s in
      r :: compileAll vm p' rest
  end.

(** The four bytes [Buffer.writeUInt32LE(n)] writes. *)
Definition encodeLE32 (n : Z) : Buffer :=
  [ n mod 256; (n / 256) mod 256; (n / 65536) mod 256; (n / 16777216) mod 256 ]%Z.

(** ** Notions the properties are stated with *)

(** A virtual machine for examples: the blob of the [k]-th script carries
    [k] in its flag-hash field, so no two scripts agree before the patch. *)
Definition sampleVM : VM := fun k src =>
  Some (repeat 0%Z 12 ++ [Z.of_nat k; 7%Z; 7%Z; 7%Z]
          ++ repeat (Z.of_nat (length src)) 8).

(** The cached dummy, once there, holds a complete header. *)
Definition settled (p : Process) : Prop :=
  match dummyBytecode p with
  | Some d => 16 < length d
  | None => True
  end.

End Compiler.

(* ================================================================== *)
(** * node:path (POSIX flavour) *)
(* ================================================================== *)

(** The path functions of Node.js are outside the repository.  They are
    modelled after the documented behaviour of [path.posix]: [dirname] and
    [basename] scan the text from its end as Node does; [resolve] and
    [relative] work on the list of segments between slashes. *)
Module NodePath.
Import JS.

Definition SLASH : Z := 47.
Definition DOT : Z := 46.

(** [s.split("/")]. *)
Fixpoint split (s : jsstring) : list jsstring :=
  match s with
  | [] => [[]]
  | c :: s' =>
      if (c =? SLASH)%Z then [] :: split s'
      else match split s' with
           | seg :: segs => (c :: seg) :: segs
           | [] => [[c]]
           end
  end.

(** [segs.join("/")]. *)
Fixpoint join (segs : list jsstring) : jsstring :=
  match segs with
  | [] => []
  | [seg] => seg
  | seg :: rest => seg ++ [SLASH] ++ join rest
  end.

(** Normalisation of an absolute path, segment by segment ([acc] holds
    the segments kept so far, last one first): empty and [.] segments
    vanish, [..] removes the segment before it and is dropped at the
    root. *)
Fixpoint normalizeSegments (acc : list jsstring) (segs : list jsstring)
  : list jsstring :=
  match segs with
  | [] => rev acc
  | seg :: rest =>
      if str_eqb seg [] || str_eqb seg [DOT] then normalizeSegments acc rest
      else if str_eqb seg [DOT; DOT] then normalizeSegments (tl acc) rest
      else normalizeSegments (seg :: acc) rest
  end.

Definition isAbsolute (p : jsstring) : bool :=
  match p with
  | c :: _ => (c =? SLASH)%Z
  | [] => false
  end.

(** [path.resolve(p)] in a process whose working directory is [cwd] (an
    absolute path): the segments of the absolute, normalised path. *)
Definition resolve (cwd p : jsstring) : list jsstring :=
  if isAbsolute p then normalizeSegments [] (split p)
  else normalizeSegments [] (split cwd ++ split p).

(** What is left of two lists after their longest common prefix. *)
Fixpoint dropCommon (a b : list jsstring) : list jsstring * list jsstring :=
  match a, b with
  | x :: a', y :: b' => if str_eqb x y then dropCommon a' b' else (a, b)
  | _, _ => (a, b)
  end.

(** [path.relative(from, to)]: one [..] for every segment of [from] below
    the common directory, then the segments of [to] below it. *)
Definition relative (cwd from to : jsstring) : jsstring :=
  let '(up, down) := dropCommon (resolve cwd from) (resolve cwd to) in
  join (map (fun _ => [DOT; DOT]) up ++ down).

(** The scan of [dirname] over the characters after the first, from the
    last one backwards: the index of the slash that ends the directory
    part, if there is one. *)
Fixpoint dirnameEnd (reversed : jsstring) (matchedSlash : bool) : option nat :=
  match reversed with
  | [] => None
  | c :: before =>
      if (c =? SLASH)%Z
      then if matchedSlash then dirnameEnd before matchedSlash
           else Some (S (length before))
      else dirnameEnd before false
  end.

(** [path.dirname(p)]. *)
Definition dirname (p : jsstring) : jsstring :=
  match p with
  | [] => [DOT]
  | c0 :: rest =>
      let hasRoot := (c0 =? SLASH)%Z in
      match dirnameEnd (rev rest) true with
      | None => if hasRoot then [SLASH] else [DOT]
      | Some end_ =>
          if hasRoot && (end_ =? 1)%nat then [SLASH; SLASH]
          else firstn end_ p
      end
  end.

(** Leading characters of [s] up to the first slash. *)
Fixpoint untilSlash (s : jsstring) : jsstring :=
  match s with
  | [] => []
  | c :: s' => if (c =? SLASH)%Z then [] else c :: untilSlash s'
  end.

(** Leading slashes removed. *)
Fixpoint dropSlashes (s : jsstring) : jsstring :=
  match s with
  | c :: s' => if (c =? SLASH)%Z then dropSlashes s' else s
  | [] => []
  end.

(** [path.basename(p)]: the last segment, trailing slashes ignored. *)
Definition basename (p : jsstring) : jsstring :=
  rev (untilSlash (dropSlashes (rev p))).

End NodePath.

(* ================================================================== *)
(** * src/utils.ts *)
(* ================================================================== *)

Module Utils.
Import JS.

(** [toRelativePath]:
<<
  const relativePath = path.relative(path.dirname(to), from);
  return relativePath.startsWith(".") ? relativePath : `./${relativePath}`;
>>
    [cwd] is the working directory [path.relative] resolves against. *)
Definition toRelativePath (cwd from to : jsstring) : jsstring :=
  let relativePath := NodePath.relative cwd (NodePath.dirname to) from in
  if startsWith relativePath (js ".") then relativePath
  else js "./" ++ relativePath.

(** [normalizePath]: [p.replace(/\\/g, "/")]. *)
Definition normalizePath (p : jsstring) : jsstring :=
  map (fun c => if (c =? 92)%Z then 47%Z else c) p.

(** How [require] reads a specifier (Node's module resolution): a path
    when it is [.] or [..] or begins with [./], [../] or [/]; otherwise a
    bare specifier, looked up among core modules and [node_modules]. *)
Definition isRelativeSpecifier (x : jsstring) : bool :=
  str_eqb x (js ".") || str_eqb x (js "..")
  || startsWith x (js "./") || startsWith x (js "../").

Definition isAbsoluteSpecifier (x : jsstring) : bool := startsWith x (js "/").

Definition isBareSpecifier (x : jsstring) : bool :=
  negb (isRelativeSpecifier x) && negb (isAbsoluteSpecifier x).

End Utils.

(* ================================================================== *)
(** * src/transforms.ts *)
(* ================================================================== *)

Module Transforms.
Import JS.

(** The part of the Babel AST the two plugins look at.  A template
    element is kept as its cooked value; [FunctionExpression params e]
    stands for [function (params) { return e; }].  The optional forms
    are [object?.property], [object?.[property]] and [callee?.(...)].
    Object methods, class members and tagged templates are not part of
    the fragment. *)
Inductive Expr : Type :=
| Identifier (name : jsstring)
| StringLiteral (value : jsstring)
| NumericLiteral (value : Z)
| TemplateLiteral (quasis : list jsstring) (expressions : list Expr)
| BinaryExpression (operator : jsstring) (left right : Expr)
| MemberExpression (object property : Expr) (computed : bool)
| CallExpression (callee : Expr) (arguments : list Expr)
| ObjectExpression (properties : list ObjectProperty)
| ArrayExpression (elements : list Expr)
| SpreadElement (argument : Expr)
| FunctionExpression (params : list Expr) (returns : Expr)
| OptionalMemberExpression (object property : Expr) (computed : bool)
| OptionalCallExpression (callee : Expr) (arguments : list Expr)
with ObjectProperty : Type :=
| Property (key : Expr) (computed : bool) (value : Expr).

Inductive Statement : Type :=
| ExpressionStatement (expression : Expr)
| VariableDeclaration (kind id : jsstring) (init : Expr).

Definition Program := list Statement.

(** Where a node sits in its parent: what [path.parentPath] and the
    parent's fields tell a visitor.  The object of a member access and
    the callee of a call are the same position for the plain and the
    optional form; the property and the arguments are not, since
    [isMemberExpression] and [isCallExpression] tell the forms apart. *)
Inductive Position : Type :=
| MemberObject
| MemberProperty (computed : bool)
| PropertyKey (computed : bool)
| PropertyValue
| Callee
| Argument (callee : Expr) (index : nat)
| Elsewhere
| OptionalMemberProperty (computed : bool)
| OptionalArgument (callee : Expr) (index : nat).

(** A visitor method either leaves the node in place ([None]) or calls
    [path.replaceWith] ([Some]). *)
Definition Visitor := Position -> Expr -> option Expr.

(** A value is truthy as a string when it is not empty. *)
Definition truthy (s : jsstring) : bool :=
  match s with
  | [] => false
  | _ :: _ => true
  end.

(** ** templateLiteralToConcatPlugin *)

(** The loop of the [TemplateLiteral] visitor: [quasis[i]] then
    [expressions[i]], for every index of [quasis]. *)
Fixpoint concatLoop (quasis : list jsstring) (expressions : list Expr)
    (result : option Expr) : option Expr :=
  match quasis with
  | [] => result
  | quasi :: quasis' =>
      let result :=
        if truthy quasi
        then match result with
             | Some r => Some (BinaryExpression (js "+") r (StringLiteral quasi))
             | None => Some (StringLiteral quasi)
             end
        else result in
      match expressions with
      | expr :: expressions' =>
          concatLoop quasis' expressions'
            (match result with
             | Some r => Some (BinaryExpression (js "+") r expr)
             | None => Some expr
             end)
      | [] => concatLoop quasis' [] result
      end
  end.

Definition templateLiteralToConcat : Visitor := fun _ node =>
  match node with
  | TemplateLiteral quasis expressions =>
      match concatLoop quasis expressions None with
      | Some result => Some result
      | None => Some (StringLiteral [])
      end
  | _ => None
  end.

(** ** protectStringsPlugin *)

Definition isHighSurrogate (c : Z) : bool := (55296 <=? c)%Z && (c <=? 56319)%Z.
Definition isLowSurrogate (c : Z) : bool := (56320 <=? c)%Z && (c <=? 57343)%Z.

(** [Array.from(value)]: the string iterator yields one string per code
    point, a surrogate pair as one string of two code units. *)
Fixpoint arrayFrom (value : jsstring) : list jsstring :=
  match value with
  | [] => []
  | c :: rest =>
      match rest with
      | d :: rest' =>
          if isHighSurrogate c && isLowSurrogate d
          then [c; d] :: arrayFrom rest'
          else [c] :: arrayFrom rest
      | [] => [[c]]
      end
  end.

(** [s.charCodeAt(0)] on the non-empty strings of [arrayFrom]. *)
Definition charCodeAt0 (s : jsstring) : Z := hd 0%Z s.

Definition createFromCharCodeFunction (value : jsstring) : Expr :=
  let charCodes := map charCodeAt0 (arrayFrom value) in
  let charCodeLiterals := map NumericLiteral charCodes in
  let memberExpression :=
    MemberExpression (Identifier (js "String")) (Identifier (js "fromCharCode")) false in
  let callExpression :=
    CallExpression memberExpression [SpreadElement (Identifier (js "arr"))] in
  let functionExpression :=
    FunctionExpression [Identifier (js "arr")] callExpression in
  CallExpression functionExpression [ArrayExpression charCodeLiterals].

Definition isRequireIdentifier (callee : Expr) : bool :=
  match callee with
  | Identifier name => str_eqb name (js "require")
  | _ => false
  end.

(** The three early returns of the [StringLiteral] visitor: the parent
    is a [MemberExpression], an [ObjectProperty] or a [CallExpression];
    no test matches the optional forms. *)
Definition skipped (pos : Position) : bool :=
  match pos with
  | MemberProperty true => true
  | PropertyKey false => true
  | Argument callee 0 => isRequireIdentifier callee
  | _ => false
  end.

Definition protectStrings (protectedStrings : list jsstring) : Visitor :=
  fun pos node =>
  match node with
  | StringLiteral value =>
      if skipped pos then None
      else if includes protectedStrings value
           then Some (createFromCharCodeFunction value)
           else None
  | TemplateLiteral quasis expressions =>
      match expressions, quasis with
      | [], [value] =>
          if truthy value && includes protectedStrings value
          then Some (createFromCharCodeFunction value)
          else None
      | _, _ => None
      end
  | _ => None
  end.

(** The plugin list of [transformCode]. *)
Definition plugins (protectedStrings : list jsstring) : list Visitor :=
  templateLiteralToConcat ::
  (if (0 <? length protectedStrings)%nat
   then [protectStrings protectedStrings] else []).

(** ** The traversal *)

(** Babel merges the visitors of all plugins into one traversal.  On
    entering a node the methods for its type run in plugin order; the
    first one that replaces the node ends the round. *)
Fixpoint enter (visitors : list Visitor) (pos : Position) (node : Expr)
  : option Expr :=
  match visitors with
  | [] => None
  | v :: rest =>
      match v pos node with
      | Some replacement => Some replacement
      | None => enter rest pos node
      end
  end.

(** The children of a node that sit in a list, visited in order by [f];
    the child at index [i] sits at position [at_ i]. *)
Fixpoint visitAll (f : Position -> Expr -> option Expr) (at_ : nat -> Position)
    (i : nat) (nodes : list Expr) : option (list Expr) :=
  match nodes with
  | [] => Some []
  | n :: rest =>
      match f (at_ i) n with
      | Some n' => option_map (cons n') (visitAll f at_ (S i) rest)
      | None => None
      end
  end.

(** The properties of an object literal: the key of each, then its value. *)
Fixpoint visitProperties (f : Position -> Expr -> option Expr)
    (props : list ObjectProperty) : option (list ObjectProperty) :=
  match props with
  | [] => Some []
  | Property k computed v :: rest =>
      match f (PropertyKey computed) k with
      | Some k' =>
          match f PropertyValue v with
          | Some v' =>
              option_map (cons (Property k' computed v')) (visitProperties f rest)
          | None => None
          end
      | None => None
      end
  end.

(** A replaced node is queued again and visited as a new node; a node no
    method replaces has its children visited in the order of its visitor
    keys.  [fuel] bounds the nesting of these visits; [None] is a
    traversal that ran out of it. *)
Fixpoint traverse (fuel : nat) (visitors : list Visitor) (pos : Position)
    (node : Expr) {struct fuel} : option Expr :=
  match fuel with
  | O => None
  | S fuel =>
      match enter visitors pos node with
      | Some replacement => traverse fuel visitors pos replacement
      | None =>
          let visit := traverse fuel visitors in
          match node with
          | Identifier _ | StringLiteral _ | NumericLiteral _ => Some node
          | TemplateLiteral quasis expressions =>
              option_map (TemplateLiteral quasis)
                (visitAll visit (fun _ => Elsewhere) 0 expressions)
          | BinaryExpression op l r =>
              match visit Elsewhere l with
              | Some l' => option_map (BinaryExpression op l') (visit Elsewhere r)
              | None => None
              end
          | MemberExpression o p computed =>
              match visit MemberObject o with
              | Some o' =>
                  option_map (fun p' => MemberExpression o' p' computed)
                    (visit (MemberProperty computed) p)
              | None => None
              end
          | CallExpression callee args =>
              match visit Callee callee with
              | Some callee' =>
                  option_map (CallExpression callee')
                    (visitAll visit (fun i => Argument callee' i) 0 args)
              | None => None
              end
          | ObjectExpression props =>
              option_map ObjectExpression (visitProperties visit props)
          | ArrayExpression elements =>
              option_map ArrayExpression
                (visitAll visit (fun _ => Elsewhere) 0 elements)
          | SpreadElement a => option_map SpreadElement (visit Elsewhere a)
          | FunctionExpression params e =>
              match visitAll visit (fun _ => Elsewhere) 0 params with
              | Some params' =>
                  option_map (FunctionExpression params') (visit Elsewhere e)
              | None => None
              end
          | OptionalMemberExpression o p computed =>
              match visit MemberObject o with
              | Some o' =>
                  option_map (fun p' => OptionalMemberExpression o' p' computed)
                    (visit (OptionalMemberProperty computed) p)
              | None => None
              end
          | OptionalCallExpression callee args =>
              match visit Callee callee with
              | Some callee' =>
                  option_map (OptionalCallExpression callee')
                    (visitAll visit (fun i => OptionalArgument callee' i) 0 args)
              | None => None
              end
          end
      end
  end.

(** The nesting a traversal of [node] can reach: one level per node, six
    for a string literal (the call that may replace it is five deep), and
    for a template literal one per element on top of its deepest part. *)
Fixpoint nesting (node : Expr) : nat :=
  match node with
  | Identifier _ | NumericLiteral _ => 1
  | StringLiteral _ => 6
  | TemplateLiteral quasis expressions =>
      1 + length quasis + length expressions
        + Nat.max 6 (list_max (map nesting expressions))
  | BinaryExpression _ l r => 1 + Nat.max (nesting l) (nesting r)
  | MemberExpression o p _ => 1 + Nat.max (nesting o) (nesting p)
  | CallExpression callee args =>
      1 + Nat.max (nesting callee) (list_max (map nesting args))
  | ObjectExpression props =>
      1 + list_max (map (fun p => match p with
                                  | Property k _ v => Nat.max (nesting k) (nesting v)
                                  end) props)
  | ArrayExpression elements => 1 + list_max (map nesting elements)
  | SpreadElement a => 1 + nesting a
  | FunctionExpression params e =>
      1 + Nat.max (list_max (map nesting params)) (nesting e)
  | OptionalMemberExpression o p _ => 1 + Nat.max (nesting o) (nesting p)
  | OptionalCallExpression callee args =>
      1 + Nat.max (nesting callee) (list_max (map nesting args))
  end.

Definition transformExpr (protectedStrings : list jsstring) (e : Expr)
  : option Expr :=
  traverse (nesting e) (plugins protectedStrings) Elsewhere e.

Definition transformStatement (protectedStrings : list jsstring) (s : Statement)
  : option Statement :=
  match s with
  | ExpressionStatement e =>
      option_map ExpressionStatement (transformExpr protectedStrings e)
  | VariableDeclaration kind id init =>
      option_map (VariableDeclaration kind id) (transformExpr protectedStrings init)
  end.

(** [transformCode] between Babel's parser and its generator, which are
    outside the repository: the program it hands to the generator. *)
Fixpoint transformCode (code : Program) (protectedStrings : list jsstring)
  : option Program :=
  match code with
  | [] => Some []
  | s :: rest =>
      match transformStatement protectedStrings s with
      | Some s' => option_map (cons s') (transformCode rest protectedStrings)
      | None => None
      end
  end.

(** ** What a transformed program contains *)

(** No template literal anywhere in the expression. *)
Fixpoint noTemplateLiteral (e : Expr) : bool :=
  match e with
  | Identifier _ | StringLiteral _ | NumericLiteral _ => true
  | TemplateLiteral _ _ => false
  | BinaryExpression _ l r => noTemplateLiteral l && noTemplateLiteral r
  | MemberExpression o p _ => noTemplateLiteral o && noTemplateLiteral p
  | CallExpression callee args =>
      noTemplateLiteral callee && forallb noTemplateLiteral args
  | ObjectExpression props =>
      forallb (fun p => match p with
                        | Property k _ v => noTemplateLiteral k && noTemplateLiteral v
                        end) props
  | ArrayExpression elements => forallb noTemplateLiteral elements
  | SpreadElement a => noTemplateLiteral a
  | FunctionExpression params e => forallb noTemplateLiteral params && noTemplateLiteral e
  | OptionalMemberExpression o p _ => noTemplateLiteral o && noTemplateLiteral p
  | OptionalCallExpression callee args =>
      noTemplateLiteral callee && forallb noTemplateLiteral args
  end.




(** ** Evaluation of closed string and number expressions *)

(** The values of the fragment: strings, and numbers that are integers. *)
Inductive Value : Type :=
| VString (s : jsstring)
| VNumber (n : Z).

(** ToString. *)
Definition ToString (v : Value) : jsstring :=
  match v with
  | VString s => s
  | VNumber n => js (DecimalString.NilZero.string_of_int (Z.to_int n))
  end.

(** The addition operator: concatenation as soon as one operand is a
    string, numeric addition otherwise. *)
Definition add (a b : Value) : Value :=
  match a, b with
  | VNumber x, VNumber y => VNumber (x + y)
  | _, _ => VString (ToString a ++ ToString b)
  end.

(** The string a template literal evaluates to, given the values of its
    interpolations. *)
Fixpoint templateString (quasis : list jsstring) (values : list Value) : jsstring :=
  match quasis with
  | [] => []
  | quasi :: quasis' =>
      match values with
      | v :: values' => quasi ++ ToString v ++ templateString quasis' values'
      | [] => quasi ++ templateString quasis' []
      end
  end.

Fixpoint eval (e : Expr) : option Value :=
  match e with
  | StringLiteral s => Some (VString s)
  | NumericLiteral n => Some (VNumber n)
  | BinaryExpression op l r =>
      if str_eqb op (js "+")
      then match eval l, eval r with
           | Some a, Some b => Some (add a b)
           | _, _ => None
           end
      else None
  | TemplateLiteral quasis expressions =>
      option_map (fun vs => VString (templateString quasis vs))
        ((fix all (es : list Expr) : option (list Value) :=
            match es with
            | [] => Some []
            | e :: rest =>
                match eval e, all rest with
                | Some v, Some vs => Some (v :: vs)
                | _, _ => None
                end
            end) expressions)
  | _ => None
  end.

(** The values of a list of expressions, when all of them have one. *)
Fixpoint evalAll (es : list Expr) : option (list Value) :=
  match es with
  | [] => Some []
  | e :: rest =>
      match eval e, evalAll rest with
      | Some v, Some vs => Some (v :: vs)
      | _, _ => None
      end
  end.

(** ** Notions the properties are stated with *)

(** What the [TemplateLiteral] visitor of the first plugin puts in place
    of a template literal. *)
Definition concatResult (quasis : list jsstring) (expressions : list Expr) : Expr :=
  match concatLoop quasis expressions None with
  | Some result => result
  | None => StringLiteral []
  end.

(** The parts of a template literal in source order: each non-empty
    substring as a string literal, each interpolation as it is. *)
Fixpoint pieces (quasis : list jsstring) (expressions : list Expr) : list Expr :=
  match quasis with
  | [] => []
  | quasi :: quasis' =>
      (if truthy quasi then [StringLiteral quasi] else [])
        ++ match expressions with
           | expr :: expressions' => expr :: pieces quasis' expressions'
           | [] => pieces quasis' []
           end
  end.

(** One more operand on the right of the concatenation built so far. *)
Definition appendPiece (result : option Expr) (piece : Expr) : option Expr :=
  match result with
  | Some r => Some (BinaryExpression (js "+") r piece)
  | None => Some piece
  end.


End Transforms.

(* ================================================================== *)
(** * Strings, regular expressions and MagicString in src/index.ts *)
(* ================================================================== *)

Module Text.
Import JS.

(** The class [\s]: white space and line terminators. *)
Definition isWhiteSpace (c : Z) : bool :=
  ((9 <=? c) && (c <=? 13) || (c =? 32) || (c =? 160) || (c =? 5760)
   || (8192 <=? c) && (c <=? 8202) || (c =? 8232) || (c =? 8233)
   || (c =? 8239) || (c =? 8287) || (c =? 12288) || (c =? 65279))%Z.

(** The class [\S]. *)
Definition nonSpace (c : Z) : bool := negb (isWhiteSpace c).

Definition isLineTerminator (c : Z) : bool :=
  ((c =? 10) || (c =? 13) || (c =? 8232) || (c =? 8233))%Z.

(** The characters with a meaning of their own in a pattern, the dot
    apart. *)
Definition isSyntaxCharacter (c : Z) : bool :=
  existsb (Z.eqb c) (js "\^$*+?()[]{}|").

(** A chunk's base name is pasted into the pattern as it is.  The model
    reads it as a pattern for names made of ordinary characters and dots
    ([plainName]): a dot stands for any character but a line terminator,
    every other character for itself. *)
Definition plainName (name : jsstring) : bool :=
  forallb (fun c => negb (isSyntaxCharacter c)) name.

(** The pattern [name] matches at the start of [text]. *)
Fixpoint matchName (name text : jsstring) : bool :=
  match name, text with
  | [], _ => true
  | p :: name', c :: text' =>
      (if (p =? 46)%Z then negb (isLineTerminator c) else (c =? p)%Z)
      && matchName name' text'
  | _ :: _, [] => false
  end.

(** [\S*\)] matches at the start of [text]: a closing parenthesis before
    any white space. *)
Fixpoint closes (text : jsstring) : bool :=
  match text with
  | [] => false
  | c :: text' =>
      if (c =? 41)%Z then true
      else if nonSpace c then closes text' else false
  end.

(** The lookahead [(?=((n1)|(n2)|...)\S*\))] at the start of [text]: the
    alternatives are tried in order; what the first one that succeeds
    matched is the capture. *)
Fixpoint lookahead (names : list jsstring) (text : jsstring) : option jsstring :=
  match names with
  | [] => None
  | name :: rest =>
      if matchName name text && closes (skipn (length name) text)
      then Some (firstn (length name) text)
      else lookahead rest text
  end.

(** [\S*(?=...)] at the start of [text]: the star takes as many
    characters as it can and gives them back one by one until the
    lookahead succeeds.  The result is the number of characters taken and
    the capture. *)
Fixpoint greedy (names : list jsstring) (text : jsstring)
  : option (nat * jsstring) :=
  let here := option_map (pair 0) (lookahead names text) in
  match text with
  | [] => here
  | c :: text' =>
      if nonSpace c
      then match greedy names text' with
           | Some (k, chunkName) => Some (S k, chunkName)
           | None => here
           end
      else here
  end.

Definition REQUIRE : jsstring := js "require(".

(** The whole pattern at the start of [text]: the match and the capture. *)
Definition matchHere (names : list jsstring) (text : jsstring)
  : option (jsstring * jsstring) :=
  if startsWith text REQUIRE
  then match greedy names (skipn (length REQUIRE) text) with
       | Some (k, chunkName) => Some (firstn (length REQUIRE + k) text, chunkName)
       | None => None
       end
  else None.

(** The first position from [pos] on at which the pattern matches;
    [text] is the subject from [pos] on. *)
Fixpoint search (names : list jsstring) (text : jsstring) (pos : nat)
  : option (nat * jsstring * jsstring) :=
  match matchHere names text with
  | Some (prefix, chunkName) => Some (pos, prefix, chunkName)
  | None =>
      match text with
      | [] => None
      | _ :: text' => search names text' (S pos)
      end
  end.

(** [bytecodeRE.exec(code)] with the pattern's [lastIndex]: the index of
    the match, the match and the first capture. *)
Definition exec (names : list jsstring) (code : jsstring) (lastIndex : nat)
  : option (nat * jsstring * jsstring) :=
  if (length code <? lastIndex)%nat then None
  else search names (skipn lastIndex code) lastIndex.

(** ** MagicString *)

(** The original text and the ranges overwritten so far: start, end and
    new content, in the order of their starts. *)
Record MagicString : Type := mkMagicString {
  original : jsstring;
  edits : list (nat * nat * jsstring)
}.

Definition newMagicString (code : jsstring) : MagicString :=
  mkMagicString code [].

(** An index strictly inside an edited range cannot be split at. *)
Definition splitsEdited (edits : list (nat * nat * jsstring)) (index : nat) : bool :=
  existsb (fun e => match e with
                    | (s, e_, _) => (s <? index)%nat && (index <? e_)%nat
                    end) edits.

(** The edits a new range covers are replaced by it. *)
Definition covered (start end_ : nat) (e : nat * nat * jsstring) : bool :=
  match e with
  | (s, e_, _) => (start <=? s)%nat && (e_ <=? end_)%nat
  end.

Fixpoint insertEdit (e : nat * nat * jsstring) (edits : list (nat * nat * jsstring))
  : list (nat * nat * jsstring) :=
  match edits with
  | [] => [e]
  | e' :: rest =>
      if (fst (fst e) <=? fst (fst e'))%nat then e :: edits
      else e' :: insertEdit e rest
  end.

(** [s.overwrite(start, end, content, { contentOnly: true })]. *)
Definition overwrite (s : MagicString) (start end_ : nat) (content : jsstring)
  : result MagicString :=
  if (start =? end_)%nat
  then Throws "Cannot overwrite a zero-length range"
  else if (end_ <? start)%nat || (length (original s) <? end_)%nat
  then Throws "end is out of bounds"
  else if splitsEdited (edits s) start || splitsEdited (edits s) end_
  then Throws "Cannot split a chunk that has already been edited"
  else Ok (mkMagicString (original s)
             (insertEdit (start, end_, content)
                (filter (fun e => negb (covered start end_ e)) (edits s)))).

(** The text from index [pos] on ([text] is the original from [pos] on)
    with the edits, which are in order, applied. *)
Fixpoint render (edits : list (nat * nat * jsstring)) (text : jsstring) (pos : nat)
  : jsstring :=
  match edits with
  | [] => text
  | (start, end_, content) :: rest =>
      firstn (start - pos) text ++ content
        ++ render rest (skipn (end_ - pos) text) end_
  end.

(** [s.toString()]. *)
Definition toString (s : MagicString) : jsstring :=
  render (edits s) (original s) 0.

(** ** The loop that points require calls at [.jsc] files
<<
  while ((match = bytecodeRE.exec(_code))) {
    s ||= new MagicString(_code);
    const [prefix, chunkName] = match;
    const len = prefix.length + chunkName.length;
    s.overwrite(match.index, match.index + len, prefix + chunkName + "c",
                { contentOnly: true });
  }
>>
    [None] is a loop that ran out of [fuel]. *)
Fixpoint rewriteLoop (fuel : nat) (names : list jsstring) (_code : jsstring)
    (lastIndex : nat) (s : option MagicString)
  : option (result (option MagicString)) :=
  match fuel with
  | O => None
  | S fuel =>
      match exec names _code lastIndex with
      | None => Some (Ok s)
      | Some (index, prefix, chunkName) =>
          let s1 := match s with
                    | Some m => m
                    | None => newMagicString _code
                    end in
          let len := length prefix + length chunkName in
          match overwrite s1 index (index + len) (prefix ++ chunkName ++ js "c") with
          | Ok s2 => rewriteLoop fuel names _code (index + length prefix) (Some s2)
          | Throws m => Some (Throws m)
          end
      end
  end.

(** The code after the loop, [if (s) _code = s.toString()] included.
    Every match moves [lastIndex] forward, so the length of the code
    bounds the number of rounds. *)
Definition rewriteRequires (names : list jsstring) (_code : jsstring)
  : result jsstring :=
  match rewriteLoop (S (length _code)) names _code 0 None with
  | Some (Ok (Some s)) => Ok (toString s)
  | Some (Ok None) => Ok _code
  | Some (Throws m) => Throws m
  | None => Ok _code
  end.

(** ** [String.prototype.replace] with a pattern that is not global *)

Definition isDigit (c : Z) : bool := ((48 <=? c) && (c <=? 57))%Z.
Definition digit (c : Z) : nat := Z.to_nat (c - 48).

(** The capture a [$n] names, if [n] names one. *)
Definition capture (captures : list (option jsstring)) (n : nat)
  : option jsstring :=
  if ((1 <=? n) && (n <=? length captures))%nat
  then Some (match nth_error captures (n - 1) with
             | Some (Some c) => c
             | _ => []
             end)
  else None.

(** GetSubstitution: the replacement text with its [$] patterns
    expanded. *)
Fixpoint getSubstitution (matched before after : jsstring)
    (captures : list (option jsstring)) (replacement : jsstring) : jsstring :=
  match replacement with
  | [] => []
  | c :: rest =>
      if negb (c =? 36)%Z
      then c :: getSubstitution matched before after captures rest
      else
        match rest with
        | [] => [c]
        | d :: rest1 =>
            let continue := getSubstitution matched before after captures rest1 in
            if (d =? 36)%Z then 36%Z :: continue
            else if (d =? 38)%Z then matched ++ continue
            else if (d =? 96)%Z then before ++ continue
            else if (d =? 39)%Z then after ++ continue
            else if isDigit d
            then
              let one :=
                match capture captures (digit d) with
                | Some text => text ++ continue
                | None => c :: d :: continue
                end in
              match rest1 with
              | d2 :: rest2 =>
                  if isDigit d2
                  then
                    let index := (10 * digit d + digit d2)%nat in
                    if (length captures <? index)%nat then one
                    else match capture captures index with
                         | Some text =>
                             text ++ getSubstitution matched before after captures rest2
                         | None =>
                             c :: d :: d2
                               :: getSubstitution matched before after captures rest2
                         end
                  else one
              | [] => one
              end
            else c :: getSubstitution matched before after captures rest
        end
  end.

Definition USE_STRICT_DOUBLE : jsstring := [34%Z] ++ js "use strict" ++ [34%Z] ++ js ";".
Definition USE_STRICT_SINGLE : jsstring := js "'use strict';".

(** The first match of [/("use strict";)|('use strict';)/] in [text]:
    the text before it, the match with its two captures, the text after
    it. *)
Fixpoint findUseStrict (text : jsstring)
  : option (jsstring * jsstring * list (option jsstring) * jsstring) :=
  if startsWith text USE_STRICT_DOUBLE
  then Some ([], USE_STRICT_DOUBLE, [Some USE_STRICT_DOUBLE; None],
             skipn (length USE_STRICT_DOUBLE) text)
  else if startsWith text USE_STRICT_SINGLE
  then Some ([], USE_STRICT_SINGLE, [None; Some USE_STRICT_SINGLE],
             skipn (length USE_STRICT_SINGLE) text)
  else match text with
       | [] => None
       | c :: text' =>
           match findUseStrict text' with
           | Some (before, matched, captures, after) =>
               Some (c :: before, matched, captures, after)
           | None => None
           end
       end.

(** [text.replace(/("use strict";)|('use strict';)/, replacement)]. *)
Definition replaceUseStrict (text replacement : jsstring) : jsstring :=
  match findUseStrict text with
  | Some (before, matched, captures, after) =>
      before ++ getSubstitution matched before after captures replacement ++ after
  | None => text
  end.

(** ** Notions the properties are stated with *)

(** [text], which is the original from index [pos] on, with a [c]
    inserted at each of the indices [cuts] of the original, given in
    ascending order. *)
Fixpoint insertC (cuts : list nat) (text : jsstring) (pos : nat) : jsstring :=
  match cuts with
  | [] => text
  | cut :: rest =>
      firstn (cut - pos) text ++ js "c"
        ++ insertC rest (skipn (cut - pos) text) cut
  end.

(** Some name of the list matches the characters of [code] that end at
    index [cut]. *)
Definition nameEndsAt (names : list jsstring) (code : jsstring) (cut : nat) : Prop :=
  exists name,
    In name names /\ length name <= cut
    /\ matchName name (skipn (cut - length name) code) = true.

(** Edits as the loop makes them: each replaces a range of [code] that
    ends with a chunk name by the same characters and a [c]; the ranges
    are in order, none begins before [lo] or before the one before it
    ends. *)
Fixpoint orderedEdits (names : list jsstring) (code : jsstring) (lo : nat)
    (edits : list (nat * nat * jsstring)) : Prop :=
  match edits with
  | [] => True
  | (start, end_, content) :: rest =>
      lo <= start /\ start < end_ /\ end_ <= length code
      /\ content = firstn (end_ - start) (skipn start code) ++ js "c"
      /\ nameEndsAt names code end_
      /\ orderedEdits names code end_ rest
  end.

(** The indices are in strictly ascending order and above [lo]. *)
Fixpoint ascending (lo : nat) (cuts : list nat) : Prop :=
  match cuts with
  | [] => True
  | cut :: rest => lo < cut /\ ascending cut rest
  end.

(** What the loop keeps true of the MagicString it builds. *)
Definition loopState (names : list jsstring) (code : jsstring) (lastIndex : nat)
    (s : option MagicString) : Prop :=
  match s with
  | None => True
  | Some m =>
      original m = code
      /\ orderedEdits names code 0 (edits m)
      /\ Forall (fun e => fst (fst e) < lastIndex) (edits m)
  end.

End Text.

(* ================================================================== *)
(** * src/index.ts *)
(* ================================================================== *)

Module Plugin.
Import JS Compiler Text.

(** [chunkAlias?: string | string[]]. *)
Inductive ChunkAlias : Type :=
| Alias (alias : jsstring)
| Aliases (aliases : list jsstring).

(** [BytecodeOptions]; [None] is an option left unset. *)
Record BytecodeOptions : Type := mkOptions {
  chunkAlias : option ChunkAlias;
  removeBundleJS : option bool;
  protectedStrings : option (list jsstring)
}.

(** [const _chunkAlias = Array.isArray(chunkAlias) ? chunkAlias : [chunkAlias]],
    after the default [chunkAlias = []]. *)
Definition _chunkAlias (options : BytecodeOptions) : list jsstring :=
  match chunkAlias options with
  | None => []
  | Some (Aliases aliases) => aliases
  | Some (Alias alias) => [alias]
  end.

Definition transformAllChunks (options : BytecodeOptions) : bool :=
  (length (_chunkAlias options) =? 0)%nat.

Definition isBytecodeChunk (options : BytecodeOptions) (chunkName : jsstring) : bool :=
  transformAllChunks options
  || existsb (fun alias => str_eqb alias chunkName) (_chunkAlias options).

Definition keepsBundleJS (options : BytecodeOptions) : bool :=
  match removeBundleJS options with
  | Some b => negb b
  | None => false
  end.

Definition useStrict : jsstring := USE_STRICT_DOUBLE.
Definition bytecodeModuleLoader : jsstring := js "bytecode-loader.cjs".

(** Rollup's [OutputChunk], the fields the plugin reads. *)
Record OutputChunk : Type := mkChunk {
  fileName : jsstring;
  name : jsstring;
  isEntry : bool;
  code : jsstring;
  imports : list jsstring;
  dynamicImports : list jsstring
}.

Inductive Source : Type :=
| SourceText (text : jsstring)
| SourceBytes (bytes : Buffer).

Inductive OutputItem : Type :=
| Chunk (chunk : OutputChunk)
| Asset (assetFileName : jsstring) (source : Source).

(** The [output] object: its keys in the order of [Object.keys]. *)
Definition OutputBundle := list (jsstring * OutputItem).

(** Rollup's [ModuleInfo], the fields the plugin reads. *)
Record ModuleInfo : Type := mkModuleInfo {
  importers : list jsstring;
  dynamicImporters : list jsstring;
  isExternal : bool
}.

(** The module graph behind [this.getModuleInfo]: finitely many ids. *)
Definition ModuleGraph := list (jsstring * ModuleInfo).

Fixpoint getModuleInfo (graph : ModuleGraph) (moduleId : jsstring)
  : option ModuleInfo :=
  match graph with
  | [] => None
  | (id, info) :: rest =>
      if str_eqb id moduleId then Some info else getModuleInfo rest moduleId
  end.

(** What surrounds one build: the working directory of the process, the
    virtual machine, the module graph, and the text of
    [getBytecodeLoaderCode()], whose source file is not part of this
    development. *)
Record Environment : Type := mkEnvironment {
  cwd : jsstring;
  vm : VM;
  graph : ModuleGraph;
  loaderCode : jsstring
}.

(** [set.add(x)] on a [Set] kept in insertion order. *)
Definition setAdd (set : list jsstring) (x : jsstring) : list jsstring :=
  if includes set x then set else set ++ [x].

Definition setAddAll (set : list jsstring) (xs : list jsstring) : list jsstring :=
  fold_left setAdd xs set.

(** [new Set([...chunk.imports, ...chunk.dynamicImports])]. *)
Definition idsToHandle (chunk : OutputChunk) : list jsstring :=
  setAddAll [] (imports chunk ++ dynamicImports chunk).

(** The [for (const moduleId of idsToHandle)] loop, which also reaches
    the ids added while it runs: [i] is the index of the next id.  The
    result is [hasBytecodeModule]; [None] is a loop that ran out of
    [fuel]. *)
Fixpoint walk (fuel : nat) (graph : ModuleGraph) (bytecodeChunks : list jsstring)
    (ids : list jsstring) (i : nat) : option bool :=
  match fuel with
  | O => None
  | S fuel =>
      match nth_error ids i with
      | None => Some false
      | Some moduleId =>
          if includes bytecodeChunks moduleId then Some true
          else
            match getModuleInfo graph moduleId with
            | Some moduleInfo =>
                if negb (isExternal moduleInfo)
                then walk fuel graph bytecodeChunks
                       (setAddAll (setAddAll ids (importers moduleInfo))
                                  (dynamicImporters moduleInfo))
                       (S i)
                else walk fuel graph bytecodeChunks ids (S i)
            | None => walk fuel graph bytecodeChunks ids (S i)
            end
      end
  end.

(** Every id the loop can ever hold. *)
Definition universe (graph : ModuleGraph) (chunk : OutputChunk) : list jsstring :=
  idsToHandle chunk
    ++ flat_map (fun entry => importers (snd entry) ++ dynamicImporters (snd entry))
         graph.

(** [hasBytecodeModule] after the loop.  The set never holds an id twice,
    so the size of [universe] bounds the number of rounds. *)
Definition hasBytecodeModule (graph : ModuleGraph) (bytecodeChunks : list jsstring)
    (chunk : OutputChunk) : bool :=
  match walk (S (length (universe graph chunk))) graph bytecodeChunks
          (idsToHandle chunk) 0 with
  | Some b => b
  | None => false
  end.

(** [getBytecodeLoaderBlock]. *)
Definition getBytecodeLoaderBlock (cwd : jsstring) (chunkFileName : jsstring)
  : jsstring :=
  js "require(" ++ [34%Z]
    ++ Utils.toRelativePath cwd bytecodeModuleLoader (Utils.normalizePath chunkFileName)
    ++ [34%Z] ++ js ");".

(** The chunks selected for compilation, [bytecodeChunks] and
    [nonEntryChunks]. *)
Definition candidates (options : BytecodeOptions) (output : OutputBundle)
  : list OutputChunk :=
  flat_map (fun entry =>
              match snd entry with
              | Chunk chunk => if isBytecodeChunk options (name chunk) then [chunk] else []
              | Asset _ _ => []
              end) output.

Definition bytecodeChunks (options : BytecodeOptions) (output : OutputBundle)
  : list jsstring :=
  map fileName (candidates options output).

Definition nonEntryChunks (options : BytecodeOptions) (output : OutputBundle)
  : list jsstring :=
  map (fun chunk => NodePath.basename (fileName chunk))
    (filter (fun chunk => negb (isEntry chunk)) (candidates options output)).

(** The first step on a chunk, [if (bytecodeRE) { ... }]: the pattern is
    [null] when there is no name to look for. *)
Definition updateRequires (names : list jsstring) (_code : jsstring)
  : result jsstring :=
  match names with
  | [] => Ok _code
  | _ :: _ => rewriteRequires names _code
  end.

(** The code of a chunk that is not compiled, from its code after
    [updateRequires]. *)
Definition injectLoader (env : Environment) (compiled : list jsstring)
    (chunk : OutputChunk) (_code : jsstring) : jsstring :=
  if isEntry chunk
  then if hasBytecodeModule (graph env) compiled chunk
       then replaceUseStrict _code
              (useStrict ++ [LF] ++ getBytecodeLoaderBlock (cwd env) (fileName chunk))
       else _code
  else _code.

(** The code that replaces a compiled entry chunk. *)
Definition entryCode (env : Environment) (key : jsstring) (chunk : OutputChunk)
  : jsstring :=
  let bytecodeLoaderBlock := getBytecodeLoaderBlock (cwd env) (fileName chunk) in
  let bytecodeModuleBlock :=
    js "require(" ++ [34%Z] ++ js "./" ++ NodePath.basename key ++ js "c"
      ++ [34%Z] ++ js ");" in
  useStrict ++ [LF] ++ bytecodeLoaderBlock ++ [LF] ++ bytecodeModuleBlock ++ [LF].

(** A call of [this.emitFile]. *)
Record EmittedAsset : Type := mkEmitted {
  emittedFileName : jsstring;
  emittedSource : Source
}.

(** What the callback of [bundles.map] does to one chunk. *)
Record Finalized : Type := mkFinalized {
  newCode : jsstring;            (* [chunk.code] afterwards *)
  deleted : list jsstring;       (* the keys it deletes from [output] *)
  emitted : list EmittedAsset;
  compiledCount : nat
}.

Definition finalizeChunk (options : BytecodeOptions) (env : Environment)
    (output : OutputBundle) (p : Process) (key : jsstring) (chunk : OutputChunk)
  : Process * result Finalized :=
  match updateRequires (nonEntryChunks options output) (code chunk) with
  | Throws m => (p, Throws m)
  | Ok _code =>
      if includes (bytecodeChunks options output) key
      then
        match compileToBytecode (vm env) p _code with
        | (p', Throws m) => (p', Throws m)
        | (p', Ok bytecodeBuffer) =>
            let artifact := mkEmitted (key ++ js "c") (SourceBytes bytecodeBuffer) in
            let original :=
              if keepsBundleJS options
              then [mkEmitted (js "_" ++ fileName chunk) (SourceText (code chunk))]
              else [] in
            if isEntry chunk
            then (p', Ok (mkFinalized (entryCode env key chunk) []
                            (artifact :: original) 1))
            else (p', Ok (mkFinalized (code chunk) [fileName chunk]
                            (artifact :: original) 1))
        end
      else
        (p, Ok (mkFinalized
                  (injectLoader env (bytecodeChunks options output) chunk _code)
                  [] [] 0))
  end.

(** The callbacks over [Object.keys(output)], in order; one that throws
    rejects the whole step. *)
Fixpoint finalizeAll (options : BytecodeOptions) (env : Environment)
    (output : OutputBundle) (p : Process) (bundles : OutputBundle)
  : Process * result (list (jsstring * OutputItem * Finalized)) :=
  match bundles with
  | [] => (p, Ok [])
  | (key, Asset f src) :: rest =>
      match finalizeAll options env output p rest with
      | (p', Ok done) => (p', Ok ((key, Asset f src, mkFinalized [] [] [] 0) :: done))
      | (p', Throws m) => (p', Throws m)
      end
  | (key, Chunk chunk) :: rest =>
      match finalizeChunk options env output p key chunk with
      | (p1, Throws m) =>
          (* the callbacks after a rejected one still run *)
          (fst (finalizeAll options env output p1 rest), Throws m)
      | (p1, Ok fin) =>
          match finalizeAll options env output p1 rest with
          | (p', Ok done) => (p', Ok ((key, Chunk chunk, fin) :: done))
          | (p', Throws m) => (p', Throws m)
          end
      end
  end.

Definition withCode (chunk : OutputChunk) (code' : jsstring) : OutputChunk :=
  mkChunk (fileName chunk) (name chunk) (isEntry chunk) code'
    (imports chunk) (dynamicImports chunk).

(** What the build step leaves: the [output] object and the assets it
    emitted. *)
Record Generated : Type := mkGenerated {
  finalOutput : OutputBundle;
  assets : list EmittedAsset
}.

Definition hasLoaderAsset (output : OutputBundle) : bool :=
  existsb (fun entry =>
             match snd entry with
             | Asset f _ => str_eqb f bytecodeModuleLoader
             | Chunk _ => false
             end) output.

(** [generateBundle], for a plugin whose [supported] flag is as given. *)
Definition generateBundle (supported : bool) (options : BytecodeOptions)
    (env : Environment) (p : Process) (output : OutputBundle)
  : Process * result Generated :=
  if negb supported then (p, Ok (mkGenerated output []))
  else if (length (candidates options output) =? 0)%nat
  then (p, Ok (mkGenerated output []))
  else
    match finalizeAll options env output p output with
    | (p', Throws m) => (p', Throws m)
    | (p', Ok done) =>
        let gone := flat_map (fun d => deleted (snd d)) done in
        let kept :=
          filter (fun entry => negb (includes gone (fst entry)))
            (map (fun d =>
                    match d with
                    | (key, Chunk chunk, fin) => (key, Chunk (withCode chunk (newCode fin)))
                    | (key, Asset f src, _) => (key, Asset f src)
                    end) done) in
        let bytecodeChunkCount :=
          fold_left Nat.add (map (fun d => compiledCount (snd d)) done) 0 in
        let loader :=
          if (0 <? bytecodeChunkCount)%nat && negb (hasLoaderAsset output)
          then [mkEmitted bytecodeModuleLoader (SourceText (loaderCode env))]
          else [] in
        (p', Ok (mkGenerated kept (flat_map (fun d => emitted (snd d)) done ++ loader)))
    end.

(** The code of the chunk stored under [key] in an output object. *)
Fixpoint codeOf (output : OutputBundle) (key : jsstring) : option jsstring :=
  match output with
  | [] => None
  | (k, item) :: rest =>
      if str_eqb k key
      then match item with
           | Chunk chunk => Some (code chunk)
           | Asset _ _ => None
           end
      else codeOf rest key
  end.

(** ** Notions the properties are stated with *)

(** The option is the empty string, or an array that is not empty and
    holds nothing but empty strings. *)
Definition onlyEmptyAliases (options : BytecodeOptions) : Prop :=
  match chunkAlias options with
  | Some (Alias alias) => alias = []
  | Some (Aliases (alias :: aliases)) => Forall (fun a => a = []) (alias :: aliases)
  | Some (Aliases []) => False
  | None => False
  end.

(** A name no alias of the list equals: it is longer than all of them. *)
Definition freshName (aliases : list jsstring) : jsstring :=
  repeat 0%Z (S (list_max (map (@length Z) aliases))).

(** Every item is stored under its own file name. *)
Definition keysAreFileNames (output : OutputBundle) : Prop :=
  Forall (fun entry =>
            match snd entry with
            | Chunk chunk => fileName chunk = fst entry
            | Asset f _ => f = fst entry
            end) output.

(** The keys of an object are distinct. *)
Definition wellFormed (output : OutputBundle) : Prop :=
  NoDup (map fst output) /\ keysAreFileNames output.

(** A loader path without a dollar sign is inserted as it is. *)
Definition noDollar (text : jsstring) : bool :=
  forallb (fun c => negb (c =? 36)%Z) text.

(** ** Sample builds *)

Definition sampleEnv : Environment :=
  mkEnvironment (js "/work") sampleVM [] (js "/* loader */").

(** [code] after the single-quoted directive on a line of its own. *)
Definition strictThen (code : jsstring) : jsstring :=
  USE_STRICT_SINGLE ++ [LF] ++ code.

(** What a build step returned, for a step that did not throw. *)
Definition generated (r : Process * result Generated) : Generated :=
  match snd r with
  | Ok g => g
  | Throws _ => mkGenerated [] []
  end.

(** Four chunks, of which only [c] is selected: the entry [main] requires
    [c]; the entry [a] requires [b], which requires [c]. *)
Definition chunkMain : OutputChunk :=
  mkChunk (js "main.js") (js "main") true
    (strictThen (js "const c = require('./c.js');")) [js "c.js"] [].
Definition chunkA : OutputChunk :=
  mkChunk (js "a.js") (js "a") true
    (strictThen (js "const b = require('./b.js');")) [js "b.js"] [].
Definition chunkB : OutputChunk :=
  mkChunk (js "b.js") (js "b") false
    (strictThen (js "const c = require('./c.js');")) [js "c.js"] [].
Definition chunkC : OutputChunk :=
  mkChunk (js "c.js") (js "c") false (js "exports.x = 1;") [] [].

Definition chainOutput : OutputBundle :=
  [ (js "main.js", Chunk chunkMain); (js "a.js", Chunk chunkA);
    (js "b.js", Chunk chunkB); (js "c.js", Chunk chunkC) ].

Definition chainOptions : BytecodeOptions :=
  mkOptions (Some (Aliases [js "c"])) None None.

Definition chainBuild : Process * result Generated :=
  generateBundle true chainOptions sampleEnv startProcess chainOutput.

(** A minified entry that requires two selected chunks in one statement. *)
Definition minifiedOutput : OutputBundle :=
  [ (js "main.js",
     Chunk (mkChunk (js "main.js") (js "main") true
              (js "'use strict';const a=require('./a.js'),b=require('./b.js');")
              [js "a.js"; js "b.js"] []));
    (js "a.js", Chunk (mkChunk (js "a.js") (js "a") false (js "exports.a=1;") [] []));
    (js "b.js", Chunk (mkChunk (js "b.js") (js "b") false (js "exports.b=2;") [] [])) ].

Definition minifiedOptions : BytecodeOptions :=
  mkOptions (Some (Aliases [js "a"; js "b"])) None None.

Definition minifiedBuild : Process * result Generated :=
  generateBundle true minifiedOptions sampleEnv startProcess minifiedOutput.

(** An entry without a strict-mode directive that requires a selected
    chunk. *)
Definition looseMain : OutputChunk :=
  mkChunk (js "main.js") (js "main") true
    (js "const d = require('./dep.js');") [js "dep.js"] [].

Definition looseOutput : OutputBundle :=
  [ (js "main.js", Chunk looseMain);
    (js "dep.js",
     Chunk (mkChunk (js "dep.js") (js "dep") false (js "exports.d = 1;") [] [])) ].

Definition looseOptions : BytecodeOptions :=
  mkOptions (Some (Alias (js "dep"))) None None.

Definition looseBuild : Process * result Generated :=
  generateBundle true looseOptions sampleEnv startProcess looseOutput.

End Plugin.

(* ================================================================== *)
(** * src/compiler.ts: the compilations of one process *)
(* ================================================================== *)

Module Runs.
Import JS Compiler.

(** The process after the compilations of [sources], in order. *)
Fixpoint compileRun (vm : VM) (p : Process) (sources : list jsstring) : Process :=
  match sources with
  | [] => p
  | s :: rest => compileRun vm (fst (compileToBytecode vm p s)) rest
  end.

(** The computation returned a value. *)
Definition returned {A : Type} (r : result A) : bool :=
  match r with
  | Ok _ => true
  | Throws _ => false
  end.

End Runs.

(* ================================================================== *)
(** * Paths made of plain names *)
(* ================================================================== *)

Module Segments.
Import JS NodePath.

(** No slash in the text. *)
Definition slashFree (seg : jsstring) : bool :=
  forallb (fun c => negb (c =? SLASH)%Z) seg.

(** The name of a file or of a directory: not empty, neither [.] nor
    [..], and without a slash. *)
Definition plainSegment (seg : jsstring) : bool :=
  negb (str_eqb seg []) && negb (str_eqb seg [DOT]) && negb (str_eqb seg [DOT; DOT])
  && slashFree seg.

(** One [..] for each directory of the list. *)
Definition upFrom (dirs : list jsstring) : list jsstring :=
  map (fun _ => [DOT; DOT]) dirs.

(** No backslash in the text. *)
Definition noBackslash (p : jsstring) : bool :=
  forallb (fun c => negb (c =? 92)%Z) p.

End Segments.

(* ================================================================== *)
(** * src/utils.ts: output formats *)
(* ================================================================== *)

Module Formats.
Import JS.

(** ** [resolveBuildOutputs] *)

(** The value of a property: a string, or a value of another type, which
    is strictly equal to no string. *)
Inductive PropertyValue : Type :=
| StringValue (s : jsstring)
| OtherValue (tag : nat).

(** A plain object: its own properties in the order of their creation,
    no key twice. *)
Definition Object := list (jsstring * PropertyValue).

(** [o[key]]. *)
Fixpoint getProperty (o : Object) (key : jsstring) : option PropertyValue :=
  match o with
  | [] => None
  | (k, v) :: rest => if str_eqb k key then Some v else getProperty rest key
  end.

(** [o[key] = v] on a copy of [o]: a property that is there keeps its
    place, a new one comes last. *)
Fixpoint setProperty (o : Object) (key : jsstring) (v : PropertyValue) : Object :=
  match o with
  | [] => [(key, v)]
  | (k, v') :: rest =>
      if str_eqb k key then (k, v) :: rest
      else (k, v') :: setProperty rest key v
  end.

(** Rollup's [OutputOptions]. *)
Definition OutputOptions := Object.

(** [OutputOptions | OutputOptions[]]; [undefined] is [None] where the
    type is used. *)
Inductive Outputs : Type :=
| Single (output : OutputOptions)
| Many (outputs : list OutputOptions).

(** Vite's [LibraryOptions], the field the plugin reads. *)
Record LibraryOptions : Type := mkLibrary {
  formats : option (list jsstring)
}.

Definition FORMAT : jsstring := js "format".

(** [{ ...outputs, format }] for [outputs] that is not an array. *)
Definition withFormat (outputs : option Outputs) (format : jsstring) : OutputOptions :=
  setProperty (match outputs with
               | Some (Single o) => o
               | _ => []
               end) FORMAT (StringValue format).

(** [resolveBuildOutputs]; [libOptions] is [None] for [false]. *)
Definition resolveBuildOutputs (outputs : option Outputs)
    (libOptions : option LibraryOptions) : option Outputs :=
  match libOptions, outputs with
  | Some _, Some (Many _) => outputs
  | Some lib, _ =>
      let libFormats := match formats lib with
                        | Some fs => fs
                        | None => []
                        end in
      Some (Many (map (fun format => withFormat outputs format) libFormats))
  | None, _ => outputs
  end.

(** ** [detectModuleFormat] *)

Inductive ModuleFormat : Type := ESM | CJS.

(** The class [\w], which decides where [\b] matches. *)
Definition isWordChar (c : Z) : bool :=
  ((97 <=? c) && (c <=? 122) || (65 <=? c) && (c <=? 90)
   || (48 <=? c) && (c <=? 57) || (c =? 95))%Z.

Definition IMPORT : jsstring := js "import".
Definition EXPORT : jsstring := js "export".

(** [(import|export)\s+] matches at the start of [text]: one white space
    after the keyword is enough for [test]. *)
Definition keywordHere (text : jsstring) : bool :=
  (startsWith text IMPORT || startsWith text EXPORT)
  && match nth_error text 6 with
     | Some c => Text.isWhiteSpace c
     | None => false
     end.

(** [/\b(import|export)\s+/.test] on what is left of the subject;
    [wordBefore] tells whether the character before it is a word
    character.  The keyword begins with one, so [\b] matches exactly when
    the character before is none. *)
Fixpoint esmPattern_test (wordBefore : bool) (text : jsstring) : bool :=
  negb wordBefore && keywordHere text
  || match text with
     | [] => false
     | c :: text' => esmPattern_test (isWordChar c) text'
     end.

(** [detectModuleFormat]. *)
Definition detectModuleFormat (code : jsstring) : ModuleFormat :=
  if esmPattern_test false code then ESM else CJS.

(** The last character of the text is a word character. *)
Definition endsInWord (text : jsstring) : bool :=
  match rev text with
  | c :: _ => isWordChar c
  | [] => false
  end.

End Formats.

(* ================================================================== *)
(** * src/index.ts: the hooks beside generateBundle *)
(* ================================================================== *)

Module Hooks.
Import JS Formats Plugin.

(** ** [configResolved] *)

(** The two warnings the hook can log. *)
Inductive Warning : Type :=
| RendererNotSupported
| ESModuleNotSupported.

(** Vite's resolved configuration, the fields the hook reads: the names
    of [config.plugins], [config.build.rollupOptions.output] and
    [config.build.lib]. *)
Record ResolvedConfig : Type := mkConfig {
  pluginNames : list jsstring;
  rollupOutput : option Outputs;
  lib : option LibraryOptions
}.

Definition RENDERER_PRESET : jsstring := js "vite:electron-renderer-preset-config".

(** [output.format === format]. *)
Definition formatIs (output : OutputOptions) (format : jsstring) : bool :=
  match getProperty output FORMAT with
  | Some (StringValue s) => str_eqb s format
  | _ => false
  end.

(** [configResolved], from the value of [supported] before the call: the
    value after it and the warnings logged.  Reading [format] of a first
    output that is not there throws. *)
Definition configResolved (supported : bool) (config : ResolvedConfig)
  : result (bool * list Warning) :=
  if supported then Ok (supported, [])
  else
    let useInRenderer :=
      existsb (fun p => str_eqb p RENDERER_PRESET) (pluginNames config) in
    if useInRenderer then Ok (supported, [RendererNotSupported])
    else
      match resolveBuildOutputs (rollupOutput config) (lib config) with
      | Some resolvedOutputs =>
          let outputs := match resolvedOutputs with
                         | Many os => os
                         | Single o => [o]
                         end in
          match nth_error outputs 0 with
          | None => Throws "Cannot read properties of undefined (reading 'format')"
          | Some output =>
              let warnings :=
                if formatIs output (js "es") then [ESModuleNotSupported] else [] in
              Ok (formatIs output (js "cjs") && negb useInRenderer, warnings)
          end
      | None => Ok (supported, [])
      end.

(** The output the hook looks at: the first of the resolved outputs. *)
Definition firstOutput (config : ResolvedConfig) : option OutputOptions :=
  match resolveBuildOutputs (rollupOutput config) (lib config) with
  | Some (Single o) => Some o
  | Some (Many os) => nth_error os 0
  | None => None
  end.

(** [outputs] is not an array. *)
Definition notArray (outputs : option Outputs) : bool :=
  match outputs with
  | Some (Many _) => false
  | _ => true
  end.

(** [libOptions.formats || []]. *)
Definition libFormats (lib : LibraryOptions) : list jsstring :=
  match formats lib with
  | Some fs => fs
  | None => []
  end.

(** ** [renderChunk] *)

(** What [renderChunk] returns: [null], or the transformed code. *)
Inductive Rendered : Type :=
| Unchanged
| Transformed (code : Transforms.Program).

(** [protectedStrings = []] when the option is unset. *)
Definition _protectedStrings (options : BytecodeOptions) : list jsstring :=
  match protectedStrings options with
  | Some l => l
  | None => []
  end.

(** [renderChunk] between Babel's parser and generator; [None] is a
    traversal that ran out of fuel. *)
Definition renderChunk (supported : bool) (options : BytecodeOptions)
    (code : Transforms.Program) (chunkName : jsstring) : option Rendered :=
  if supported && isBytecodeChunk options chunkName
  then option_map Transformed (Transforms.transformCode code (_protectedStrings options))
  else Some Unchanged.

(** ** [writeBundle] *)

(** [s.endsWith(suffix)]. *)
Definition endsWith (s suffix : jsstring) : bool :=
  startsWith (rev s) (rev suffix).

(** [/\.(jsc|cjsc)$/.test(chunk)]. *)
Definition bytecodeChunkExtensionRE_test (chunk : jsstring) : bool :=
  endsWith chunk (js ".jsc") || endsWith chunk (js ".cjsc").

(** [writeBundle]: the number it logs for the keys of the written bundle,
    [None] when it logs nothing. *)
Definition writeBundle (supported : bool) (keys : list jsstring) : option nat :=
  if supported
  then Some (length (filter bytecodeChunkExtensionRE_test keys))
  else None.

End Hooks.

(* ================================================================== *)
(** * Notions for src/transforms.ts *)
(* ================================================================== *)

Module Literals.
Import JS Transforms.

(** The expression of a statement. *)
Definition expressionOf (s : Statement) : Expr :=
  match s with
  | ExpressionStatement e => e
  | VariableDeclaration _ _ init => init
  end.

(** Some string literal of the expression is one of the strings [ps]. *)
Fixpoint mentions (ps : list jsstring) (e : Expr) : bool :=
  match e with
  | StringLiteral value => includes ps value
  | Identifier _ | NumericLiteral _ => false
  | TemplateLiteral _ expressions => existsb (mentions ps) expressions
  | BinaryExpression _ l r => mentions ps l || mentions ps r
  | MemberExpression o p _ => mentions ps o || mentions ps p
  | CallExpression callee args => mentions ps callee || existsb (mentions ps) args
  | ObjectExpression props =>
      existsb (fun p => match p with
                        | Property k _ v => mentions ps k || mentions ps v
                        end) props
  | ArrayExpression elements => existsb (mentions ps) elements
  | SpreadElement a => mentions ps a
  | FunctionExpression params e => existsb (mentions ps) params || mentions ps e
  | OptionalMemberExpression o p _ => mentions ps o || mentions ps p
  | OptionalCallExpression callee args =>
      mentions ps callee || existsb (mentions ps) args
  end.

(** The expression evaluates to a string. *)
Definition isString (e : Expr) : bool :=
  match eval e with
  | Some (VString _) => true
  | _ => false
  end.

(** There is no piece, or one of the first two pieces evaluates to a
    string. *)
Definition leadingString (parts : list Expr) : bool :=
  match parts with
  | [] => true
  | first :: rest =>
      isString first
      || match rest with
         | second :: _ => isString second
         | [] => false
         end
  end.

End Literals.

(* ================================================================== *)
(** * Expressions the plugins leave alone *)
(* ================================================================== *)

Module Settled.
Import JS Transforms.

(** Nothing is left for the two plugins to do in an expression that sits
    at [pos]: it holds no template literal, and a string literal in it is
    a protected string only at a position the visitor skips. *)
Fixpoint settled (ps : list jsstring) (pos : Position) (e : Expr) : bool :=
  match e with
  | Identifier _ | NumericLiteral _ => true
  | StringLiteral value => skipped pos || negb (includes ps value)
  | TemplateLiteral _ _ => false
  | BinaryExpression _ l r => settled ps Elsewhere l && settled ps Elsewhere r
  | MemberExpression o p computed =>
      settled ps MemberObject o && settled ps (MemberProperty computed) p
  | CallExpression callee args =>
      settled ps Callee callee
      && (fix each (i : nat) (nodes : list Expr) : bool :=
            match nodes with
            | [] => true
            | n :: rest => settled ps (Argument callee i) n && each (S i) rest
            end) 0 args
  | ObjectExpression props =>
      forallb (fun p => match p with
                        | Property k computed v =>
                            settled ps (PropertyKey computed) k
                            && settled ps PropertyValue v
                        end) props
  | ArrayExpression elements => forallb (settled ps Elsewhere) elements
  | SpreadElement a => settled ps Elsewhere a
  | FunctionExpression params e =>
      forallb (settled ps Elsewhere) params && settled ps Elsewhere e
  | OptionalMemberExpression o p computed =>
      settled ps MemberObject o && settled ps (OptionalMemberProperty computed) p
  | OptionalCallExpression callee args =>
      settled ps Callee callee
      && (fix each (i : nat) (nodes : list Expr) : bool :=
            match nodes with
            | [] => true
            | n :: rest => settled ps (OptionalArgument callee i) n && each (S i) rest
            end) 0 args
  end.

(** The nodes of a list are settled, the one at index [i + k] at the
    position [at_ (i + k)]. *)
Fixpoint settledAll (ps : list jsstring) (at_ : nat -> Position) (i : nat)
    (nodes : list Expr) : bool :=
  match nodes with
  | [] => true
  | n :: rest => settled ps (at_ i) n && settledAll ps at_ (S i) rest
  end.

End Settled.

(* ================================================================== *)
(** * Notions for the rewrite of require calls *)
(* ================================================================== *)

Module Overlap.
Import JS Text.

(** What is left of the name from some index on can be the beginning of
    [require(]: a match of the name could then end inside a later call. *)
Definition overlapsRequire (name : jsstring) : bool :=
  existsb (fun i => matchName (firstn (length REQUIRE) (skipn i name)) REQUIRE)
    (seq 0 (length name)).

(** Every edit of the MagicString ends at or before every call of [code]
    that begins at or after [lastIndex]. *)
Definition behind (code : jsstring) (lastIndex : nat) (s : option MagicString) : Prop :=
  match s with
  | None => True
  | Some m =>
      original m = code
      /\ forall e, In e (edits m) ->
         forall j, lastIndex <= j ->
           startsWith (skipn j code) REQUIRE = true -> snd (fst e) <= j
  end.

End Overlap.

(* ================================================================== *)
(** * The ids the reachability walk can reach *)
(* ================================================================== *)

Module Reach.
Import JS Plugin.

(** The ids the loop of [generateBundle] can come to hold for an entry:
    the imports of the chunk, and the importers of every id among them
    that names a module of the graph that is not external. *)
Inductive reaches (graph : ModuleGraph) (chunk : OutputChunk) : jsstring -> Prop :=
| reaches_import (id : jsstring) :
    In id (imports chunk ++ dynamicImports chunk) ->
    reaches graph chunk id
| reaches_importer (id importer : jsstring) (info : ModuleInfo) :
    reaches graph chunk id ->
    getModuleInfo graph id = Some info ->
    isExternal info = false ->
    In importer (importers info ++ dynamicImporters info) ->
    reaches graph chunk importer.

(** The id at index [k] has been handled: it is not a compiled chunk, and
    the importers of its module, if it has one that is not external, are
    in the set. *)
Definition handled (graph : ModuleGraph) (compiled ids : list jsstring) (k : nat)
  : Prop :=
  exists id,
    nth_error ids k = Some id
    /\ includes compiled id = false
    /\ forall info,
         getModuleInfo graph id = Some info -> isExternal info = false ->
         incl (importers info ++ dynamicImporters info) ids.

End Reach.

(* ================================================================== *)
(** * What generateBundle leaves and emits *)
(* ================================================================== *)

Module Outcome.
Import JS Compiler Text Plugin.

(** The item is a chunk whose name is selected for compilation. *)
Definition compiles (options : BytecodeOptions) (item : OutputItem) : bool :=
  match item with
  | Chunk chunk => isBytecodeChunk options (name chunk)
  | Asset _ _ => false
  end.

(** The item is a selected chunk that is not an entry. *)
Definition removes (options : BytecodeOptions) (item : OutputItem) : bool :=
  match item with
  | Chunk chunk => isBytecodeChunk options (name chunk) && negb (isEntry chunk)
  | Asset _ _ => false
  end.

(** The file names emitted for an entry of the output object: the
    artifact of a selected chunk, and the copy of its code when the
    bundle is kept. *)
Definition emittedNames (options : BytecodeOptions) (entry : jsstring * OutputItem)
  : list jsstring :=
  match snd entry with
  | Chunk chunk =>
      if isBytecodeChunk options (name chunk)
      then (fst entry ++ js "c")
             :: (if keepsBundleJS options then [js "_" ++ fileName chunk] else [])
      else []
  | Asset _ _ => []
  end.

(** What [finalizeAll] records for an entry of the output object. *)
Definition recorded (options : BytecodeOptions) (env : Environment)
    (output : OutputBundle) (entry : jsstring * OutputItem)
    (d : jsstring * OutputItem * Finalized) : Prop :=
  fst d = entry
  /\ match snd entry with
     | Chunk chunk =>
         exists p0 p1,
           finalizeChunk options env output p0 (fst entry) chunk = (p1, Ok (snd d))
     | Asset _ _ => snd d = mkFinalized [] [] [] 0
     end.

(** The entry of the final output object made from a record. *)
Definition finalEntry (d : jsstring * OutputItem * Finalized) : jsstring * OutputItem :=
  match d with
  | (key, Chunk chunk, fin) => (key, Chunk (withCode chunk (newCode fin)))
  | (key, Asset f src, _) => (key, Asset f src)
  end.

(** ** A sample build *)

(** An entry and a chunk it requires, in a directory, beside an asset;
    every chunk is compiled and the bundle is kept. *)
Definition mixedOutput : OutputBundle :=
  [ (js "dist/main.js",
     Chunk (mkChunk (js "dist/main.js") (js "main") true
              (js "const lib = require('./lib.js');") [js "dist/lib.js"] []));
    (js "logo.svg", Asset (js "logo.svg") (SourceText (js "<svg/>")));
    (js "dist/lib.js",
     Chunk (mkChunk (js "dist/lib.js") (js "lib") false (js "exports.lib = 1;") [] [])) ].

Definition mixedOptions : BytecodeOptions := mkOptions None (Some false) None.

Definition mixedBuild : Process * result Generated :=
  generateBundle true mixedOptions sampleEnv startProcess mixedOutput.

End Outcome.

(* ================================================================== *)
(** * Properties of src/compiler.ts *)
(* ================================================================== *)

Module CompilerFacts.
Import JS Compiler.
Local Open Scope Z_scope.

(** ** [buffer2Number] *)

Lemma ToInt32_small (z : Z) :
  -2147483648 <= z < 2147483648 -> ToInt32 z = z.
Proof.
  intros H. unfold ToInt32. change (2 ^ 31) with 2147483648.
  change (2 ^ 32) with 4294967296.
  rewrite Z.mod_small by lia. lia.
Qed.

Lemma ToInt32_range (z : Z) : -2147483648 <= ToInt32 z < 2147483648.
Proof.
  unfold ToInt32. change (2 ^ 31) with 2147483648.
  change (2 ^ 32) with 4294967296.
  pose proof (Z.mod_pos_bound (z + 2147483648) 4294967296). lia.
Qed.

(** A number below [2^k] has no bit in common with a multiple of [2^k],
    so their bitwise or is their sum. *)
Lemma lor_multiple (a y k : Z) :
  0 <= k -> 0 <= y < 2 ^ k -> Z.lor (a * 2 ^ k) y = a * 2 ^ k + y.
Proof.
  intros Hk Hy.
  assert (Hland : Z.land (a * 2 ^ k) y = 0).
  { apply Z.bits_inj'. intros n Hn.
    rewrite Z.land_spec, Z.bits_0.
    destruct (Z.lt_ge_cases n k) as [Hlt | Hge].
    - rewrite Z.mul_pow2_bits_low by lia. reflexivity.
    - replace y with (y mod 2 ^ k) by (apply Z.mod_small; lia).
      rewrite Z.mod_pow2_bits_high by lia. apply andb_false_r. }
  pose proof (Z.add_lor_land (a * 2 ^ k) y) as H.
  rewrite Hland in H. lia.
Qed.

(** The bytes of [encodeLE32 n] are the base-256 digits of [n]. *)
Lemma encodeLE32_digits (n : Z) :
  0 <= n < 4294967296 ->
  exists b0 b1 b2 b3,
    encodeLE32 n = [b0; b1; b2; b3]
    /\ 0 <= b0 < 256 /\ 0 <= b1 < 256 /\ 0 <= b2 < 256 /\ 0 <= b3 < 256
    /\ n = b3 * 16777216 + b2 * 65536 + b1 * 256 + b0.
Proof.
  intros Hn.
  exists (n mod 256), ((n / 256) mod 256), ((n / 65536) mod 256),
         ((n / 16777216) mod 256).
  split; [reflexivity |].
  repeat split; try (apply Z.mod_pos_bound; lia).
  Z.to_euclidean_division_equations. lia.
Qed.

(** What [buffer2Number] computes from four bytes: the base-256 number
    they spell least significant byte first, read as a signed 32-bit
    integer. *)
Lemma buffer2Number_bytes (b0 b1 b2 b3 : Z) :
  0 <= b0 < 256 -> 0 <= b1 < 256 -> 0 <= b2 < 256 -> 0 <= b3 < 256 ->
  buffer2Number [b0; b1; b2; b3]
  = ToInt32 (b3 * 16777216 + b2 * 65536 + b1 * 256 + b0).
Proof.
  intros H0 H1 H2 H3.
  unfold buffer2Number, at_index, or32, shl32. simpl nth_error.
  unfold ToInt32_elem.
  rewrite !(ToInt32_small b3), !(ToInt32_small b2), !(ToInt32_small b1),
          !(ToInt32_small b0) by lia.
  change (Z.land 24 31) with 24. change (Z.land 16 31) with 16.
  change (Z.land 8 31) with 8.
  rewrite !Z.shiftl_mul_pow2 by lia.
  rewrite Z.lor_0_l.
  (* the top byte, as a signed multiple of 2^24 *)
  set (a3 := if b3 <? 128 then b3 else b3 - 256).
  assert (Ha3 : -128 <= a3 < 128) by (subst a3; destruct (Z.ltb_spec b3 128); lia).
  assert (Htop : ToInt32 (b3 * 2 ^ 24) = a3 * 2 ^ 24).
  { subst a3. unfold ToInt32. change (2 ^ 24) with 16777216.
    change (2 ^ 31) with 2147483648. change (2 ^ 32) with 4294967296.
    destruct (Z.ltb_spec b3 128).
    - rewrite Z.mod_small by lia. lia.
    - replace (b3 * 16777216 + 2147483648)
        with ((b3 - 256) * 16777216 + 2147483648 + 1 * 4294967296) by lia.
      rewrite Z.mod_add by lia. rewrite Z.mod_small by lia. lia. }
  rewrite Htop.
  rewrite (ToInt32_small (a3 * 2 ^ 24)) by (change (2 ^ 24) with 16777216; lia).
  rewrite (ToInt32_small (b2 * 2 ^ 16)) by (change (2 ^ 16) with 65536; lia).
  rewrite (ToInt32_small (b1 * 2 ^ 8)) by (change (2 ^ 8) with 256; lia).
  rewrite (lor_multiple a3 (b2 * 2 ^ 16) 24)
    by (change (2 ^ 16) with 65536; change (2 ^ 24) with 16777216; lia).
  rewrite (ToInt32_small (a3 * 2 ^ 24 + b2 * 2 ^ 16))
    by (change (2 ^ 16) with 65536; change (2 ^ 24) with 16777216; lia).
  replace (a3 * 2 ^ 24 + b2 * 2 ^ 16) with ((a3 * 256 + b2) * 2 ^ 16)
    by (change (2 ^ 16) with 65536; change (2 ^ 24) with 16777216; lia).
  rewrite (lor_multiple (a3 * 256 + b2) (b1 * 2 ^ 8) 16)
    by (change (2 ^ 8) with 256; change (2 ^ 16) with 65536; lia).
  rewrite (ToInt32_small ((a3 * 256 + b2) * 2 ^ 16 + b1 * 2 ^ 8))
    by (change (2 ^ 8) with 256; change (2 ^ 16) with 65536; lia).
  replace ((a3 * 256 + b2) * 2 ^ 16 + b1 * 2 ^ 8)
    with (((a3 * 256 + b2) * 256 + b1) * 2 ^ 8)
    by (change (2 ^ 8) with 256; change (2 ^ 16) with 65536; lia).
  rewrite (lor_multiple ((a3 * 256 + b2) * 256 + b1) b0 8)
    by (change (2 ^ 8) with 256; lia).
  change (2 ^ 8) with 256.
  rewrite (ToInt32_small (((a3 * 256 + b2) * 256 + b1) * 256 + b0)) by lia.
  subst a3. unfold ToInt32.
  change (2 ^ 31) with 2147483648. change (2 ^ 32) with 4294967296.
  destruct (Z.ltb_spec b3 128).
  - rewrite Z.mod_small by lia. lia.
  - replace (b3 * 16777216 + b2 * 65536 + b1 * 256 + b0 + 2147483648)
      with ((b3 - 256) * 16777216 + b2 * 65536 + b1 * 256 + b0 + 2147483648
            + 1 * 4294967296) by lia.
    rewrite Z.mod_add by lia. rewrite Z.mod_small by lia. lia.
Qed.

(** On the little-endian encoding of [n] the decoder returns [n] read as
    a signed 32-bit integer. *)
Lemma buffer2Number_encodeLE32 (n : Z) :
  0 <= n < 4294967296 -> buffer2Number (encodeLE32 n) = ToInt32 n.
Proof.
  intros Hn.
  destruct (encodeLE32_digits n Hn)
    as (b0 & b1 & b2 & b3 & -> & H0 & H1 & H2 & H3 & ->).
  apply buffer2Number_bytes; assumption.
Qed.

(** Below [2^31] the round trip holds. *)
Lemma buffer2Number_roundtrip_low (n : Z) :
  0 <= n < 2147483648 -> buffer2Number (encodeLE32 n) = n.
Proof.
  intros Hn. rewrite buffer2Number_encodeLE32 by lia.
  apply ToInt32_small. lia.
Qed.

(** From [2^31] on the decoder returns [n - 2^32], a negative number. *)
Lemma buffer2Number_roundtrip_high (n : Z) :
  2147483648 <= n < 4294967296 ->
  buffer2Number (encodeLE32 n) = n - 4294967296.
Proof.
  intros Hn. rewrite buffer2Number_encodeLE32 by lia.
  unfold ToInt32. change (2 ^ 31) with 2147483648.
  change (2 ^ 32) with 4294967296.
  replace (n + 2147483648) with (n - 2147483648 + 1 * 4294967296) by lia.
  rewrite Z.mod_add by lia. rewrite Z.mod_small by lia. lia.
Qed.

(** C3: at [n = 2^31], whose encoding is the buffer [00 00 00 80], the
    decoder returns [-2147483648] and not [n]: [buffer[3] << 24] is a
    signed 32-bit shift, and nothing brings the result back to an
    unsigned number. *)
Theorem buffer2Number_sign_bit :
  encodeLE32 2147483648 = [0; 0; 0; 128]
  /\ buffer2Number (encodeLE32 2147483648) = -2147483648
  /\ buffer2Number (encodeLE32 2147483648) <> 2147483648.
Proof.
  split; [reflexivity |]. split; [reflexivity |].
  intros H. discriminate H.
Qed.

(** ** The flag hash of compiled artifacts *)

Local Close Scope Z_scope.

Lemma subarray_length (d : Buffer) (start end_ : nat) :
  end_ <= length d -> length (subarray d start end_) = end_ - start.
Proof.
  intros H. unfold subarray. rewrite length_firstn, length_skipn. lia.
Qed.

(** Copying the flag hash of [dummy] into a buffer that holds a whole
    header makes that buffer's flag-hash field the one of [dummy]. *)
Lemma flagHashField_copy (dummy buf : Buffer) :
  16 < length dummy -> 16 <= length buf ->
  flagHashField (copy (subarray dummy 12 16) buf 12) = flagHashField dummy.
Proof.
  intros Hd Hb. unfold flagHashField, FLAG_HASH_OFFSET.
  change (12 + 4) with 16.
  set (field := subarray dummy 12 16).
  assert (Hlen : length field = 4) by (subst field; rewrite subarray_length; lia).
  unfold copy. rewrite Hlen.
  replace (Nat.min 4 (length buf - 12)) with 4 by lia.
  rewrite (firstn_all2 (n := 4) field) by lia.
  unfold subarray.
  rewrite skipn_app, length_firstn.
  replace (Nat.min 12 (length buf)) with 12 by lia.
  rewrite (skipn_all2 (n := 12) (firstn 12 buf))
    by (rewrite length_firstn; lia).
  replace (12 - 12) with 0 by lia. simpl skipn. simpl app.
  rewrite firstn_app, Hlen.
  replace (16 - 12) with 4 by lia. replace (4 - 4) with 0 by lia.
  rewrite (firstn_all2 (n := 4) field) by lia.
  simpl. apply app_nil_r.
Qed.

Section FlagHash.

Variable vm : VM.

(** Every blob the virtual machine hands out holds more than the sixteen
    bytes that end with the flag-hash field. *)
Hypothesis header_complete :
  forall k src data, vm k src = Some data -> 16 < length data.

(** The virtual machine produces a blob for the empty script. *)
Hypothesis empty_script_cached : forall k, vm k [] <> None.

Lemma setFlagHashHeader_patches (p : Process) (buf : Buffer) :
  settled p -> 16 <= length buf ->
  exists d,
    dummyBytecode (fst (setFlagHashHeader vm p buf)) = Some d
    /\ 16 < length d
    /\ flagHashField (snd (setFlagHashHeader vm p buf)) = flagHashField d
    /\ (forall d0, dummyBytecode p = Some d0 -> d0 = d).
Proof.
  intros Hp Hb. unfold setFlagHashHeader, settled in *.
  destruct (dummyBytecode p) as [d0 |] eqn:Hdummy.
  - rewrite Hdummy. unfold FLAG_HASH_OFFSET. change (12 + 4) with 16.
    destruct (Nat.ltb_spec 16 (length d0)) as [_ | Hle]; [| lia].
    exists d0. simpl. repeat split; auto.
    + apply flagHashField_copy; assumption.
    + intros d1 H1. congruence.
  - unfold newScript. simpl.
    destruct (vm (scripts p) []) as [d |] eqn:Hvm.
    + pose proof (header_complete _ _ _ Hvm) as Hd.
      unfold FLAG_HASH_OFFSET. change (12 + 4) with 16.
      destruct (Nat.ltb_spec 16 (length d)) as [_ | Hle]; [| lia].
      exists d. simpl. repeat split; auto.
      * apply flagHashField_copy; assumption.
      * intros d1 H1. discriminate H1.
    + exfalso. exact (empty_script_cached _ Hvm).
Qed.

(** One compilation: an artifact carries the flag hash of the dummy the
    process holds afterwards, and a dummy already there stays. *)
Lemma compileToBytecode_patches (p : Process) (code : jsstring) :
  settled p ->
  match snd (compileToBytecode vm p code) with
  | Ok artifact =>
      exists d,
        dummyBytecode (fst (compileToBytecode vm p code)) = Some d
        /\ 16 < length d
        /\ flagHashField artifact = flagHashField d
        /\ (forall d0, dummyBytecode p = Some d0 -> d0 = d)
  | Throws _ =>
      dummyBytecode (fst (compileToBytecode vm p code)) = dummyBytecode p
  end.
Proof.
  intros Hp. unfold compileToBytecode, newScript.
  destruct (vm (scripts p) (wrapInModuleWrapper code)) as [bytecode |] eqn:Hvm.
  - pose proof (header_complete _ _ _ Hvm) as Hb.
    set (p1 := mkProcess (S (scripts p)) (dummyBytecode p)).
    assert (Hp1 : settled p1) by exact Hp.
    destruct (setFlagHashHeader_patches p1 bytecode Hp1 ltac:(lia))
      as (d & Hd1 & Hd2 & Hd3 & Hd4).
    destruct (setFlagHashHeader vm p1 bytecode) as [p2 patched] eqn:Hset.
    simpl in *. exists d. repeat split; auto.
  - simpl. reflexivity.
Qed.

(** Once the dummy is cached, every later artifact carries its flag
    hash. *)
Lemma compileAll_cached (sources : list jsstring) :
  forall p d, dummyBytecode p = Some d -> 16 < length d ->
  forall i artifact,
    nth_error (compileAll vm p sources) i = Some (Ok artifact) ->
    flagHashField artifact = flagHashField d.
Proof.
  induction sources as [| s rest IH]; intros p d Hd Hlen i artifact Hi.
  - destruct i; discriminate Hi.
  - simpl in Hi.
    assert (Hp : settled p) by (unfold settled; rewrite Hd; exact Hlen).
    pose proof (compileToBytecode_patches p s Hp) as Hstep.
    destruct (compileToBytecode vm p s) as [p' r] eqn:Hc. simpl in Hstep.
    destruct r as [a0 | m].
    + destruct Hstep as (d' & Hd' & Hlen' & Hflag & Hsame).
      rewrite <- (Hsame d Hd) in *.
      destruct i as [| i]; simpl in Hi.
      * injection Hi as <-. exact Hflag.
      * exact (IH p' d Hd' Hlen i artifact Hi).
    + destruct i as [| i]; simpl in Hi; [discriminate Hi |].
      apply (IH p' d ltac:(congruence) Hlen i artifact Hi).
Qed.

(** Any two artifacts of one process carry the same flag hash. *)
Lemma compileAll_same_flag_hash (sources : list jsstring) :
  forall p, settled p ->
  forall i j a b,
    nth_error (compileAll vm p sources) i = Some (Ok a) ->
    nth_error (compileAll vm p sources) j = Some (Ok b) ->
    flagHashField a = flagHashField b.
Proof.
  induction sources as [| s rest IH]; intros p Hp i j a b Hi Hj.
  - destruct i; discriminate Hi.
  - simpl in Hi, Hj.
    pose proof (compileToBytecode_patches p s Hp) as Hstep.
    destruct (compileToBytecode vm p s) as [p' r] eqn:Hc. simpl in Hstep.
    destruct r as [a0 | m].
    + destruct Hstep as (d & Hd & Hlen & Hflag & _).
      assert (Hall : forall k x,
                 nth_error (Ok a0 :: compileAll vm p' rest) k = Some (Ok x) ->
                 flagHashField x = flagHashField d).
      { intros [| k] x Hk; simpl in Hk.
        - injection Hk as <-. exact Hflag.
        - exact (compileAll_cached rest p' d Hd Hlen k x Hk). }
      rewrite (Hall i a Hi), (Hall j b Hj). reflexivity.
    + destruct i as [| i]; simpl in Hi; [discriminate Hi |].
      destruct j as [| j]; simpl in Hj; [discriminate Hj |].
      assert (Hp' : settled p') by (unfold settled in *; rewrite Hstep; exact Hp).
      exact (IH p' Hp' i j a b Hi Hj).
Qed.

End FlagHash.

(** C5: in one process, on a virtual machine that hands out blobs with a
    complete header and accepts the empty script, the artifact compiled
    from any source text [s] and the artifact compiled from the empty
    source text carry the same four bytes in their flag-hash field, in
    whichever order the two are compiled and whatever is compiled
    around them. *)
Theorem compile_flag_hash_as_empty_source
    (vm : VM) (sources : list jsstring) (i j : nat) (s : jsstring)
    (a b : Buffer) :
  (forall k src data, vm k src = Some data -> 16 < length data) ->
  (forall k, vm k [] <> None) ->
  nth_error sources i = Some s ->
  nth_error sources j = Some [] ->
  nth_error (compileAll vm startProcess sources) i = Some (Ok a) ->
  nth_error (compileAll vm startProcess sources) j = Some (Ok b) ->
  flagHashField a = flagHashField b.
Proof.
  intros Hheader Hempty _ _ Hi Hj.
  apply (compileAll_same_flag_hash vm Hheader Hempty sources startProcess
           I i j a b Hi Hj).
Qed.

Lemma sampleVM_header_complete :
  forall k src data, sampleVM k src = Some data -> 16 < length data.
Proof.
  intros k src data H. unfold sampleVM in H. injection H as <-.
  simpl. lia.
Qed.

Lemma sampleVM_empty_script : forall k, sampleVM k [] <> None.
Proof. intros k H. discriminate H. Qed.

(** The theorem at work: a script and the empty script, compiled in that
    order on [sampleVM], whose raw flag hashes differ. *)
Lemma compile_flag_hash_as_empty_source_witness :
  exists a b,
    nth_error (compileAll sampleVM startProcess [js "x = 1"; []]) 0 = Some (Ok a)
    /\ nth_error (compileAll sampleVM startProcess [js "x = 1"; []]) 1 = Some (Ok b)
    /\ flagHashField a = flagHashField b.
Proof.
  eexists. eexists.
  split; [reflexivity |]. split; [reflexivity |].
  apply (compile_flag_hash_as_empty_source sampleVM [js "x = 1"; []] 0 1
           (js "x = 1"));
    [ exact sampleVM_header_complete | exact sampleVM_empty_script
    | reflexivity | reflexivity | reflexivity | reflexivity ].
Defined.

End CompilerFacts.

(* ================================================================== *)
(** * Properties of strings *)
(* ================================================================== *)

Module JSFacts.
Import JS.

Lemma str_eqb_refl (a : jsstring) : str_eqb a a = true.
Proof.
  induction a as [| x a IH]; simpl; [reflexivity |].
  rewrite Z.eqb_refl. exact IH.
Qed.

Lemma str_eqb_eq (a b : jsstring) : str_eqb a b = true <-> a = b.
Proof.
  split.
  - revert b. induction a as [| x a IH]; intros [| y b] H; simpl in H;
      try discriminate; [reflexivity |].
    apply andb_true_iff in H. destruct H as [Hxy Hab].
    apply Z.eqb_eq in Hxy. subst y. f_equal. apply IH. exact Hab.
  - intros <-. apply str_eqb_refl.
Qed.

Lemma str_eqb_neq (a b : jsstring) : str_eqb a b = false <-> a <> b.
Proof.
  split.
  - intros H Heq. apply str_eqb_eq in Heq. congruence.
  - intros H. destruct (str_eqb a b) eqn:E; [| reflexivity].
    apply str_eqb_eq in E. contradiction.
Qed.

Lemma str_eqb_sym (a b : jsstring) : str_eqb a b = str_eqb b a.
Proof.
  destruct (str_eqb a b) eqn:E.
  - apply str_eqb_eq in E. subst. symmetry. apply str_eqb_refl.
  - apply str_eqb_neq in E. symmetry. apply str_eqb_neq. congruence.
Qed.

Lemma includes_In (l : list jsstring) (x : jsstring) :
  includes l x = true <-> In x l.
Proof.
  unfold includes. rewrite existsb_exists. split.
  - intros (y & Hy & E). apply str_eqb_eq in E. subst. exact Hy.
  - intros H. exists x. split; [exact H | apply str_eqb_refl].
Qed.

Lemma startsWith_app (p s : jsstring) : startsWith (p ++ s) p = true.
Proof.
  induction p as [| c p IH]; simpl; [reflexivity |].
  rewrite Z.eqb_refl. exact IH.
Qed.

Lemma startsWith_prefix (s p : jsstring) :
  startsWith s p = true -> s = p ++ skipn (length p) s.
Proof.
  revert s. induction p as [| c p IH]; intros s H; simpl in *.
  - reflexivity.
  - destruct s as [| x s]; [discriminate |].
    apply andb_true_iff in H. destruct H as [Hx Hs].
    apply Z.eqb_eq in Hx. subst x. simpl. f_equal. apply IH. exact Hs.
Qed.

End JSFacts.

(* ================================================================== *)
(** * Properties of src/utils.ts *)
(* ================================================================== *)

Module UtilsFacts.
Import JS Utils JSFacts.

(** Whatever [path.relative] returns, the result begins with a dot. *)
Lemma toRelativePath_starts_with_dot (cwd from to : jsstring) :
  startsWith (toRelativePath cwd from to) (js ".") = true.
Proof.
  unfold toRelativePath.
  destruct (startsWith (NodePath.relative cwd (NodePath.dirname to) from) (js "."))
    eqn:E.
  - exact E.
  - reflexivity.
Qed.

(** So it is never an absolute path. *)
Lemma toRelativePath_not_absolute (cwd from to : jsstring) :
  isAbsoluteSpecifier (toRelativePath cwd from to) = false.
Proof.
  pose proof (toRelativePath_starts_with_dot cwd from to) as H.
  unfold isAbsoluteSpecifier.
  destruct (toRelativePath cwd from to) as [| c r]; [reflexivity |].
  simpl in *. apply andb_true_iff in H. destruct H as [H _].
  apply Z.eqb_eq in H. subst c. reflexivity.
Qed.

(** The paths of the test suite come out as the comment in the source
    promises. *)
Example toRelativePath_loader_beside :
  toRelativePath (js "/work") (js "bytecode-loader.cjs") (js "index.cjs")
  = js "./bytecode-loader.cjs".
Proof. vm_compute. reflexivity. Qed.

Example toRelativePath_loader_above :
  toRelativePath (js "/work") (js "bytecode-loader.cjs") (js "dist/index.cjs")
  = js "../bytecode-loader.cjs".
Proof. vm_compute. reflexivity. Qed.

(** C8: a file below a directory whose name begins with a dot, required
    from a file beside that directory.  [path.relative] returns
    [.hidden/loader.cjs]; it begins with a dot, so it is returned as it
    is, and [require] reads it as a bare specifier.  The same happens in
    every working directory when the two paths are absolute. *)
Theorem toRelativePath_dot_directory_is_bare :
  toRelativePath (js "/work") (js ".hidden/loader.cjs") (js "index.cjs")
  = js ".hidden/loader.cjs"
  /\ isBareSpecifier
       (toRelativePath (js "/work") (js ".hidden/loader.cjs") (js "index.cjs"))
     = true
  /\ forall cwd,
       toRelativePath cwd (js "/app/.hidden/loader.cjs") (js "/app/index.cjs")
       = js ".hidden/loader.cjs".
Proof.
  split; [vm_compute; reflexivity |].
  split; [vm_compute; reflexivity |].
  intros cwd. reflexivity.
Qed.

End UtilsFacts.

(* ================================================================== *)
(** * Properties of src/transforms.ts *)
(* ================================================================== *)

Module TransformsFacts.
Import JS Transforms JSFacts.

(** ** The visitors *)

(** The loop folds the parts from the left: the result is the
    left-associative chain [((p1 + p2) + p3) + ...] of the parts in
    source order. *)
Lemma concatLoop_fold (quasis : list jsstring) :
  forall expressions result,
    concatLoop quasis expressions result
    = fold_left appendPiece (pieces quasis expressions) result.
Proof.
  induction quasis as [| quasi quasis IH]; intros expressions result.
  - reflexivity.
  - simpl. destruct (truthy quasi); destruct expressions as [| expr rest];
      simpl; rewrite IH; destruct result; reflexivity.
Qed.

(** A template literal without parts becomes the empty string literal. *)
Lemma concatResult_empty (quasis : list jsstring) (expressions : list Expr) :
  pieces quasis expressions = [] ->
  concatResult quasis expressions = StringLiteral [].
Proof.
  intros H. unfold concatResult. rewrite concatLoop_fold, H. reflexivity.
Qed.

(** What entering a node does under the plugin list of [transformCode]:
    a template literal is always replaced by the first plugin, a string
    literal by the second when it is protected and not at a skipped
    position, any other node is left in place. *)
Lemma enter_plugins (ps : list jsstring) (pos : Position) (node : Expr) :
  enter (plugins ps) pos node =
  match node with
  | TemplateLiteral quasis expressions => Some (concatResult quasis expressions)
  | StringLiteral value =>
      if (0 <? length ps)%nat && negb (skipped pos) && includes ps value
      then Some (createFromCharCodeFunction value) else None
  | _ => None
  end.
Proof.
  unfold plugins.
  destruct node; simpl; try (destruct (0 <? length ps)%nat; reflexivity).
  - destruct (0 <? length ps)%nat; simpl; [| reflexivity].
    destruct (skipped pos); simpl; [reflexivity |].
    destruct (includes ps value); reflexivity.
  - unfold concatResult.
    destruct (concatLoop quasis expressions None); reflexivity.
Qed.

(** ** Children in lists *)

Lemma visitAll_Some (f : Position -> Expr -> option Expr) (at_ : nat -> Position)
    (nodes : list Expr) :
  (forall n, In n nodes -> forall pos, f pos n <> None) ->
  forall i, visitAll f at_ i nodes <> None.
Proof.
  induction nodes as [| n rest IH]; intros H i; simpl; [discriminate |].
  destruct (f (at_ i) n) as [n' |] eqn:E.
  - pose proof (IH (fun m Hm => H m (or_intror Hm)) (S i)) as Hrest.
    destruct (visitAll f at_ (S i) rest); [discriminate | contradiction].
  - exfalso. apply (H n (or_introl eq_refl) (at_ i)). exact E.
Qed.

Lemma visitProperties_Some (f : Position -> Expr -> option Expr)
    (props : list ObjectProperty) :
  (forall k c v, In (Property k c v) props ->
     forall pos, f pos k <> None /\ f pos v <> None) ->
  visitProperties f props <> None.
Proof.
  induction props as [| [k c v] rest IH]; intros H; simpl; [discriminate |].
  destruct (H k c v (or_introl eq_refl) (PropertyKey c)) as [Hk _].
  destruct (H k c v (or_introl eq_refl) PropertyValue) as [_ Hv].
  destruct (f (PropertyKey c) k); [| contradiction].
  destruct (f PropertyValue v); [| contradiction].
  assert (Hrest : visitProperties f rest <> None).
  { apply IH. intros k' c' v' Hin. apply (H k' c' v'). right. exact Hin. }
  destruct (visitProperties f rest); [discriminate | contradiction].
Qed.

Lemma visitAll_forallb (P : Expr -> bool) (f : Position -> Expr -> option Expr)
    (at_ : nat -> Position) (nodes : list Expr) :
  (forall pos n n', f pos n = Some n' -> P n' = true) ->
  forall i nodes', visitAll f at_ i nodes = Some nodes' -> forallb P nodes' = true.
Proof.
  intros H. induction nodes as [| n rest IH]; intros i nodes' E; simpl in E.
  - injection E as <-. reflexivity.
  - destruct (f (at_ i) n) as [n' |] eqn:En; [| discriminate].
    destruct (visitAll f at_ (S i) rest) as [rest' |] eqn:Er; [| discriminate].
    injection E as <-. simpl. rewrite (H _ _ _ En), (IH _ _ Er). reflexivity.
Qed.

Lemma visitAll_identity (f : Position -> Expr -> option Expr)
    (at_ : nat -> Position) (nodes : list Expr) :
  (forall n, In n nodes -> forall pos, f pos n = Some n) ->
  forall i, visitAll f at_ i nodes = Some nodes.
Proof.
  induction nodes as [| n rest IH]; intros H i; simpl; [reflexivity |].
  rewrite (H n (or_introl eq_refl)).
  rewrite (IH (fun m Hm => H m (or_intror Hm))). reflexivity.
Qed.

(** ** The traversal ends *)

Lemma traverse_S (fuel : nat) (visitors : list Visitor) (pos : Position)
    (node : Expr) :
  traverse (S fuel) visitors pos node =
  match enter visitors pos node with
  | Some replacement => traverse fuel visitors pos replacement
  | None =>
      let visit := traverse fuel visitors in
      match node with
      | Identifier _ | StringLiteral _ | NumericLiteral _ => Some node
      | TemplateLiteral quasis expressions =>
          option_map (TemplateLiteral quasis)
            (visitAll visit (fun _ => Elsewhere) 0 expressions)
      | BinaryExpression op l r =>
          match visit Elsewhere l with
          | Some l' => option_map (BinaryExpression op l') (visit Elsewhere r)
          | None => None
          end
      | MemberExpression o p computed =>
          match visit MemberObject o with
          | Some o' =>
              option_map (fun p' => MemberExpression o' p' computed)
                (visit (MemberProperty computed) p)
          | None => None
          end
      | CallExpression callee args =>
          match visit Callee callee with
          | Some callee' =>
              option_map (CallExpression callee')
                (visitAll visit (fun i => Argument callee' i) 0 args)
          | None => None
          end
      | ObjectExpression props =>
          option_map ObjectExpression (visitProperties visit props)
      | ArrayExpression elements =>
          option_map ArrayExpression
            (visitAll visit (fun _ => Elsewhere) 0 elements)
      | SpreadElement a => option_map SpreadElement (visit Elsewhere a)
      | FunctionExpression params e =>
          match visitAll visit (fun _ => Elsewhere) 0 params with
          | Some params' =>
              option_map (FunctionExpression params') (visit Elsewhere e)
          | None => None
          end
      | OptionalMemberExpression o p computed =>
          match visit MemberObject o with
          | Some o' =>
              option_map (fun p' => OptionalMemberExpression o' p' computed)
                (visit (OptionalMemberProperty computed) p)
          | None => None
          end
      | OptionalCallExpression callee args =>
          match visit Callee callee with
          | Some callee' =>
              option_map (OptionalCallExpression callee')
                (visitAll visit (fun i => OptionalArgument callee' i) 0 args)
          | None => None
          end
      end
  end.
Proof. reflexivity. Qed.

Lemma nesting_positive (e : Expr) : 1 <= nesting e.
Proof. destruct e; simpl; lia. Qed.

Lemma nesting_In (n : Expr) (l : list Expr) :
  In n l -> nesting n <= list_max (map nesting l).
Proof.
  unfold list_max. induction l as [| m l IH]; intros H; [contradiction |].
  simpl. destruct H as [-> | H]; [lia |]. specialize (IH H). lia.
Qed.

Lemma nesting_In_property (k v : Expr) (c : bool) (props : list ObjectProperty) :
  In (Property k c v) props ->
  Nat.max (nesting k) (nesting v)
  <= list_max (map (fun p => match p with
                             | Property k _ v => Nat.max (nesting k) (nesting v)
                             end) props).
Proof.
  unfold list_max. induction props as [| q props IH]; intros H; [contradiction |].
  simpl. destruct H as [-> | H]; [lia |]. specialize (IH H). lia.
Qed.

Lemma nesting_numbers (codes : list Z) :
  list_max (map nesting (map NumericLiteral codes)) <= 1.
Proof.
  unfold list_max.
  induction codes as [| c codes IH]; cbn [map nesting fold_right]; lia.
Qed.

Lemma nesting_created (value : jsstring) :
  nesting (createFromCharCodeFunction value) = 5.
Proof.
  unfold createFromCharCodeFunction.
  pose proof (nesting_numbers (map charCodeAt0 (arrayFrom value))) as H.
  cbn [nesting map list_max fold_right]. lia.
Qed.

(** The chain grows by one level for every part appended. *)
Lemma concatLoop_nesting_from (M : nat) (quasis : list jsstring) :
  6 <= M ->
  forall expressions r k,
    Forall (fun e => nesting e <= M) expressions ->
    nesting r <= k + M ->
    exists r',
      concatLoop quasis expressions (Some r) = Some r'
      /\ nesting r' <= k + length quasis + length expressions + M.
Proof.
  intros HM. induction quasis as [| quasi quasis IH];
    intros expressions r k Hes Hr.
  - exists r. split; [reflexivity | lia].
  - simpl concatLoop.
    destruct expressions as [| expr rest].
    + destruct (truthy quasi).
      * destruct (IH [] (BinaryExpression (js "+") r (StringLiteral quasi)) (S k) Hes)
          as (r' & E & Hr'); [cbn [nesting]; lia |].
        exists r'. split; [exact E | cbn [length] in *; lia].
      * destruct (IH [] r k Hes Hr) as (r' & E & Hr').
        exists r'. split; [exact E | cbn [length] in *; lia].
    + inversion Hes as [| ? ? Hexpr Hrest]; subst.
      destruct (truthy quasi).
      * destruct (IH rest
                    (BinaryExpression (js "+")
                       (BinaryExpression (js "+") r (StringLiteral quasi)) expr)
                    (S (S k)) Hrest)
          as (r' & E & Hr'); [cbn [nesting]; lia |].
        exists r'. split; [exact E | cbn [length] in *; lia].
      * destruct (IH rest (BinaryExpression (js "+") r expr) (S k) Hrest)
          as (r' & E & Hr'); [cbn [nesting]; lia |].
        exists r'. split; [exact E | cbn [length] in *; lia].
Qed.

Lemma concatLoop_nesting (M : nat) (quasis : list jsstring) :
  6 <= M ->
  forall expressions,
    Forall (fun e => nesting e <= M) expressions ->
    match concatLoop quasis expressions None with
    | Some r => nesting r < length quasis + length expressions + M
    | None => True
    end.
Proof.
  intros HM. induction quasis as [| quasi quasis IH]; intros expressions Hes.
  - exact I.
  - simpl concatLoop.
    destruct expressions as [| expr rest].
    + destruct (truthy quasi).
      * destruct (concatLoop_nesting_from M quasis HM [] (StringLiteral quasi) 0 Hes)
          as (r' & E & Hr'); [cbn [nesting]; lia |].
        rewrite E. simpl in *. lia.
      * specialize (IH [] Hes).
        destruct (concatLoop quasis [] None); [cbn [length] in *; lia | exact I].
    + inversion Hes as [| ? ? Hexpr Hrest]; subst.
      destruct (truthy quasi).
      * destruct (concatLoop_nesting_from M quasis HM rest
                    (BinaryExpression (js "+") (StringLiteral quasi) expr) 1 Hrest)
          as (r' & E & Hr'); [cbn [nesting]; lia |].
        rewrite E. simpl in *. lia.
      * destruct (concatLoop_nesting_from M quasis HM rest expr 0 Hrest)
          as (r' & E & Hr'); [cbn [nesting]; lia |].
        rewrite E. simpl in *. lia.
Qed.

(** What replaces a template literal nests less deeply than it did. *)
Lemma concatResult_nesting (quasis : list jsstring) (expressions : list Expr) :
  nesting (concatResult quasis expressions)
  < nesting (TemplateLiteral quasis expressions).
Proof.
  set (M := Nat.max 6 (list_max (map nesting expressions))).
  assert (HM : 6 <= M) by (subst M; lia).
  assert (Hes : Forall (fun e => nesting e <= M) expressions).
  { apply Forall_forall. intros e He. pose proof (nesting_In e _ He). lia. }
  pose proof (concatLoop_nesting M quasis HM expressions Hes) as H.
  unfold concatResult. cbn [nesting]. fold M.
  destruct (concatLoop quasis expressions None); simpl; lia.
Qed.

(** With fuel for the nesting of the node, the traversal returns. *)
Lemma traverse_total (ps : list jsstring) (fuel : nat) :
  forall pos node,
    nesting node <= fuel -> traverse fuel (plugins ps) pos node <> None.
Proof.
  induction fuel as [| fuel IH]; intros pos node Hfuel.
  - pose proof (nesting_positive node). lia.
  - rewrite traverse_S, enter_plugins.
    destruct node; cbn [nesting] in Hfuel; cbv zeta.
    + discriminate.
    + destruct ((0 <? length ps)%nat && negb (skipped pos) && includes ps value).
      * apply IH. rewrite nesting_created. lia.
      * discriminate.
    + discriminate.
    + apply IH. pose proof (concatResult_nesting quasis expressions) as H.
      cbn [nesting] in H. lia.
    + pose proof (IH Elsewhere node1 ltac:(lia)) as H1.
      pose proof (IH Elsewhere node2 ltac:(lia)) as H2.
      destruct (traverse fuel (plugins ps) Elsewhere node1); [| contradiction].
      destruct (traverse fuel (plugins ps) Elsewhere node2); [discriminate | contradiction].
    + pose proof (IH MemberObject node1 ltac:(lia)) as H1.
      pose proof (IH (MemberProperty computed) node2 ltac:(lia)) as H2.
      destruct (traverse fuel (plugins ps) MemberObject node1); [| contradiction].
      destruct (traverse fuel (plugins ps) (MemberProperty computed) node2);
        [discriminate | contradiction].
    + pose proof (IH Callee node ltac:(lia)) as H1.
      destruct (traverse fuel (plugins ps) Callee node) as [callee' |];
        [| contradiction].
      assert (H2 : visitAll (traverse fuel (plugins ps))
                     (fun i => Argument callee' i) 0 arguments <> None).
      { apply visitAll_Some. intros n Hn pos'. apply IH.
        pose proof (nesting_In n _ Hn). lia. }
      destruct (visitAll _ _ 0 arguments); [discriminate | contradiction].
    + assert (H2 : visitProperties (traverse fuel (plugins ps)) properties <> None).
      { apply visitProperties_Some. intros k c v Hin pos'.
        pose proof (nesting_In_property k v c _ Hin).
        split; apply IH; lia. }
      destruct (visitProperties _ properties); [discriminate | contradiction].
    + assert (H2 : visitAll (traverse fuel (plugins ps))
                     (fun _ => Elsewhere) 0 elements <> None).
      { apply visitAll_Some. intros n Hn pos'. apply IH.
        pose proof (nesting_In n _ Hn). lia. }
      destruct (visitAll _ _ 0 elements); [discriminate | contradiction].
    + pose proof (IH Elsewhere node ltac:(lia)) as H1.
      destruct (traverse fuel (plugins ps) Elsewhere node); [discriminate | contradiction].
    + assert (H2 : visitAll (traverse fuel (plugins ps))
                     (fun _ => Elsewhere) 0 params <> None).
      { apply visitAll_Some. intros n Hn pos'. apply IH.
        pose proof (nesting_In n _ Hn). lia. }
      destruct (visitAll _ _ 0 params); [| contradiction].
      pose proof (IH Elsewhere node ltac:(lia)) as H1.
      destruct (traverse fuel (plugins ps) Elsewhere node); [discriminate | contradiction].
    + pose proof (IH MemberObject node1 ltac:(lia)) as H1.
      pose proof (IH (OptionalMemberProperty computed) node2 ltac:(lia)) as H2.
      destruct (traverse fuel (plugins ps) MemberObject node1); [| contradiction].
      destruct (traverse fuel (plugins ps) (OptionalMemberProperty computed) node2);
        [discriminate | contradiction].
    + pose proof (IH Callee node ltac:(lia)) as H1.
      destruct (traverse fuel (plugins ps) Callee node) as [callee' |];
        [| contradiction].
      assert (H2 : visitAll (traverse fuel (plugins ps))
                     (fun i => OptionalArgument callee' i) 0 arguments <> None).
      { apply visitAll_Some. intros n Hn pos'. apply IH.
        pose proof (nesting_In n _ Hn). lia. }
      destruct (visitAll _ _ 0 arguments); [discriminate | contradiction].
Qed.

(** [transformCode] hands a program to the generator for every program
    of the fragment. *)
Lemma transformExpr_total (ps : list jsstring) (e : Expr) :
  transformExpr ps e <> None.
Proof. unfold transformExpr. apply traverse_total. lia. Qed.

Lemma transformCode_total (ps : list jsstring) (code : Program) :
  transformCode code ps <> None.
Proof.
  induction code as [| s rest IH]; simpl; [discriminate |].
  assert (Hs : transformStatement ps s <> None).
  { destruct s; simpl.
    - pose proof (transformExpr_total ps expression).
      destruct (transformExpr ps expression); [discriminate | contradiction].
    - pose proof (transformExpr_total ps init).
      destruct (transformExpr ps init); [discriminate | contradiction]. }
  destruct (transformStatement ps s); [| contradiction].
  destruct (transformCode rest ps); [discriminate | contradiction].
Qed.

(** ** No template literal is left *)

Lemma visitProperties_forallb (P : Expr -> bool)
    (f : Position -> Expr -> option Expr) (props : list ObjectProperty) :
  (forall pos n n', f pos n = Some n' -> P n' = true) ->
  forall props', visitProperties f props = Some props' ->
  forallb (fun p => match p with
                    | Property k _ v => P k && P v
                    end) props' = true.
Proof.
  intros H. induction props as [| [k c v] rest IH]; intros props' E; simpl in E.
  - injection E as <-. reflexivity.
  - destruct (f (PropertyKey c) k) as [k' |] eqn:Ek; [| discriminate].
    destruct (f PropertyValue v) as [v' |] eqn:Ev; [| discriminate].
    destruct (visitProperties f rest) as [rest' |] eqn:Er; [| discriminate].
    injection E as <-. simpl.
    rewrite (H _ _ _ Ek), (H _ _ _ Ev), (IH _ eq_refl). reflexivity.
Qed.

(** Whatever the traversal returns holds no template literal. *)
Lemma traverse_noTemplateLiteral (ps : list jsstring) (fuel : nat) :
  forall pos node node',
    traverse fuel (plugins ps) pos node = Some node' ->
    noTemplateLiteral node' = true.
Proof.
  induction fuel as [| fuel IH]; intros pos node node' H; [discriminate H |].
  rewrite traverse_S, enter_plugins in H.
  destruct node; cbv zeta in H.
  - injection H as <-. reflexivity.
  - destruct ((0 <? length ps)%nat && negb (skipped pos) && includes ps value).
    + exact (IH _ _ _ H).
    + injection H as <-. reflexivity.
  - injection H as <-. reflexivity.
  - exact (IH _ _ _ H).
  - destruct (traverse fuel (plugins ps) Elsewhere node1) as [l' |] eqn:E1;
      [| discriminate].
    destruct (traverse fuel (plugins ps) Elsewhere node2) as [r' |] eqn:E2;
      [| discriminate].
    injection H as <-. simpl. rewrite (IH _ _ _ E1), (IH _ _ _ E2). reflexivity.
  - destruct (traverse fuel (plugins ps) MemberObject node1) as [o' |] eqn:E1;
      [| discriminate].
    destruct (traverse fuel (plugins ps) (MemberProperty computed) node2)
      as [p' |] eqn:E2; [| discriminate].
    injection H as <-. simpl. rewrite (IH _ _ _ E1), (IH _ _ _ E2). reflexivity.
  - destruct (traverse fuel (plugins ps) Callee node) as [callee' |] eqn:E1;
      [| discriminate].
    destruct (visitAll (traverse fuel (plugins ps))
                (fun i => Argument callee' i) 0 arguments) as [args' |] eqn:E2;
      [| discriminate].
    injection H as <-. simpl. rewrite (IH _ _ _ E1).
    exact (visitAll_forallb noTemplateLiteral _ _ _ IH _ _ E2).
  - destruct (visitProperties (traverse fuel (plugins ps)) properties)
      as [props' |] eqn:E1; [| discriminate].
    injection H as <-. simpl.
    exact (visitProperties_forallb noTemplateLiteral _ _ IH _ E1).
  - destruct (visitAll (traverse fuel (plugins ps)) (fun _ => Elsewhere) 0 elements)
      as [elements' |] eqn:E1; [| discriminate].
    injection H as <-. simpl.
    exact (visitAll_forallb noTemplateLiteral _ _ _ IH _ _ E1).
  - destruct (traverse fuel (plugins ps) Elsewhere node) as [a' |] eqn:E1;
      [| discriminate].
    injection H as <-. simpl. exact (IH _ _ _ E1).
  - destruct (visitAll (traverse fuel (plugins ps)) (fun _ => Elsewhere) 0 params)
      as [params' |] eqn:E1; [| discriminate].
    destruct (traverse fuel (plugins ps) Elsewhere node) as [e' |] eqn:E2;
      [| discriminate].
    injection H as <-. simpl.
    rewrite (visitAll_forallb noTemplateLiteral _ _ _ IH _ _ E1), (IH _ _ _ E2).
    reflexivity.
  - destruct (traverse fuel (plugins ps) MemberObject node1) as [o' |] eqn:E1;
      [| discriminate].
    destruct (traverse fuel (plugins ps) (OptionalMemberProperty computed) node2)
      as [p' |] eqn:E2; [| discriminate].
    injection H as <-. simpl. rewrite (IH _ _ _ E1), (IH _ _ _ E2). reflexivity.
  - destruct (traverse fuel (plugins ps) Callee node) as [callee' |] eqn:E1;
      [| discriminate].
    destruct (visitAll (traverse fuel (plugins ps))
                (fun i => OptionalArgument callee' i) 0 arguments) as [args' |] eqn:E2;
      [| discriminate].
    injection H as <-. simpl. rewrite (IH _ _ _ E1).
    exact (visitAll_forallb noTemplateLiteral _ _ _ IH _ _ E2).
Qed.

(** The part of C2 that holds: every program of the fragment is
    transformed, and no template literal is left in what [transformCode]
    hands to the generator. *)
Lemma transformExpr_noTemplateLiteral (ps : list jsstring) (e : Expr) :
  exists e', transformExpr ps e = Some e' /\ noTemplateLiteral e' = true.
Proof.
  destruct (transformExpr ps e) as [e' |] eqn:E.
  - exists e'. split; [reflexivity |].
    exact (traverse_noTemplateLiteral ps _ _ _ _ E).
  - exfalso. exact (transformExpr_total ps e E).
Qed.

(** ** The call that replaces a protected string *)

Lemma traverse_Identifier (ps : list jsstring) (fuel : nat) (pos : Position)
    (name : jsstring) :
  traverse (S fuel) (plugins ps) pos (Identifier name) = Some (Identifier name).
Proof. rewrite traverse_S, enter_plugins. reflexivity. Qed.

Lemma traverse_NumericLiteral (ps : list jsstring) (fuel : nat) (pos : Position)
    (n : Z) :
  traverse (S fuel) (plugins ps) pos (NumericLiteral n) = Some (NumericLiteral n).
Proof. rewrite traverse_S, enter_plugins. reflexivity. Qed.

(** The traversal leaves the call as it is. *)
Lemma traverse_created (ps : list jsstring) (fuel : nat) (pos : Position)
    (value : jsstring) :
  traverse (5 + fuel) (plugins ps) pos (createFromCharCodeFunction value)
  = Some (createFromCharCodeFunction value).
Proof.
  unfold createFromCharCodeFunction. cbn [Nat.add].
  rewrite traverse_S, enter_plugins. cbv zeta.
  rewrite traverse_S, enter_plugins. cbv zeta.
  cbn [visitAll]. rewrite traverse_Identifier. cbn [option_map].
  rewrite (traverse_S (S (S fuel))), enter_plugins. cbv zeta.
  rewrite (traverse_S (S fuel)), enter_plugins. cbv zeta.
  rewrite !traverse_Identifier. cbn [option_map visitAll].
  rewrite (traverse_S (S fuel)), enter_plugins. cbv zeta.
  rewrite traverse_Identifier. cbn [option_map visitAll].
  rewrite (traverse_S (S (S (S fuel)))), enter_plugins. cbv zeta.
  rewrite (visitAll_identity (traverse (S (S (S fuel))) (plugins ps))).
  - reflexivity.
  - intros n Hn pos'. apply in_map_iff in Hn. destruct Hn as (c & <- & _).
    apply traverse_NumericLiteral.
Qed.





(** ** Where the concatenation evaluates as the template literal *)

Lemma eval_TemplateLiteral (quasis : list jsstring) (expressions : list Expr) :
  eval (TemplateLiteral quasis expressions)
  = option_map (fun vs => VString (templateString quasis vs)) (evalAll expressions).
Proof. reflexivity. Qed.

Lemma eval_plus (l r : Expr) :
  eval (BinaryExpression (js "+") l r)
  = match eval l, eval r with
    | Some a, Some b => Some (add a b)
    | _, _ => None
    end.
Proof. reflexivity. Qed.

(** Once the chain evaluates to a string, every further part is
    appended to it as the template literal appends it. *)
Lemma concatLoop_eval_from (quasis : list jsstring) :
  forall expressions values r s,
    evalAll expressions = Some values ->
    eval r = Some (VString s) ->
    exists r',
      concatLoop quasis expressions (Some r) = Some r'
      /\ eval r' = Some (VString (s ++ templateString quasis values)).
Proof.
  induction quasis as [| quasi quasis IH]; intros expressions values r s Hvalues Hr.
  - exists r. split; [reflexivity |].
    cbn [templateString]. rewrite app_nil_r. exact Hr.
  - cbn [concatLoop].
    set (r1 := if truthy quasi
               then Some (BinaryExpression (js "+") r (StringLiteral quasi))
               else Some r).
    assert (Hr1 : exists e1, r1 = Some e1 /\ eval e1 = Some (VString (s ++ quasi))).
    { subst r1. destruct quasi as [| c quasi]; cbn [truthy].
      - exists r. split; [reflexivity |]. rewrite app_nil_r. exact Hr.
      - exists (BinaryExpression (js "+") r (StringLiteral (c :: quasi))).
        split; [reflexivity |]. rewrite eval_plus, Hr. reflexivity. }
    destruct Hr1 as (e1 & -> & He1).
    destruct expressions as [| expr rest].
    + injection Hvalues as <-.
      destruct (IH [] [] e1 (s ++ quasi) eq_refl He1) as (r' & Hloop & Heval).
      exists r'. split; [exact Hloop |].
      rewrite Heval. cbn [templateString]. rewrite <- app_assoc. reflexivity.
    + cbn [evalAll] in Hvalues.
      destruct (eval expr) as [v |] eqn:Hv; [| discriminate].
      destruct (evalAll rest) as [vs |] eqn:Hvs; [| discriminate].
      injection Hvalues as <-.
      destruct (IH rest vs (BinaryExpression (js "+") e1 expr)
                  ((s ++ quasi) ++ ToString v) Hvs)
        as (r' & Hloop & Heval).
      { rewrite eval_plus, He1, Hv. reflexivity. }
      exists r'. split; [exact Hloop |].
      rewrite Heval. cbn [templateString]. rewrite <- !app_assoc. reflexivity.
Qed.

(** The part of C2's equivalence that holds: a template literal that
    begins with a non-empty substring and whose interpolations evaluate
    to strings or numbers is replaced by a concatenation that evaluates
    to the same string. *)
Lemma concatResult_equivalent_after_substring
    (quasi : jsstring) (quasis : list jsstring) (expressions : list Expr)
    (values : list Value) :
  truthy quasi = true ->
  evalAll expressions = Some values ->
  eval (concatResult (quasi :: quasis) expressions)
  = eval (TemplateLiteral (quasi :: quasis) expressions).
Proof.
  intros Hquasi Hvalues.
  rewrite eval_TemplateLiteral, Hvalues. cbn [option_map].
  unfold concatResult. cbn [concatLoop]. rewrite Hquasi.
  destruct expressions as [| expr rest].
  - injection Hvalues as <-.
    destruct (concatLoop_eval_from quasis [] [] (StringLiteral quasi) quasi
                eq_refl eq_refl) as (r' & -> & Heval).
    rewrite Heval. reflexivity.
  - cbn [evalAll] in Hvalues.
    destruct (eval expr) as [v |] eqn:Hv; [| discriminate].
    destruct (evalAll rest) as [vs |] eqn:Hvs; [| discriminate].
    injection Hvalues as <-.
    destruct (concatLoop_eval_from quasis rest vs
                (BinaryExpression (js "+") (StringLiteral quasi) expr)
                (quasi ++ ToString v) Hvs)
      as (r' & -> & Heval).
    { rewrite eval_plus, Hv. reflexivity. }
    rewrite Heval. cbn [templateString]. rewrite <- !app_assoc. reflexivity.
Qed.

(** ** The claims about the transform *)

(** C2: the template literal [`${1}${2}`] evaluates to the string ["12"].
    Its empty substrings are skipped, so the first operand of the chain
    is the number [1] and the transform hands [1 + 2] to the generator,
    which evaluates to the number [3]. *)
Theorem template_of_two_numbers_becomes_a_sum :
  let source := TemplateLiteral [[]; []; []] [NumericLiteral 1; NumericLiteral 2] in
  let target := BinaryExpression (js "+") (NumericLiteral 1) (NumericLiteral 2) in
  transformCode [VariableDeclaration (js "const") (js "x") source] []
  = Some [VariableDeclaration (js "const") (js "x") target]
  /\ eval source = Some (VString (js "12"))
  /\ eval target = Some (VNumber 3).
Proof.
  cbv zeta. split; [vm_compute; reflexivity |].
  split; vm_compute; reflexivity.
Qed.

(** The same with one interpolation: [`${5}`] is a string, [5] is not. *)
Example template_of_one_number_becomes_the_number :
  transformExpr [] (TemplateLiteral [[]; []] [NumericLiteral 5])
  = Some (NumericLiteral 5)
  /\ eval (TemplateLiteral [[]; []] [NumericLiteral 5]) = Some (VString (js "5"))
  /\ eval (NumericLiteral 5) = Some (VNumber 5).
Proof. split; [vm_compute; reflexivity |]. split; vm_compute; reflexivity. Qed.


(** The slip beside it: the character codes are taken per code point, so
    of a surrogate pair only the first code unit is kept. *)
Example created_drops_low_surrogate :
  map charCodeAt0 (arrayFrom [55357; 56832]%Z) = [55357]%Z.
Proof. reflexivity. Qed.




End TransformsFacts.

(* ================================================================== *)
(** * Properties of src/index.ts: the selection of chunks *)
(* ================================================================== *)

Module SelectionFacts.
Import JS Plugin JSFacts.

Lemma freshName_not_alias (aliases : list jsstring) :
  existsb (fun alias => str_eqb alias (freshName aliases)) aliases = false.
Proof.
  destruct (existsb _ aliases) eqn:E; [| reflexivity].
  apply existsb_exists in E. destruct E as (alias & Hin & Heq).
  apply str_eqb_eq in Heq.
  assert (Hlen : length alias <= list_max (map (@length Z) aliases)).
  { clear Heq. unfold list_max.
    induction aliases as [| a l IH]; [contradiction |].
    simpl. destruct Hin as [-> | Hin]; [lia |]. specialize (IH Hin). lia. }
  rewrite Heq in Hlen. unfold freshName in Hlen.
  rewrite repeat_length in Hlen. lia.
Qed.

(** All chunks are selected exactly when no alias is configured. *)
Lemma selects_all_iff (options : BytecodeOptions) :
  (forall chunkName, isBytecodeChunk options chunkName = true)
  <-> chunkAlias options = None \/ chunkAlias options = Some (Aliases []).
Proof.
  unfold isBytecodeChunk, transformAllChunks, _chunkAlias.
  split.
  - intros H.
    destruct (chunkAlias options) as [[alias | [| alias aliases]] |].
    + specialize (H (freshName [alias])).
      rewrite freshName_not_alias in H. discriminate H.
    + right. reflexivity.
    + specialize (H (freshName (alias :: aliases))).
      rewrite freshName_not_alias in H. discriminate H.
    + left. reflexivity.
  - intros [-> | ->] chunkName; reflexivity.
Qed.

(** C10: when [chunkAlias] is the empty string, or an array that holds
    only empty strings and is not empty, no chunk with a name is a
    compilation candidate; and all chunks are selected exactly when
    [chunkAlias] is unset or the empty array. *)
Theorem empty_alias_selects_no_named_chunk (options : BytecodeOptions) :
  (onlyEmptyAliases options ->
   forall chunkName, chunkName <> [] -> isBytecodeChunk options chunkName = false)
  /\ ((forall chunkName, isBytecodeChunk options chunkName = true)
      <-> chunkAlias options = None \/ chunkAlias options = Some (Aliases [])).
Proof.
  split; [| apply selects_all_iff].
  intros Hempty chunkName Hname.
  unfold isBytecodeChunk, transformAllChunks, _chunkAlias.
  unfold onlyEmptyAliases in Hempty.
  destruct (chunkAlias options) as [[alias | [| alias aliases]] |];
    try contradiction.
  - subst alias. simpl. destruct chunkName; [contradiction | reflexivity].
  - cbn [length Nat.eqb orb].
    destruct (existsb _ (alias :: aliases)) eqn:E; [| reflexivity].
    apply existsb_exists in E. destruct E as (a & Hin & Heq).
    rewrite Forall_forall in Hempty. rewrite (Hempty a Hin) in Heq.
    destruct chunkName; [contradiction | discriminate Heq].
Qed.

(** The theorem at work: with the empty string for [chunkAlias], and
    with an array of two empty strings, the chunk named [index] is not
    selected. *)
Lemma empty_alias_selects_no_named_chunk_witness :
  isBytecodeChunk (mkOptions (Some (Alias [])) None None) (js "index") = false
  /\ isBytecodeChunk (mkOptions (Some (Aliases [[]; []])) None None) (js "index")
     = false.
Proof.
  split.
  - apply (proj1 (empty_alias_selects_no_named_chunk
                    (mkOptions (Some (Alias [])) None None)));
      [reflexivity | discriminate].
  - apply (proj1 (empty_alias_selects_no_named_chunk
                    (mkOptions (Some (Aliases [[]; []])) None None)));
      [repeat constructor | discriminate].
Defined.

End SelectionFacts.

(* ================================================================== *)
(** * Properties of the text operations *)
(* ================================================================== *)

Module TextFacts.
Import JS Text JSFacts.

(** ** The pattern and its loop *)

Lemma greedy_bound (names : list jsstring) (text : jsstring) :
  forall k chunkName,
    greedy names text = Some (k, chunkName) -> k <= length text.
Proof.
  induction text as [| c text IH]; intros k chunkName H; simpl in H.
  - destruct (lookahead names []); [| discriminate].
    injection H as <- _. simpl. lia.
  - destruct (nonSpace c).
    + destruct (greedy names text) as [[k' n'] |] eqn:E.
      * injection H as <- _. specialize (IH _ _ eq_refl). simpl. lia.
      * destruct (lookahead names (c :: text)); [| discriminate].
        injection H as <- _. simpl. lia.
    + destruct (lookahead names (c :: text)); [| discriminate].
      injection H as <- _. simpl. lia.
Qed.

Lemma startsWith_length (s p : jsstring) :
  startsWith s p = true -> length p <= length s.
Proof.
  revert s. induction p as [| y p IH]; intros s H; simpl in *; [lia |].
  destruct s as [| x s]; [discriminate |].
  apply andb_true_iff in H. destruct H as [_ H]. specialize (IH _ H).
  simpl. lia.
Qed.

Lemma matchHere_bounds (names : list jsstring) (text prefix chunkName : jsstring) :
  matchHere names text = Some (prefix, chunkName) ->
  8 <= length prefix <= length text.
Proof.
  unfold matchHere. intros H.
  destruct (startsWith text REQUIRE) eqn:Hreq; [| discriminate].
  apply startsWith_length in Hreq.
  destruct (greedy names (skipn (length REQUIRE) text)) as [[k n] |] eqn:E;
    [| discriminate].
  apply greedy_bound in E. rewrite length_skipn in E.
  assert (Hp : prefix = firstn (length REQUIRE + k) text) by congruence.
  rewrite Hp, length_firstn.
  change (length REQUIRE) with 8 in *. lia.
Qed.

Lemma search_bounds (names : list jsstring) (text : jsstring) :
  forall pos index prefix chunkName,
    search names text pos = Some (index, prefix, chunkName) ->
    pos <= index /\ 8 <= length prefix /\ index + length prefix <= pos + length text.
Proof.
  induction text as [| c text IH]; intros pos index prefix chunkName H;
    simpl in H.
  - destruct (matchHere names []) as [[p n] |] eqn:E; [| discriminate].
    apply matchHere_bounds in E. simpl in E. lia.
  - destruct (matchHere names (c :: text)) as [[p n] |] eqn:E.
    + injection H as <- <- _. apply matchHere_bounds in E. simpl in *. lia.
    + specialize (IH _ _ _ _ H). simpl. lia.
Qed.

Lemma exec_bounds (names : list jsstring) (code : jsstring) (lastIndex : nat) :
  forall index prefix chunkName,
    exec names code lastIndex = Some (index, prefix, chunkName) ->
    lastIndex <= index /\ 8 <= length prefix /\ index + length prefix <= length code.
Proof.
  intros index prefix chunkName H. unfold exec in H.
  destruct (Nat.ltb_spec (length code) lastIndex); [discriminate |].
  apply search_bounds in H. rewrite length_skipn in H. lia.
Qed.

(** Every round moves [lastIndex] forward, so the loop ends. *)
Lemma rewriteLoop_total (names : list jsstring) (code : jsstring) (fuel : nat) :
  forall lastIndex s,
    length code - lastIndex < fuel ->
    rewriteLoop fuel names code lastIndex s <> None.
Proof.
  induction fuel as [| fuel IH]; intros lastIndex s Hfuel; [lia |].
  simpl.
  destruct (exec names code lastIndex) as [[[index prefix] chunkName] |] eqn:E;
    [| discriminate].
  apply exec_bounds in E.
  destruct (overwrite _ index _ _); [| discriminate].
  apply IH. lia.
Qed.

(** The fuel of [rewriteRequires] is enough. *)
Lemma rewriteRequires_fuel (names : list jsstring) (code : jsstring) :
  rewriteLoop (S (length code)) names code 0 None <> None.
Proof. apply rewriteLoop_total. lia. Qed.

(** Without a match the code stays as it is. *)
Lemma rewriteRequires_no_match (names : list jsstring) (code : jsstring) :
  exec names code 0 = None -> rewriteRequires names code = Ok code.
Proof.
  intros H. unfold rewriteRequires. simpl. rewrite H. reflexivity.
Qed.

(** ** Replacing the strict-mode directive *)


Lemma indexOf_None (s p : jsstring) :
  indexOf s p = None ->
  startsWith s p = false
  /\ match s with
     | [] => True
     | _ :: s' => indexOf s' p = None
     end.
Proof.
  intros H. destruct s as [| c s']; simpl in H.
  - destruct (startsWith [] p); [discriminate | auto].
  - destruct (startsWith (c :: s') p); [discriminate |].
    split; [reflexivity |].
    destruct (indexOf s' p); [discriminate | reflexivity].
Qed.

(** A text that holds neither spelling of the directive has no match. *)
Lemma findUseStrict_None (text : jsstring) :
  indexOf text USE_STRICT_DOUBLE = None ->
  indexOf text USE_STRICT_SINGLE = None ->
  findUseStrict text = None.
Proof.
  induction text as [| c text IH]; intros Hd Hs;
    apply indexOf_None in Hd; apply indexOf_None in Hs;
    destruct Hd as [Hd Hd']; destruct Hs as [Hs Hs'].
  - reflexivity.
  - cbn [findUseStrict]. rewrite Hd, Hs. rewrite (IH Hd' Hs'). reflexivity.
Qed.


End TextFacts.

(* ================================================================== *)
(** * Properties of the require rewrite *)
(* ================================================================== *)

Module RewriteFacts.
Import JS Text JSFacts TextFacts.

(** ** What a match is made of *)

Lemma matchName_length (name text : jsstring) :
  matchName name text = true -> length name <= length text.
Proof.
  revert text. induction name as [| p name IH]; intros text H; simpl in *; [lia |].
  destruct text as [| c text]; [discriminate |].
  apply andb_true_iff in H. destruct H as [_ H]. specialize (IH _ H).
  simpl. lia.
Qed.

Lemma lookahead_name (names : list jsstring) (text chunkName : jsstring) :
  lookahead names text = Some chunkName ->
  exists name,
    In name names /\ chunkName = firstn (length name) text
    /\ matchName name text = true.
Proof.
  induction names as [| name names IH]; intros H; simpl in H; [discriminate |].
  destruct (matchName name text && closes (skipn (length name) text)) eqn:E.
  - injection H as <-. apply andb_true_iff in E. destruct E as [E _].
    exists name. split; [left; reflexivity | split; [reflexivity | exact E]].
  - destruct (IH H) as (n & Hin & Hn). exists n. split; [right; exact Hin | exact Hn].
Qed.

Lemma greedy_name (names : list jsstring) (text : jsstring) :
  forall k chunkName,
    greedy names text = Some (k, chunkName) ->
    exists name,
      In name names /\ chunkName = firstn (length name) (skipn k text)
      /\ matchName name (skipn k text) = true.
Proof.
  induction text as [| c text IH]; intros k chunkName H; simpl in H.
  - destruct (lookahead names []) as [n |] eqn:E; [| discriminate].
    injection H as <- <-. exact (lookahead_name _ _ _ E).
  - assert (Hhere : forall k0 n0,
              option_map (pair 0) (lookahead names (c :: text)) = Some (k0, n0) ->
              exists name,
                In name names /\ n0 = firstn (length name) (skipn k0 (c :: text))
                /\ matchName name (skipn k0 (c :: text)) = true).
    { intros k0 n0 Hh.
      destruct (lookahead names (c :: text)) as [n |] eqn:E; [| discriminate].
      injection Hh as <- <-. exact (lookahead_name _ _ _ E). }
    destruct (nonSpace c).
    + destruct (greedy names text) as [[k' n'] |] eqn:E.
      * injection H as <- <-. exact (IH _ _ eq_refl).
      * exact (Hhere _ _ H).
    + exact (Hhere _ _ H).
Qed.

Lemma matchHere_parts (names : list jsstring) (text prefix chunkName : jsstring) :
  matchHere names text = Some (prefix, chunkName) ->
  prefix = firstn (length prefix) text
  /\ exists name,
       In name names
       /\ chunkName = firstn (length name) (skipn (length prefix) text)
       /\ matchName name (skipn (length prefix) text) = true.
Proof.
  intros H. pose proof (matchHere_bounds _ _ _ _ H) as Hb.
  unfold matchHere in H.
  destruct (startsWith text REQUIRE); [| discriminate].
  destruct (greedy names (skipn (length REQUIRE) text)) as [[k n] |] eqn:E;
    [| discriminate].
  assert (Hp : prefix = firstn (length REQUIRE + k) text) by congruence.
  assert (Hn : n = chunkName) by congruence. subst n.
  pose proof (greedy_bound _ _ _ _ E) as Hk. rewrite length_skipn in Hk.
  assert (Hlen : length prefix = length REQUIRE + k).
  { rewrite Hp, length_firstn. change (length REQUIRE) with 8 in *. lia. }
  split; [rewrite Hlen; exact Hp |].
  destruct (greedy_name _ _ _ _ E) as (name & Hin & Hc & Hm).
  rewrite skipn_skipn in Hc, Hm.
  replace (k + length REQUIRE) with (length prefix) in Hc, Hm by lia.
  exists name. split; [exact Hin | split; assumption].
Qed.

Lemma search_matchHere (names : list jsstring) (text : jsstring) :
  forall pos index prefix chunkName,
    search names text pos = Some (index, prefix, chunkName) ->
    pos <= index /\ index - pos <= length text
    /\ matchHere names (skipn (index - pos) text) = Some (prefix, chunkName).
Proof.
  induction text as [| c text IH]; intros pos index prefix chunkName H;
    cbn [search] in H.
  - destruct (matchHere names []) as [[p n] |] eqn:E; [| discriminate].
    injection H as <- <- <-. rewrite Nat.sub_diag. cbn [skipn]. split; [lia |].
    split; [lia | exact E].
  - destruct (matchHere names (c :: text)) as [[p n] |] eqn:E.
    + injection H as <- <- <-. rewrite Nat.sub_diag. cbn [skipn]. split; [lia |].
      split; [lia | exact E].
    + destruct (IH _ _ _ _ H) as (Hle & Hlen & Hm).
      split; [lia |]. split; [simpl; lia |].
      replace (index - pos) with (S (index - S pos)) by lia. exact Hm.
Qed.

Lemma exec_matchHere (names : list jsstring) (code : jsstring) (lastIndex : nat) :
  forall index prefix chunkName,
    exec names code lastIndex = Some (index, prefix, chunkName) ->
    matchHere names (skipn index code) = Some (prefix, chunkName).
Proof.
  intros index prefix chunkName H. unfold exec in H.
  destruct (Nat.ltb_spec (length code) lastIndex); [discriminate |].
  destruct (search_matchHere _ _ _ _ _ _ H) as (Hle & _ & Hm).
  rewrite skipn_skipn in Hm.
  replace (index - lastIndex + lastIndex) with index in Hm by lia.
  exact Hm.
Qed.

(** The range the loop overwrites holds the match and the name after it,
    and the new content is that range and a [c]. *)
Lemma exec_range (names : list jsstring) (code : jsstring) (lastIndex : nat)
    (index : nat) (prefix chunkName : jsstring) :
  exec names code lastIndex = Some (index, prefix, chunkName) ->
  let end_ := index + (length prefix + length chunkName) in
  lastIndex <= index /\ index + 8 <= index + length prefix
  /\ index + length prefix <= end_ /\ end_ <= length code
  /\ prefix ++ chunkName ++ js "c"
     = firstn (end_ - index) (skipn index code) ++ js "c"
  /\ nameEndsAt names code end_.
Proof.
  intros H. cbv zeta.
  destruct (exec_bounds _ _ _ _ _ _ H) as (Hlast & Hp8 & Hplen).
  pose proof (exec_matchHere _ _ _ _ _ _ H) as Hm.
  destruct (matchHere_parts _ _ _ _ Hm) as (Hprefix & name & Hin & Hchunk & Hmatch).
  pose proof (matchName_length _ _ Hmatch) as Hnlen.
  rewrite !length_skipn in Hnlen.
  assert (Hclen : length chunkName = length name).
  { rewrite Hchunk, length_firstn, !length_skipn. lia. }
  repeat split; try lia.
  - replace (index + (length prefix + length chunkName) - index)
      with (length prefix + length chunkName) by lia.
    rewrite app_assoc. f_equal.
    rewrite Hprefix at 1. rewrite Hchunk at 1. rewrite Hclen.
    rewrite <- Hclen.
    symmetry. rewrite <- (firstn_skipn (length prefix) (skipn index code)) at 1.
    rewrite firstn_app, length_firstn, length_skipn.
    replace (Nat.min (length prefix) (length code - index)) with (length prefix)
      by lia.
    replace (length prefix + length chunkName - length prefix)
      with (length chunkName) by lia.
    rewrite firstn_firstn.
    replace (Nat.min (length prefix + length chunkName) (length prefix))
      with (length prefix) by lia.
    rewrite Hclen. reflexivity.
  - exists name. split; [exact Hin |]. split; [lia |].
    rewrite skipn_skipn in Hmatch.
    replace (index + (length prefix + length chunkName) - length name)
      with (length prefix + index) by lia.
    exact Hmatch.
Qed.

(** ** The edits of the loop *)

Lemma firstn_through (a b : nat) (l : jsstring) :
  a <= b -> firstn b l = firstn a l ++ firstn (b - a) (skipn a l).
Proof.
  intros H. rewrite <- (firstn_skipn a l) at 1.
  rewrite firstn_app, length_firstn.
  destruct (Nat.le_gt_cases a (length l)) as [Hle | Hgt].
  - replace (Nat.min a (length l)) with a by lia.
    rewrite firstn_firstn. replace (Nat.min b a) with a by lia. reflexivity.
  - rewrite (skipn_all2 (n := a) l) by lia.
    rewrite !firstn_nil, !app_nil_r.
    rewrite !firstn_all2 by (try rewrite length_firstn; lia).
    reflexivity.
Qed.

(** Rendering ordered edits inserts a [c] where each range ends. *)
Lemma render_insertC (names : list jsstring) (code : jsstring) :
  forall es pos,
    orderedEdits names code pos es ->
    render es (skipn pos code) pos
    = insertC (map (fun e => snd (fst e)) es) (skipn pos code) pos.
Proof.
  induction es as [| [[start end_] content] rest IH]; intros pos H.
  - reflexivity.
  - cbn [orderedEdits] in H.
    destruct H as (Hlo & Hlt & Hend & -> & _ & Hrest).
    cbn [render insertC map fst snd].
    rewrite !skipn_skipn.
    replace (end_ - pos + pos) with end_ by lia.
    rewrite (IH end_ Hrest).
    rewrite (firstn_through (start - pos) (end_ - pos) (skipn pos code)) by lia.
    rewrite skipn_skipn.
    replace (start - pos + pos) with start by lia.
    replace (end_ - pos - (start - pos)) with (end_ - start) by lia.
    rewrite <- !app_assoc. reflexivity.
Qed.

Lemma orderedEdits_ascending (names : list jsstring) (code : jsstring) :
  forall es lo,
    orderedEdits names code lo es ->
    ascending lo (map (fun e => snd (fst e)) es)
    /\ Forall (fun cut => cut <= length code /\ nameEndsAt names code cut)
         (map (fun e => snd (fst e)) es).
Proof.
  induction es as [| [[start end_] content] rest IH]; intros lo H.
  - split; [exact I | constructor].
  - cbn [orderedEdits] in H.
    destruct H as (Hlo & Hlt & Hend & _ & Hname & Hrest).
    destruct (IH end_ Hrest) as [Hasc Hall].
    split; [split; [simpl; lia | exact Hasc] |].
    constructor; [split; assumption | exact Hall].
Qed.

(** A new range that begins where no earlier one is open goes after all
    of them. *)
Lemma orderedEdits_snoc (names : list jsstring) (code : jsstring)
    (start end_ : nat) (content : jsstring) :
  start < end_ -> end_ <= length code ->
  content = firstn (end_ - start) (skipn start code) ++ js "c" ->
  nameEndsAt names code end_ ->
  forall es lo,
    orderedEdits names code lo es -> lo <= start ->
    Forall (fun e => fst (fst e) < start) es ->
    splitsEdited es start = false ->
    orderedEdits names code lo (es ++ [(start, end_, content)])
    /\ insertEdit (start, end_, content)
         (filter (fun e => negb (covered start end_ e)) es)
       = es ++ [(start, end_, content)].
Proof.
  intros Hlt Hend Hcontent Hname.
  induction es as [| [[s e] c] rest IH]; intros lo Hord Hlo Hstarts Hsplit.
  - split; [| reflexivity]. cbn [app orderedEdits]. repeat split; auto.
  - cbn [orderedEdits] in Hord.
    destruct Hord as (Hs & Hse & He & Hc & Hn & Hrest).
    inversion Hstarts as [| ? ? Hs_lt Hstarts']; subst. simpl in Hs_lt.
    cbn [splitsEdited existsb] in Hsplit. apply orb_false_iff in Hsplit.
    destruct Hsplit as [Hhere Hsplit'].
    assert (He_start : e <= start).
    { apply andb_false_iff in Hhere. destruct Hhere as [Hh | Hh].
      - apply Nat.ltb_ge in Hh. lia.
      - apply Nat.ltb_ge in Hh. exact Hh. }
    destruct (IH e Hrest He_start Hstarts' Hsplit') as [Hord' Hins].
    split.
    + cbn [app orderedEdits]. repeat split; auto.
    + cbn [filter covered].
      replace (start <=? s) with false by (symmetry; apply Nat.leb_gt; lia).
      cbn [andb negb insertEdit fst].
      replace (start <=? s) with false by (symmetry; apply Nat.leb_gt; lia).
      rewrite Hins. reflexivity.
Qed.

Lemma rewriteLoop_edits (names : list jsstring) (code : jsstring) (fuel : nat) :
  forall lastIndex s result,
    loopState names code lastIndex s ->
    rewriteLoop fuel names code lastIndex s = Some (Ok result) ->
    match result with
    | None => s = None
    | Some m => original m = code /\ orderedEdits names code 0 (edits m)
    end.
Proof.
  induction fuel as [| fuel IH]; intros lastIndex s result Hs H; [discriminate H |].
  simpl in H.
  destruct (exec names code lastIndex) as [[[index prefix] chunkName] |] eqn:E.
  - pose proof (exec_range _ _ _ _ _ _ E) as Hrange. cbv zeta in Hrange.
    destruct Hrange as (Hlast & Hp8 & Hpe & Hend & Hcontent & Hname).
    set (s1 := match s with
               | Some m => m
               | None => newMagicString code
               end) in *.
    assert (Hs1 : original s1 = code
                  /\ orderedEdits names code 0 (edits s1)
                  /\ Forall (fun e => fst (fst e) < lastIndex) (edits s1)).
    { subst s1. destruct s as [m |]; [exact Hs |].
      split; [reflexivity |]. split; [exact I | constructor]. }
    destruct Hs1 as (Horig & Hord & Hstarts).
    destruct (overwrite s1 index (index + (length prefix + length chunkName))
                (prefix ++ chunkName ++ js "c")) as [s2 | m] eqn:Ho;
      [| discriminate].
    unfold overwrite in Ho.
    destruct (index =? index + (length prefix + length chunkName)); [discriminate |].
    destruct ((index + (length prefix + length chunkName) <? index)
              || (length (original s1) <? index + (length prefix + length chunkName)));
      [discriminate |].
    destruct (splitsEdited (edits s1) index) eqn:Hsplit; [discriminate |].
    cbn [orb] in Ho.
    destruct (splitsEdited (edits s1)
                (index + (length prefix + length chunkName))); [discriminate |].
    injection Ho as <-.
    assert (Hstarts' : Forall (fun e => fst (fst e) < index) (edits s1)).
    { eapply Forall_impl; [| exact Hstarts]. intros e He. simpl in *. lia. }
    destruct (orderedEdits_snoc names code index
                (index + (length prefix + length chunkName))
                (prefix ++ chunkName ++ js "c") ltac:(lia) Hend Hcontent Hname
                (edits s1) 0 Hord ltac:(lia) Hstarts' Hsplit) as [Hord' Hins].
    rewrite Hins in H.
    assert (Hnext : loopState names code (index + length prefix)
                      (Some (mkMagicString (original s1)
                               (edits s1
                                  ++ [(index,
                                       index + (length prefix + length chunkName),
                                       prefix ++ chunkName ++ js "c")])))).
    { unfold loopState. cbn [original edits].
      split; [exact Horig |]. split; [exact Hord' |].
      apply Forall_app. split.
      - eapply Forall_impl; [| exact Hstarts']. intros e He. simpl in *. lia.
      - constructor; [simpl; lia | constructor]. }
    specialize (IH _ _ result Hnext H).
    destruct result as [m |]; [exact IH | discriminate IH].
  - injection H as <-. destruct s as [m |]; [| reflexivity].
    destruct Hs as (Horig & Hord & _). split; assumption.
Qed.

(** What holds of the rewrite whenever it returns: the new code is the
    old one with a [c] inserted at indices in strictly ascending order,
    each the end of a match of a chunk name; every other character stays
    where it was, and no place receives two. *)
Lemma rewriteRequires_inserts (names : list jsstring) (code code' : jsstring) :
  rewriteRequires names code = Ok code' ->
  exists cuts,
    code' = insertC cuts code 0
    /\ ascending 0 cuts
    /\ Forall (fun cut => cut <= length code /\ nameEndsAt names code cut) cuts.
Proof.
  unfold rewriteRequires. intros H.
  destruct (rewriteLoop (S (length code)) names code 0 None)
    as [[[m |] | msg] |] eqn:E.
  - injection H as <-.
    pose proof (rewriteLoop_edits names code _ 0 None (Some m) I E) as [Horig Hord].
    exists (map (fun e => snd (fst e)) (edits m)).
    destruct (orderedEdits_ascending names code _ _ Hord) as [Hasc Hall].
    split; [| split; assumption].
    unfold toString. rewrite Horig.
    exact (render_insertC names code (edits m) 0 Hord).
  - injection H as <-. exists []. split; [reflexivity |].
    split; [exact I | constructor].
  - discriminate H.
  - exfalso. exact (rewriteRequires_fuel names code E).
Qed.

End RewriteFacts.

(* ================================================================== *)
(** * Properties of src/index.ts: the reachability walk *)
(* ================================================================== *)

Module WalkFacts.
Import JS Plugin JSFacts.

(** ** The set of ids *)

Lemma setAdd_grows (set : list jsstring) (x : jsstring) :
  exists extra, setAdd set x = set ++ extra.
Proof.
  unfold setAdd. destruct (includes set x).
  - exists []. symmetry. apply app_nil_r.
  - exists [x]. reflexivity.
Qed.

Lemma setAddAll_grows (xs : list jsstring) :
  forall set, exists extra, setAddAll set xs = set ++ extra.
Proof.
  unfold setAddAll.
  induction xs as [| x xs IH]; intros set; simpl.
  - exists []. symmetry. apply app_nil_r.
  - destruct (setAdd_grows set x) as (e1 & ->).
    destruct (IH (set ++ e1)) as (e2 & ->).
    exists (e1 ++ e2). symmetry. apply app_assoc.
Qed.

Lemma setAdd_NoDup (set : list jsstring) (x : jsstring) :
  NoDup set -> NoDup (setAdd set x).
Proof.
  intros H. unfold setAdd. destruct (includes set x) eqn:E; [exact H |].
  apply NoDup_app; [exact H | constructor; [intros [] | constructor] |].
  intros a Ha [<- | []].
  apply includes_In in Ha. congruence.
Qed.

Lemma setAddAll_NoDup (xs : list jsstring) :
  forall set, NoDup set -> NoDup (setAddAll set xs).
Proof.
  unfold setAddAll.
  induction xs as [| x xs IH]; intros set H; simpl; [exact H |].
  apply IH, setAdd_NoDup, H.
Qed.

Lemma setAdd_incl (U set : list jsstring) (x : jsstring) :
  incl set U -> In x U -> incl (setAdd set x) U.
Proof.
  intros Hs Hx. unfold setAdd. destruct (includes set x); [exact Hs |].
  apply incl_app; [exact Hs |]. intros a [<- | []]. exact Hx.
Qed.

Lemma setAddAll_incl (U xs : list jsstring) :
  forall set, incl set U -> incl xs U -> incl (setAddAll set xs) U.
Proof.
  unfold setAddAll.
  induction xs as [| x xs IH]; intros set Hs Hxs; simpl; [exact Hs |].
  apply IH.
  - apply setAdd_incl; [exact Hs | apply Hxs; left; reflexivity].
  - intros a Ha. apply Hxs. right. exact Ha.
Qed.

Lemma setAdd_In (set : list jsstring) (x : jsstring) : In x (setAdd set x).
Proof.
  unfold setAdd. destruct (includes set x) eqn:E.
  - apply includes_In. exact E.
  - apply in_or_app. right. left. reflexivity.
Qed.

Lemma setAddAll_keeps (xs : list jsstring) :
  forall set a, In a set -> In a (setAddAll set xs).
Proof.
  intros set a Ha. destruct (setAddAll_grows xs set) as (extra & ->).
  apply in_or_app. left. exact Ha.
Qed.

Lemma setAddAll_In (xs : list jsstring) :
  forall set a, In a xs -> In a (setAddAll set xs).
Proof.
  induction xs as [| x xs IH]; intros set a Ha; [contradiction |].
  destruct Ha as [<- | Ha].
  - change (setAddAll set (x :: xs)) with (setAddAll (setAdd set x) xs).
    apply setAddAll_keeps, setAdd_In.
  - change (setAddAll set (x :: xs)) with (setAddAll (setAdd set x) xs).
    apply IH. exact Ha.
Qed.

Lemma idsToHandle_NoDup (chunk : OutputChunk) : NoDup (idsToHandle chunk).
Proof. apply setAddAll_NoDup. constructor. Qed.

Lemma idsToHandle_In (chunk : OutputChunk) (id : jsstring) :
  In id (imports chunk ++ dynamicImports chunk) -> In id (idsToHandle chunk).
Proof. apply setAddAll_In. Qed.

(** ** The loop ends *)

Lemma getModuleInfo_In (graph : ModuleGraph) (moduleId : jsstring) (info : ModuleInfo) :
  getModuleInfo graph moduleId = Some info -> exists id, In (id, info) graph.
Proof.
  induction graph as [| [id i] graph IH]; intros H; simpl in H; [discriminate |].
  destruct (str_eqb id moduleId).
  - injection H as <-. exists id. left. reflexivity.
  - destruct (IH H) as (id' & Hin). exists id'. right. exact Hin.
Qed.

Lemma universe_importers (graph : ModuleGraph) (chunk : OutputChunk)
    (moduleId : jsstring) (info : ModuleInfo) :
  getModuleInfo graph moduleId = Some info ->
  incl (importers info) (universe graph chunk)
  /\ incl (dynamicImporters info) (universe graph chunk).
Proof.
  intros H. destruct (getModuleInfo_In _ _ _ H) as (id & Hin).
  split; intros a Ha; unfold universe; apply in_or_app; right;
    apply in_flat_map; exists (id, info); (split; [exact Hin |]);
    simpl; apply in_or_app; [left | right]; exact Ha.
Qed.

(** The set holds no id twice and only ids of [universe], and the index
    grows by one each round: the loop ends within [fuel] rounds. *)
Lemma walk_total (graph : ModuleGraph) (compiled : list jsstring)
    (chunk : OutputChunk) (fuel : nat) :
  forall ids i,
    NoDup ids -> incl ids (universe graph chunk) ->
    length (universe graph chunk) - i < fuel ->
    walk fuel graph compiled ids i <> None.
Proof.
  induction fuel as [| fuel IH]; intros ids i Hnd Hincl Hfuel; [lia |].
  simpl.
  destruct (nth_error ids i) as [moduleId |] eqn:E; [| discriminate].
  assert (Hi : i < length ids) by (apply nth_error_Some; congruence).
  pose proof (NoDup_incl_length Hnd Hincl) as Hlen.
  destruct (includes compiled moduleId); [discriminate |].
  destruct (getModuleInfo graph moduleId) as [info |] eqn:Hinfo.
  - destruct (universe_importers graph chunk _ _ Hinfo) as [H1 H2].
    destruct (isExternal info); simpl.
    + apply IH; [exact Hnd | exact Hincl | lia].
    + apply IH; [| | lia].
      * apply setAddAll_NoDup, setAddAll_NoDup, Hnd.
      * apply setAddAll_incl; [apply setAddAll_incl |]; assumption.
  - apply IH; [exact Hnd | exact Hincl | lia].
Qed.

(** The fuel of [hasBytecodeModule] is enough: the flag is the result of
    the loop. *)
Lemma hasBytecodeModule_walk (graph : ModuleGraph) (compiled : list jsstring)
    (chunk : OutputChunk) :
  walk (S (length (universe graph chunk))) graph compiled (idsToHandle chunk) 0
  = Some (hasBytecodeModule graph compiled chunk).
Proof.
  unfold hasBytecodeModule.
  pose proof (walk_total graph compiled chunk (S (length (universe graph chunk)))
                (idsToHandle chunk) 0 (idsToHandle_NoDup chunk)) as H.
  destruct (walk _ graph compiled (idsToHandle chunk) 0); [reflexivity |].
  exfalso. apply H; [| lia | reflexivity].
  intros a Ha. unfold universe. apply in_or_app. left. exact Ha.
Qed.

(** ** A compiled chunk among the ids is found *)



End WalkFacts.

(* ================================================================== *)
(** * Properties of src/index.ts: the build step *)
(* ================================================================== *)

Module BundleFacts.
Import JS Compiler Text Plugin JSFacts TextFacts WalkFacts.

(** ** Output objects as Rollup hands them over *)

Lemma NoDup_keys_unique {A : Type} (l : list (jsstring * A)) (k : jsstring) (a b : A) :
  NoDup (map fst l) -> In (k, a) l -> In (k, b) l -> a = b.
Proof.
  induction l as [| [k' c] l IH]; intros Hnd Ha Hb; [contradiction |].
  simpl in Hnd. inversion Hnd as [| ? ? Hnotin Hnd']; subst.
  destruct Ha as [Ha | Ha]; destruct Hb as [Hb | Hb].
  - congruence.
  - injection Ha as -> ->. exfalso. apply Hnotin.
    apply in_map_iff. exists (k, b). split; [reflexivity | exact Hb].
  - injection Hb as -> ->. exfalso. apply Hnotin.
    apply in_map_iff. exists (k, a). split; [reflexivity | exact Ha].
  - exact (IH Hnd' Ha Hb).
Qed.

Lemma NoDup_map_filter {A B : Type} (f : A -> B) (P : A -> bool) (l : list A) :
  NoDup (map f l) -> NoDup (map f (filter P l)).
Proof.
  induction l as [| a l IH]; intros H; simpl in *; [exact H |].
  inversion H as [| ? ? Hnotin Hnd]; subst.
  destruct (P a); [| exact (IH Hnd)].
  simpl. constructor; [| exact (IH Hnd)].
  intros Hin. apply Hnotin.
  apply in_map_iff in Hin. destruct Hin as (x & Hx & Hin).
  apply filter_In in Hin. apply in_map_iff. exists x. tauto.
Qed.

Lemma codeOf_In (output : OutputBundle) (key : jsstring) (chunk : OutputChunk) :
  NoDup (map fst output) -> In (key, Chunk chunk) output ->
  codeOf output key = Some (code chunk).
Proof.
  induction output as [| [k item] output IH]; intros Hnd Hin; [contradiction |].
  simpl in Hnd. inversion Hnd as [| ? ? Hnotin Hnd']; subst.
  simpl. destruct Hin as [Hin | Hin].
  - injection Hin as -> ->. rewrite str_eqb_refl. reflexivity.
  - destruct (str_eqb k key) eqn:E.
    + apply str_eqb_eq in E. subst k. exfalso. apply Hnotin.
      apply in_map_iff. exists (key, Chunk chunk). split; [reflexivity | exact Hin].
    + exact (IH Hnd' Hin).
Qed.

(** ** Candidates *)

Lemma candidates_In (options : BytecodeOptions) (output : OutputBundle)
    (chunk : OutputChunk) :
  In chunk (candidates options output)
  <-> exists key, In (key, Chunk chunk) output
                  /\ isBytecodeChunk options (name chunk) = true.
Proof.
  unfold candidates. rewrite in_flat_map. split.
  - intros ([key item] & Hin & Hc). simpl in Hc.
    destruct item as [c | f src]; [| contradiction].
    destruct (isBytecodeChunk options (name c)) eqn:E; [| contradiction].
    destruct Hc as [<- | []]. exists key. split; assumption.
  - intros (key & Hin & Hc). exists (key, Chunk chunk). split; [exact Hin |].
    simpl. rewrite Hc. left. reflexivity.
Qed.

(** In a well-formed output object a chunk is compiled exactly when its
    name is selected. *)
Lemma compiled_iff_selected (options : BytecodeOptions) (output : OutputBundle)
    (key : jsstring) (chunk : OutputChunk) :
  wellFormed output -> In (key, Chunk chunk) output ->
  includes (bytecodeChunks options output) key
  = isBytecodeChunk options (name chunk).
Proof.
  intros [Hnd Hkeys] Hin.
  assert (Hfile : fileName chunk = key).
  { unfold keysAreFileNames in Hkeys. rewrite Forall_forall in Hkeys.
    exact (Hkeys _ Hin). }
  destruct (isBytecodeChunk options (name chunk)) eqn:Hsel.
  - apply includes_In. unfold bytecodeChunks. apply in_map_iff.
    exists chunk. split; [exact Hfile |].
    apply candidates_In. exists key. split; assumption.
  - destruct (includes (bytecodeChunks options output) key) eqn:E; [| reflexivity].
    apply includes_In in E. unfold bytecodeChunks in E.
    apply in_map_iff in E. destruct E as (c' & Hc' & Hcand).
    apply candidates_In in Hcand. destruct Hcand as (key' & Hin' & Hsel').
    assert (Hfile' : fileName c' = key').
    { unfold keysAreFileNames in Hkeys. rewrite Forall_forall in Hkeys.
      exact (Hkeys _ Hin'). }
    assert (Hsame : key' = key) by congruence. rewrite Hsame in Hin'.
    assert (Heq : Chunk c' = Chunk chunk)
      by exact (NoDup_keys_unique output key _ _ Hnd Hin' Hin).
    injection Heq as ->. congruence.
Qed.

(** ** One chunk *)

(** A chunk that is not compiled: its code is the code after
    [updateRequires], with the loader injected by [injectLoader]; nothing
    is emitted, nothing deleted, the compiler is not run. *)
Lemma finalizeChunk_not_compiled (options : BytecodeOptions) (env : Environment)
    (output : OutputBundle) (p p' : Process) (key : jsstring)
    (chunk : OutputChunk) (fin : Finalized) :
  includes (bytecodeChunks options output) key = false ->
  finalizeChunk options env output p key chunk = (p', Ok fin) ->
  exists _code,
    updateRequires (nonEntryChunks options output) (code chunk) = Ok _code
    /\ fin = mkFinalized
               (injectLoader env (bytecodeChunks options output) chunk _code)
               [] [] 0.
Proof.
  intros Hnot H. unfold finalizeChunk in H.
  destruct (updateRequires (nonEntryChunks options output) (code chunk))
    as [_code | m]; [| discriminate].
  rewrite Hnot in H. injection H as _ <-.
  exists _code. split; reflexivity.
Qed.

(** Only a compiled chunk deletes a key, and the key is its file name. *)
Lemma finalizeChunk_deleted (options : BytecodeOptions) (env : Environment)
    (output : OutputBundle) (p p' : Process) (key : jsstring)
    (chunk : OutputChunk) (fin : Finalized) (k : jsstring) :
  finalizeChunk options env output p key chunk = (p', Ok fin) ->
  In k (deleted fin) ->
  k = fileName chunk /\ includes (bytecodeChunks options output) key = true.
Proof.
  intros H Hk. unfold finalizeChunk in H.
  destruct (updateRequires (nonEntryChunks options output) (code chunk))
    as [_code | m]; [| discriminate].
  destruct (includes (bytecodeChunks options output) key).
  - destruct (compileToBytecode (vm env) p _code) as [p1 [buf | m]];
      [| discriminate].
    destruct (isEntry chunk); injection H as _ <-; simpl in Hk.
    + contradiction.
    + destruct Hk as [<- | []]. split; reflexivity.
  - injection H as _ <-. contradiction.
Qed.

(** ** All chunks *)

Lemma finalizeAll_Ok (options : BytecodeOptions) (env : Environment)
    (output : OutputBundle) (bundles : OutputBundle) :
  forall p p' done,
    finalizeAll options env output p bundles = (p', Ok done) ->
    map (fun d => fst (fst d)) done = map fst bundles
    /\ (forall key chunk, In (key, Chunk chunk) bundles ->
          exists fin, In (key, Chunk chunk, fin) done)
    /\ (forall key item fin, In (key, item, fin) done ->
          In (key, item) bundles
          /\ match item with
             | Chunk chunk =>
                 exists p0 p1,
                   finalizeChunk options env output p0 key chunk = (p1, Ok fin)
             | Asset _ _ => deleted fin = []
             end).
Proof.
  induction bundles as [| [key item] rest IH]; intros p p' done H.
  - simpl in H. injection H as _ <-.
    split; [reflexivity |]. split; [intros ? ? [] | intros ? ? ? []].
  - simpl in H. destruct item as [chunk | f src].
    + destruct (finalizeChunk options env output p key chunk)
        as [p1 [fin | m]] eqn:Hfin; [| discriminate].
      destruct (finalizeAll options env output p1 rest)
        as [p2 [done' | m]] eqn:Hrest; [| discriminate].
      injection H as _ <-.
      destruct (IH _ _ _ Hrest) as (Hkeys & Hall & Hback).
      split; [simpl; f_equal; exact Hkeys |]. split.
      * intros k c [Hin | Hin].
        -- injection Hin as <- <-. exists fin. left. reflexivity.
        -- destruct (Hall _ _ Hin) as (fin' & Hin'). exists fin'. right. exact Hin'.
      * intros k i fin' [Hin | Hin].
        -- injection Hin as <- <- <-. split; [left; reflexivity |].
           exists p, p1. exact Hfin.
        -- destruct (Hback _ _ _ Hin) as [Hb1 Hb2]. split; [right; exact Hb1 | exact Hb2].
    + destruct (finalizeAll options env output p rest)
        as [p2 [done' | m]] eqn:Hrest; [| discriminate].
      injection H as _ <-.
      destruct (IH _ _ _ Hrest) as (Hkeys & Hall & Hback).
      split; [simpl; f_equal; exact Hkeys |]. split.
      * intros k c [Hin | Hin]; [discriminate Hin |].
        destruct (Hall _ _ Hin) as (fin' & Hin'). exists fin'. right. exact Hin'.
      * intros k i fin' [Hin | Hin].
        -- injection Hin as <- <- <-. split; [left; reflexivity | reflexivity].
        -- destruct (Hback _ _ _ Hin) as [Hb1 Hb2]. split; [right; exact Hb1 | exact Hb2].
Qed.

(** ** The code of a chunk that is not compiled *)

Lemma walk_true (graph : ModuleGraph) (compiled : list jsstring) (fuel : nat) :
  forall ids i,
    walk fuel graph compiled ids i = Some true ->
    exists id, includes compiled id = true.
Proof.
  induction fuel as [| fuel IH]; intros ids i H; [discriminate H |].
  simpl in H.
  destruct (nth_error ids i) as [moduleId |]; [| discriminate].
  destruct (includes compiled moduleId) eqn:E; [exists moduleId; exact E |].
  destruct (getModuleInfo graph moduleId) as [info |].
  - destruct (isExternal info); simpl in H; exact (IH _ _ H).
  - exact (IH _ _ H).
Qed.

Lemma hasBytecodeModule_nothing_compiled (graph : ModuleGraph) (chunk : OutputChunk) :
  hasBytecodeModule graph [] chunk = false.
Proof.
  destruct (hasBytecodeModule graph [] chunk) eqn:E; [| reflexivity].
  pose proof (hasBytecodeModule_walk graph [] chunk) as H. rewrite E in H.
  apply walk_true in H. destruct H as (id & Hid). discriminate Hid.
Qed.

Lemma injectLoader_unchanged (env : Environment) (compiled : list jsstring)
    (chunk : OutputChunk) (_code : jsstring) :
  isEntry chunk = false \/ hasBytecodeModule (graph env) compiled chunk = false ->
  injectLoader env compiled chunk _code = _code.
Proof.
  intros [H | H]; unfold injectLoader; rewrite H; [reflexivity |].
  destruct (isEntry chunk); reflexivity.
Qed.

Lemma injectLoader_no_directive (env : Environment) (compiled : list jsstring)
    (chunk : OutputChunk) (_code : jsstring) :
  indexOf _code USE_STRICT_DOUBLE = None ->
  indexOf _code USE_STRICT_SINGLE = None ->
  injectLoader env compiled chunk _code = _code.
Proof.
  intros Hd Hs. unfold injectLoader, replaceUseStrict.
  rewrite (findUseStrict_None _ Hd Hs).
  destruct (isEntry chunk); [| reflexivity].
  destruct (hasBytecodeModule (graph env) compiled chunk); reflexivity.
Qed.


(** In the output object the build step leaves, a chunk that is not
    compiled holds what [injectLoader] makes of its code after
    [updateRequires]. *)
Lemma generateBundle_not_compiled (options : BytecodeOptions) (env : Environment)
    (p p' : Process) (output : OutputBundle) (g : Generated)
    (key : jsstring) (chunk : OutputChunk) :
  wellFormed output ->
  generateBundle true options env p output = (p', Ok g) ->
  In (key, Chunk chunk) output ->
  isBytecodeChunk options (name chunk) = false ->
  exists _code,
    updateRequires (nonEntryChunks options output) (code chunk) = Ok _code
    /\ codeOf (finalOutput g) key
       = Some (injectLoader env (bytecodeChunks options output) chunk _code).
Proof.
  intros Hwf Hgen Hin Hsel.
  pose proof (compiled_iff_selected options output key chunk Hwf Hin) as Hcomp.
  rewrite Hsel in Hcomp. destruct Hwf as [Hnd Hkeys].
  unfold generateBundle in Hgen. cbn [negb] in Hgen.
  destruct (candidates options output) as [| c0 cs] eqn:Hcand.
  - (* nothing is selected: the step returns at once *)
    cbn [length Nat.eqb] in Hgen. injection Hgen as _ <-.
    exists (code chunk).
    unfold nonEntryChunks, bytecodeChunks. rewrite Hcand.
    split; [reflexivity |].
    rewrite injectLoader_unchanged
      by (right; apply hasBytecodeModule_nothing_compiled).
    exact (codeOf_In output key chunk Hnd Hin).
  - cbn [length Nat.eqb] in Hgen. clear Hcand c0 cs.
    destruct (finalizeAll options env output p output) as [p1 [done | m]] eqn:Hall;
      [| discriminate].
    injection Hgen as _ <-. cbn [finalOutput].
    destruct (finalizeAll_Ok options env output output _ _ _ Hall)
      as (Hmap & Hfwd & Hback).
    destruct (Hfwd key chunk Hin) as (fin & Hdone).
    destruct (Hback _ _ _ Hdone) as [_ (p0 & p2 & Hfin)].
    destruct (finalizeChunk_not_compiled _ _ _ _ _ _ _ _ Hcomp Hfin)
      as (_code & Hupdate & ->).
    exists _code. split; [exact Hupdate |].
    set (gone := flat_map (fun d => deleted (snd d)) done).
    set (conv := fun d : jsstring * OutputItem * Finalized =>
                   match d with
                   | (k, Chunk c, f) => (k, Chunk (withCode c (newCode f)))
                   | (k, Asset a src, _) => (k, Asset a src)
                   end).
    assert (Hgone : includes gone key = false).
    { destruct (includes gone key) eqn:E; [| reflexivity].
      apply includes_In in E. subst gone.
      apply in_flat_map in E. destruct E as ([[k' item'] fin'] & Hd' & Hk).
      simpl in Hk. destruct (Hback _ _ _ Hd') as [Hin' Hitem].
      destruct item' as [c' | a src].
      - destruct Hitem as (q0 & q1 & Hfin').
        destruct (finalizeChunk_deleted _ _ _ _ _ _ _ _ _ Hfin' Hk) as [Hkey Hc'].
        unfold keysAreFileNames in Hkeys. rewrite Forall_forall in Hkeys.
        pose proof (Hkeys _ Hin') as Hfile. simpl in Hfile.
        assert (k' = key) by congruence. subst k'. congruence.
      - rewrite Hitem in Hk. contradiction. }
    assert (Hconv : map fst (map conv done) = map fst output).
    { rewrite <- Hmap, map_map. apply map_ext.
      intros [[k [c | a src]] f]; reflexivity. }
    change (codeOf (filter (fun entry => negb (includes gone (fst entry)))
                      (map conv done)) key
            = Some (code (withCode chunk
                            (injectLoader env (bytecodeChunks options output)
                               chunk _code)))).
    apply codeOf_In.
    + apply NoDup_map_filter. rewrite Hconv. exact Hnd.
    + apply filter_In. split.
      * apply in_map_iff. exists (key, Chunk chunk,
          mkFinalized (injectLoader env (bytecodeChunks options output) chunk _code)
            [] [] 0).
        split; [reflexivity | exact Hdone].
      * simpl. rewrite Hgone. reflexivity.
Qed.

Lemma chainOutput_wellFormed : wellFormed chainOutput.
Proof.
  split.
  - repeat constructor; simpl; intuition discriminate.
  - repeat constructor.
Qed.

Lemma looseOutput_wellFormed : wellFormed looseOutput.
Proof.
  split.
  - repeat constructor; simpl; intuition discriminate.
  - repeat constructor.
Qed.

(** ** The claims about the build step *)


(** Neither does the walk follow imports of imports when the module
    graph knows nothing under the file names of chunks: the entry [a.js],
    which reaches [c.js] through [b.js], is emitted as it was. *)
Example entry_reaching_through_a_chunk_unchanged :
  hasBytecodeModule (graph sampleEnv) (bytecodeChunks chainOptions chainOutput) chunkA
  = false
  /\ codeOf (finalOutput (generated chainBuild)) (js "a.js") = Some (code chunkA).
Proof. split; vm_compute; reflexivity. Qed.



(** C4: the minified entry requires [a.js] and [b.js] in one statement
    without white space.  The star of the pattern runs to the last name
    in the run, so only [b.js] becomes [b.jsc]; the call of [a.js] is
    left as it was, while [a.js] itself is compiled, emitted as
    [a.jsc] and deleted. *)
Theorem only_last_require_of_a_run_rewritten :
  forallb plainName (nonEntryChunks minifiedOptions minifiedOutput) = true
  /\ updateRequires (nonEntryChunks minifiedOptions minifiedOutput)
    (js "'use strict';const a=require('./a.js'),b=require('./b.js');")
  = Ok (js "'use strict';const a=require('./a.js'),b=require('./b.jsc');")
  /\ snd minifiedBuild = Ok (generated minifiedBuild)
  /\ codeOf (finalOutput (generated minifiedBuild)) (js "main.js")
     = Some (useStrict ++ [LF]
               ++ js "require(" ++ quoted (js "./bytecode-loader.cjs") ++ js ");"
               ++ js "const a=require('./a.js'),b=require('./b.jsc');")
  /\ map fst (finalOutput (generated minifiedBuild)) = [js "main.js"]
  /\ map emittedFileName (assets (generated minifiedBuild))
     = [js "a.jsc"; js "b.jsc"; js "bytecode-loader.cjs"].
Proof. repeat split; vm_compute; reflexivity. Qed.

(** With white space between the two calls both are rewritten. *)
Example requires_in_separate_runs_rewritten :
  rewriteRequires [js "a.js"; js "b.js"]
    (js "const a = require('./a.js'), b = require('./b.js');")
  = Ok (js "const a = require('./a.jsc'), b = require('./b.jsc');").
Proof. vm_compute. reflexivity. Qed.

(** A call with white space inside its parentheses is not matched. *)
Example require_with_inner_space_kept :
  rewriteRequires [js "a.js"] (js "const a = require( './a.js' );")
  = Ok (js "const a = require( './a.js' );").
Proof. vm_compute. reflexivity. Qed.

(** C9, as stated, fails: the entry has no directive and the walk finds
    the compiled chunk it requires, yet its code is not emitted
    unchanged: the require target is rewritten. *)
Lemma entry_without_directive_still_rewritten :
  forallb plainName (nonEntryChunks looseOptions looseOutput) = true
  /\ isEntry looseMain = true
  /\ isBytecodeChunk looseOptions (name looseMain) = false
  /\ hasBytecodeModule (graph sampleEnv)
       (bytecodeChunks looseOptions looseOutput) looseMain = true
  /\ indexOf (code looseMain) USE_STRICT_DOUBLE = None
  /\ indexOf (code looseMain) USE_STRICT_SINGLE = None
  /\ snd looseBuild = Ok (generated looseBuild)
  /\ codeOf (finalOutput (generated looseBuild)) (js "main.js")
     = Some (js "const d = require('./dep.jsc');")
  /\ js "const d = require('./dep.jsc');" <> code looseMain.
Proof.
  repeat split; try (vm_compute; reflexivity).
  intros H. discriminate H.
Qed.

(** C9, amended: an entry chunk that is not compiled and for which the
    walk finds a compiled chunk, but whose code after the require rewrite
    holds neither spelling of the directive, is emitted as that code: no
    loader-require statement is injected.  That code is the chunk's own
    code, byte for byte, when the require pattern matches nowhere in
    it.  The output object is well formed and the base names of the
    compiled chunks are plain, as the model of the pattern requires. *)
Theorem entry_without_directive_not_injected
    (options : BytecodeOptions) (env : Environment) (p p' : Process)
    (output : OutputBundle) (g : Generated) (key : jsstring)
    (chunk : OutputChunk) :
  wellFormed output ->
  forallb plainName (nonEntryChunks options output) = true ->
  generateBundle true options env p output = (p', Ok g) ->
  In (key, Chunk chunk) output ->
  isBytecodeChunk options (name chunk) = false ->
  isEntry chunk = true ->
  hasBytecodeModule (graph env) (bytecodeChunks options output) chunk = true ->
  exists _code,
    updateRequires (nonEntryChunks options output) (code chunk) = Ok _code
    /\ (indexOf _code USE_STRICT_DOUBLE = None ->
        indexOf _code USE_STRICT_SINGLE = None ->
        codeOf (finalOutput g) key = Some _code)
    /\ (exec (nonEntryChunks options output) (code chunk) 0 = None ->
        _code = code chunk).
Proof.
  intros Hwf _ Hgen Hin Hsel _ _.
  destruct (generateBundle_not_compiled options env p p' output g key chunk
              Hwf Hgen Hin Hsel) as (_code & Hupdate & Hcode).
  exists _code. split; [exact Hupdate |]. split.
  - intros Hd Hs. rewrite Hcode. f_equal.
    apply injectLoader_no_directive; assumption.
  - intros Hexec. unfold updateRequires in Hupdate.
    destruct (nonEntryChunks options output) as [| n ns].
    + congruence.
    + rewrite (rewriteRequires_no_match _ _ Hexec) in Hupdate. congruence.
Qed.

(** The theorem at work on the entry of the sample build. *)
Lemma entry_without_directive_not_injected_witness :
  codeOf (finalOutput (generated looseBuild)) (js "main.js")
  = Some (js "const d = require('./dep.jsc');").
Proof.
  destruct (entry_without_directive_not_injected looseOptions sampleEnv
              startProcess (fst looseBuild) looseOutput (generated looseBuild)
              (js "main.js") looseMain looseOutput_wellFormed eq_refl eq_refl
              (or_introl eq_refl) eq_refl eq_refl eq_refl)
    as (_code & Hupdate & Hkeep & _).
  vm_compute in Hupdate. injection Hupdate as <-.
  exact (Hkeep eq_refl eq_refl).
Defined.

End BundleFacts.

(* ================================================================== *)
(** * More properties of src/compiler.ts *)
(* ================================================================== *)

Module ArtifactFacts.
Import JS Compiler Runs.

(** ** [Buffer.copy] *)

Lemma copy_length (source target : Buffer) (targetStart : nat) :
  length (copy source target targetStart) = length target.
Proof.
  unfold copy. rewrite !length_app, !length_firstn, length_skipn. lia.
Qed.

Lemma copy_before (source target : Buffer) (targetStart : nat) :
  firstn targetStart (copy source target targetStart) = firstn targetStart target.
Proof.
  unfold copy.
  destruct (Nat.le_gt_cases targetStart (length target)) as [Hle | Hgt].
  - rewrite firstn_app, length_firstn, Nat.min_l by exact Hle.
    rewrite Nat.sub_diag, firstn_O, app_nil_r.
    apply firstn_all2. rewrite length_firstn. lia.
  - replace (length target - targetStart) with 0 by lia.
    rewrite Nat.min_0_r, firstn_O. cbn [app].
    rewrite (skipn_all2 (n := targetStart + 0) target) by lia.
    rewrite app_nil_r. apply firstn_all2. rewrite length_firstn. lia.
Qed.

Lemma copy_outside (source target : Buffer) (targetStart i : nat) :
  i < targetStart \/ targetStart + length source <= i ->
  nth_error (copy source target targetStart) i = nth_error target i.
Proof.
  intros Hi. unfold copy.
  set (nb := Nat.min (length source) (length target - targetStart)).
  destruct (Nat.lt_ge_cases i targetStart) as [Hlt | Hge].
  - destruct (Nat.lt_ge_cases i (length target)) as [Hin | Hout].
    + rewrite nth_error_app1 by (rewrite length_firstn; lia).
      rewrite nth_error_firstn.
      destruct (Nat.ltb_spec i targetStart); [reflexivity | lia].
    + transitivity (@None Z).
      * apply nth_error_None. rewrite !length_app, !length_firstn, length_skipn. lia.
      * symmetry. apply nth_error_None. exact Hout.
  - assert (Hs : targetStart + length source <= i) by lia.
    destruct (Nat.lt_ge_cases i (length target)) as [Hin | Hout].
    + rewrite nth_error_app2 by (rewrite length_firstn; lia).
      rewrite nth_error_app2 by (rewrite !length_firstn; lia).
      rewrite nth_error_skipn, !length_firstn.
      f_equal. lia.
    + transitivity (@None Z).
      * apply nth_error_None. rewrite !length_app, !length_firstn, length_skipn. lia.
      * symmetry. apply nth_error_None. exact Hout.
Qed.

(** ** What [setFlagHashHeader] leaves of the blob *)

Lemma setFlagHashHeader_keeps (vm : VM) (p : Process) (buf : Buffer) :
  let patched := snd (setFlagHashHeader vm p buf) in
  length patched = length buf
  /\ firstn 12 patched = firstn 12 buf
  /\ forall i, i < 12 \/ 16 <= i -> nth_error patched i = nth_error buf i.
Proof.
  assert (Hcopy : forall dummy,
             let patched := copy (subarray dummy 12 16) buf 12 in
             length patched = length buf
             /\ firstn 12 patched = firstn 12 buf
             /\ forall i, i < 12 \/ 16 <= i -> nth_error patched i = nth_error buf i).
  { intros dummy. cbv zeta. split; [apply copy_length |].
    split; [apply copy_before |].
    intros i Hi. apply copy_outside.
    assert (length (subarray dummy 12 16) <= 4).
    { unfold subarray. rewrite length_firstn. lia. }
    lia. }
  unfold setFlagHashHeader, newScript, FLAG_HASH_OFFSET. cbv zeta.
  destruct (dummyBytecode p) as [d |] eqn:Hd; cbn [dummyBytecode].
  - rewrite Hd. destruct (12 + 4 <? length d); cbn [snd]; [apply Hcopy | auto].
  - destruct (vm (scripts p) []) as [d |]; cbn [snd]; [| auto].
    destruct (12 + 4 <? length d); cbn [snd]; [apply Hcopy | auto].
Qed.

Lemma compileToBytecode_blob (vm : VM) (p : Process) (code : jsstring) (blob : Buffer) :
  vm (scripts p) (wrapInModuleWrapper code) = Some blob ->
  exists artifact,
    snd (compileToBytecode vm p code) = Ok artifact
    /\ length artifact = length blob
    /\ (forall i, i < 12 \/ 16 <= i -> at_index artifact i = at_index blob i)
    /\ getSourceHashHeader artifact = getSourceHashHeader blob.
Proof.
  intros Hvm. unfold compileToBytecode, newScript. cbv zeta. rewrite Hvm.
  pose proof (setFlagHashHeader_keeps vm
                (mkProcess (S (scripts p)) (dummyBytecode p)) blob) as H.
  cbv zeta in H.
  destruct (setFlagHashHeader vm (mkProcess (S (scripts p)) (dummyBytecode p)) blob)
    as [p2 patched].
  cbn [snd] in *. destruct H as (Hlen & Hfirst & Hnth).
  exists patched. split; [reflexivity |]. split; [exact Hlen |].
  split; [exact Hnth |].
  unfold getSourceHashHeader, subarray, SOURCE_HASH_OFFSET.
  change (8 + 4 - 8) with 4.
  rewrite !firstn_skipn_comm. change (8 + 4) with 12. now rewrite Hfirst.
Qed.


(** ** The dummy script *)

Lemma setFlagHashHeader_process (vm : VM) (p : Process) (buf : Buffer) :
  fst (setFlagHashHeader vm p buf)
  = match dummyBytecode p with
    | Some _ => p
    | None => mkProcess (S (scripts p)) (vm (scripts p) [])
    end.
Proof.
  unfold setFlagHashHeader, newScript. cbv zeta.
  destruct (dummyBytecode p) as [d |] eqn:Hd.
  - rewrite Hd. now destruct (FLAG_HASH_OFFSET + 4 <? length d).
  - destruct (vm (scripts p) []) as [d |]; cbn [dummyBytecode scripts].
    + now destruct (FLAG_HASH_OFFSET + 4 <? length d).
    + reflexivity.
Qed.

Lemma compileToBytecode_process (vm : VM) (p : Process) (code : jsstring) :
  fst (compileToBytecode vm p code)
  = if returned (snd (compileToBytecode vm p code))
    then match dummyBytecode p with
         | Some _ => mkProcess (S (scripts p)) (dummyBytecode p)
         | None => mkProcess (S (S (scripts p))) (vm (S (scripts p)) [])
         end
    else mkProcess (S (scripts p)) (dummyBytecode p).
Proof.
  unfold compileToBytecode, newScript. cbv zeta.
  destruct (vm (scripts p) (wrapInModuleWrapper code)) as [blob |]; [| reflexivity].
  pose proof (setFlagHashHeader_process vm
                (mkProcess (S (scripts p)) (dummyBytecode p)) blob) as H.
  destruct (setFlagHashHeader vm (mkProcess (S (scripts p)) (dummyBytecode p)) blob)
    as [p2 patched].
  cbn [fst snd returned dummyBytecode scripts] in *. rewrite H.
  now destruct (dummyBytecode p).
Qed.

Lemma compileRun_scripts (vm : VM) (sources : list jsstring) :
  (forall k, vm k [] <> None) ->
  forall p,
    scripts (compileRun vm p sources)
    = scripts p + length sources
      + match dummyBytecode p with
        | Some _ => 0
        | None => if existsb returned (compileAll vm p sources) then 1 else 0
        end.
Proof.
  intros Hempty. induction sources as [| s rest IH]; intros p.
  - cbn. destruct (dummyBytecode p); lia.
  - cbn [compileRun compileAll length].
    pose proof (compileToBytecode_process vm p s) as H.
    destruct (compileToBytecode vm p s) as [p' r] eqn:Hc. cbn [fst snd] in *.
    rewrite IH. cbn [existsb]. subst p'.
    destruct (returned r), (dummyBytecode p) as [d |] eqn:Hd;
      cbn [scripts dummyBytecode orb]; try rewrite Hd; try lia.
    specialize (Hempty (S (scripts p))).
    destruct (vm (S (scripts p)) []); [lia | congruence].
Qed.

(** X2: the empty script behind the flag hash is constructed at most once
    in a process: after the compilation of [n] sources a fresh process has
    constructed [n + 1] scripts when some compilation returned, and [n]
    when all of them threw. *)
Theorem dummy_script_compiled_once (vm : VM) (sources : list jsstring) :
  (forall k, vm k [] <> None) ->
  scripts (compileRun vm startProcess sources)
  = length sources
    + if existsb returned (compileAll vm startProcess sources) then 1 else 0.
Proof.
  intros Hempty. rewrite (compileRun_scripts vm sources Hempty). reflexivity.
Qed.

Lemma dummy_script_compiled_once_witness :
  scripts (compileRun sampleVM startProcess [js "a = 1"; js "b = 2"; js "c = 3"]) = 4.
Proof.
  exact (dummy_script_compiled_once sampleVM [js "a = 1"; js "b = 2"; js "c = 3"]
           CompilerFacts.sampleVM_empty_script).
Defined.

Local Open Scope Z_scope.

Lemma ToInt32_mod (z : Z) : ToInt32 z mod 4294967296 = z mod 4294967296.
Proof.
  unfold ToInt32. change (2 ^ 32) with 4294967296. change (2 ^ 31) with 2147483648.
  rewrite Zminus_mod, Zmod_mod, <- Zminus_mod. f_equal. lia.
Qed.

(** X3: the four bytes of [n], read back as an unsigned number
    ([buffer2Number(b) >>> 0]), give [n] for every [n] below [2^32];
    read back as they are they give a number in the signed 32-bit range. *)
Theorem buffer2Number_unsigned_roundtrip (n : Z) :
  0 <= n < 4294967296 ->
  buffer2Number (encodeLE32 n) mod 4294967296 = n
  /\ -2147483648 <= buffer2Number (encodeLE32 n) < 2147483648.
Proof.
  intros Hn. rewrite (CompilerFacts.buffer2Number_encodeLE32 n Hn). split.
  - rewrite ToInt32_mod. apply Z.mod_small. exact Hn.
  - apply CompilerFacts.ToInt32_range.
Qed.

Lemma buffer2Number_unsigned_roundtrip_witness :
  buffer2Number (encodeLE32 4000000000) mod 4294967296 = 4000000000
  /\ -2147483648 <= buffer2Number (encodeLE32 4000000000) < 2147483648.
Proof.
  apply (buffer2Number_unsigned_roundtrip 4000000000). lia.
Defined.

Local Close Scope Z_scope.

(** X4: the number the loader reads from the source-hash field of a
    compiled artifact is the number the virtual machine wrote there, when
    that number is below [2^31]. *)
Theorem compiled_source_hash_read_back
    (vm : VM) (p : Process) (code : jsstring) (header rest : Buffer) (n : Z) :
  length header = 8 ->
  (0 <= n < 2147483648)%Z ->
  vm (scripts p) (wrapInModuleWrapper code) = Some (header ++ encodeLE32 n ++ rest) ->
  exists artifact,
    snd (compileToBytecode vm p code) = Ok artifact
    /\ buffer2Number (getSourceHashHeader artifact) = n.
Proof.
  intros Hheader Hn Hvm.
  destruct (compileToBytecode_blob vm p code _ Hvm)
    as (artifact & Hok & _ & _ & Hsource).
  exists artifact. split; [exact Hok |]. rewrite Hsource.
  unfold getSourceHashHeader, subarray, SOURCE_HASH_OFFSET.
  rewrite <- Hheader, skipn_app, skipn_all, Nat.sub_diag. cbn [app skipn].
  rewrite Hheader. change (8 + 4 - 8) with (length (encodeLE32 n)).
  rewrite firstn_app, firstn_all, Nat.sub_diag. cbn [firstn]. rewrite app_nil_r.
  apply CompilerFacts.buffer2Number_roundtrip_low. exact Hn.
Qed.

Lemma compiled_source_hash_read_back_witness :
  exists artifact,
    snd (compileToBytecode
           (fun _ src => Some (repeat 0%Z 8 ++ encodeLE32 (Z.of_nat (length src))
                                 ++ repeat 0%Z 20))
           startProcess (js "x = 1")) = Ok artifact
    /\ buffer2Number (getSourceHashHeader artifact) = 71%Z.
Proof.
  apply (compiled_source_hash_read_back
           (fun _ src => Some (repeat 0%Z 8 ++ encodeLE32 (Z.of_nat (length src))
                                 ++ repeat 0%Z 20))
           startProcess (js "x = 1") (repeat 0%Z 8) (repeat 0%Z 20) 71%Z).
  - reflexivity.
  - lia.
  - reflexivity.
Defined.

End ArtifactFacts.

(* ================================================================== *)
(** * The path of the loader *)
(* ================================================================== *)

Module LoaderPathFacts.
Import JS NodePath Utils Segments Plugin.

(** ** [normalizePath] *)

Lemma normalizePath_identity (p : jsstring) :
  noBackslash p = true -> normalizePath p = p.
Proof.
  unfold normalizePath, noBackslash.
  induction p as [| c p IH]; [reflexivity |].
  cbn [map forallb]. intros H. apply andb_true_iff in H as [Hc Hp].
  rewrite (IH Hp). apply negb_true_iff in Hc. now rewrite Hc.
Qed.

(** X5: [normalizePath] keeps the length of a path, leaves no backslash in
    it, changes nothing in a path without backslashes, and applying it
    twice is applying it once. *)
Theorem normalizePath_removes_backslashes (p : jsstring) :
  length (normalizePath p) = length p
  /\ noBackslash (normalizePath p) = true
  /\ (noBackslash p = true -> normalizePath p = p)
  /\ normalizePath (normalizePath p) = normalizePath p.
Proof.
  unfold normalizePath, noBackslash.
  split; [apply length_map |].
  assert (Hno : forallb (fun c => negb (c =? 92)%Z)
                  (map (fun c => if (c =? 92)%Z then 47%Z else c) p) = true).
  { induction p as [| c p IH]; [reflexivity |].
    cbn [map forallb]. rewrite IH, andb_true_r.
    destruct (Z.eqb_spec c 92) as [-> | Hc]; [reflexivity |].
    apply negb_true_iff, Z.eqb_neq. exact Hc. }
  split; [exact Hno |]. split; [apply normalizePath_identity |].
  apply normalizePath_identity. exact Hno.
Qed.

(** ** Paths made of plain segments *)

Lemma plainSegment_parts (seg : jsstring) :
  plainSegment seg = true ->
  str_eqb seg [] = false /\ str_eqb seg [DOT] = false
  /\ str_eqb seg [DOT; DOT] = false /\ slashFree seg = true.
Proof.
  unfold plainSegment. intros H.
  apply andb_true_iff in H as [H Hs]. apply andb_true_iff in H as [H H2].
  apply andb_true_iff in H as [H0 H1].
  apply negb_true_iff in H0, H1, H2. auto.
Qed.

Lemma plainSegment_head (seg : jsstring) :
  plainSegment seg = true ->
  exists c rest, seg = c :: rest /\ (c =? SLASH)%Z = false /\ slashFree rest = true.
Proof.
  intros H. destruct (plainSegment_parts seg H) as (H0 & _ & _ & Hs).
  destruct seg as [| c rest]; [discriminate |].
  cbn [slashFree forallb] in Hs. apply andb_true_iff in Hs as [Hc Hr].
  apply negb_true_iff in Hc. now exists c, rest.
Qed.

Lemma plainSegments_slashFree (segs : list jsstring) :
  forallb plainSegment segs = true -> forallb slashFree segs = true.
Proof.
  induction segs as [| seg segs IH]; [reflexivity |].
  cbn [forallb]. intros H. apply andb_true_iff in H as [Hs Hr].
  rewrite (IH Hr), andb_true_r. now apply plainSegment_parts.
Qed.

Lemma split_plain (seg : jsstring) : slashFree seg = true -> split seg = [seg].
Proof.
  induction seg as [| c seg IH]; [reflexivity |].
  cbn [slashFree forallb split]. intros H. apply andb_true_iff in H as [Hc Hs].
  apply negb_true_iff in Hc. rewrite Hc. now rewrite (IH Hs).
Qed.

Lemma split_app_slash (seg s : jsstring) :
  slashFree seg = true -> split (seg ++ SLASH :: s) = seg :: split s.
Proof.
  induction seg as [| c seg IH].
  - intros _. cbn [app split]. now rewrite Z.eqb_refl.
  - cbn [slashFree forallb app split]. intros H.
    apply andb_true_iff in H as [Hc Hs]. apply negb_true_iff in Hc.
    now rewrite Hc, (IH Hs).
Qed.

Lemma join_cons (seg : jsstring) (rest : list jsstring) :
  rest <> [] -> join (seg :: rest) = seg ++ SLASH :: join rest.
Proof. destruct rest; [congruence | reflexivity]. Qed.

Lemma join_snoc (dirs : list jsstring) (file : jsstring) :
  dirs <> [] -> join (dirs ++ [file]) = join dirs ++ SLASH :: file.
Proof.
  induction dirs as [| d ds IH]; [congruence |]. intros _.
  destruct ds as [| d' ds]; [reflexivity |].
  change ((d :: d' :: ds) ++ [file]) with (d :: ((d' :: ds) ++ [file])).
  rewrite join_cons by (destruct ds; discriminate).
  rewrite IH by discriminate.
  rewrite (join_cons d (d' :: ds)) by discriminate.
  now rewrite <- app_assoc.
Qed.

Lemma split_join (segs : list jsstring) :
  segs <> [] -> forallb slashFree segs = true -> split (join segs) = segs.
Proof.
  induction segs as [| seg rest IH]; [congruence |]. intros _.
  cbn [forallb]. intros H. apply andb_true_iff in H as [Hs Hr].
  destruct rest as [| seg' rest].
  - now apply split_plain.
  - rewrite join_cons by discriminate. rewrite split_app_slash by exact Hs.
    now rewrite IH.
Qed.

Lemma join_plain_head (segs : list jsstring) :
  segs <> [] -> forallb plainSegment segs = true ->
  exists c rest, join segs = c :: rest /\ (c =? SLASH)%Z = false.
Proof.
  destruct segs as [| seg rest]; [congruence |]. intros _.
  cbn [forallb]. intros H. apply andb_true_iff in H as [Hs _].
  destruct (plainSegment_head seg Hs) as (c & tail & -> & Hc & _).
  destruct rest as [| seg' rest].
  - now exists c, tail.
  - rewrite join_cons by discriminate. now exists c, (tail ++ SLASH :: join (seg' :: rest)).
Qed.

(** ** [path.dirname] of such a path *)

Lemma slashFree_rev (s : jsstring) : slashFree (rev s) = slashFree s.
Proof.
  unfold slashFree. induction s as [| c s IH]; [reflexivity |].
  cbn [rev forallb]. rewrite forallb_app, IH. cbn [forallb].
  rewrite andb_true_r. apply andb_comm.
Qed.

Lemma dirnameEnd_plain (s : jsstring) :
  slashFree s = true -> forall matchedSlash, dirnameEnd s matchedSlash = None.
Proof.
  induction s as [| c s IH]; [reflexivity |].
  cbn [slashFree forallb dirnameEnd]. intros H matchedSlash.
  apply andb_true_iff in H as [Hc Hs]. apply negb_true_iff in Hc.
  rewrite Hc. now apply IH.
Qed.

Lemma dirnameEnd_app (s before : jsstring) :
  slashFree s = true -> s <> [] ->
  forall matchedSlash,
    dirnameEnd (s ++ SLASH :: before) matchedSlash = Some (S (length before)).
Proof.
  induction s as [| c s IH]; [congruence |].
  cbn [slashFree forallb]. intros H _ matchedSlash.
  apply andb_true_iff in H as [Hc Hs]. apply negb_true_iff in Hc.
  cbn [app dirnameEnd]. rewrite Hc.
  destruct s as [| c' s].
  - cbn [app dirnameEnd]. now rewrite Z.eqb_refl.
  - apply IH; [exact Hs | discriminate].
Qed.

Lemma dirname_of_file (dirs : list jsstring) (file : jsstring) :
  forallb plainSegment (dirs ++ [file]) = true ->
  dirname (join (dirs ++ [file]))
  = match dirs with
    | [] => [DOT]
    | _ :: _ => join dirs
    end.
Proof.
  rewrite forallb_app. cbn [forallb]. rewrite andb_true_r. intros H.
  apply andb_true_iff in H as [Hdirs Hfile].
  destruct (plainSegment_head file Hfile) as (c & tail & -> & Hc & Htail).
  destruct dirs as [| d ds].
  - cbn [app join]. unfold dirname.
    rewrite dirnameEnd_plain by (rewrite slashFree_rev; exact Htail).
    now rewrite Hc.
  - rewrite join_snoc by discriminate.
    destruct (join_plain_head (d :: ds)) as (c0 & tl & Hjoin & Hc0);
      [discriminate | exact Hdirs |].
    rewrite Hjoin. cbn [app]. unfold dirname.
    rewrite rev_app_distr. cbn [rev]. rewrite <- !app_assoc. cbn [app].
    assert (Hfree : slashFree (rev tail ++ [c]) = true).
    { change (rev tail ++ [c]) with (rev (c :: tail)). rewrite slashFree_rev.
      cbn [slashFree forallb]. fold (slashFree tail). now rewrite Hc, Htail. }
    change (rev tail ++ c :: SLASH :: rev tl)
      with (rev tail ++ [c] ++ SLASH :: rev tl).
    rewrite app_assoc, dirnameEnd_app;
      [| exact Hfree | destruct (rev tail); discriminate].
    rewrite Hc0, length_rev. cbn [andb].
    change (c0 :: tl ++ SLASH :: c :: tail) with ((c0 :: tl) ++ SLASH :: c :: tail).
    change (S (length tl)) with (length (c0 :: tl)).
    rewrite firstn_app, Nat.sub_diag, firstn_all. cbn [firstn]. now rewrite app_nil_r.
Qed.

(** ** [path.resolve] and [path.relative] on them *)

Lemma normalizeSegments_app (a b : list jsstring) :
  forall acc,
    normalizeSegments acc (a ++ b)
    = normalizeSegments (rev (normalizeSegments acc a)) b.
Proof.
  induction a as [| seg a IH]; intros acc.
  - cbn [app normalizeSegments]. now rewrite rev_involutive.
  - cbn [app normalizeSegments].
    destruct (str_eqb seg [] || str_eqb seg [DOT]); [apply IH |].
    destruct (str_eqb seg [DOT; DOT]); apply IH.
Qed.

Lemma normalizeSegments_plain (segs : list jsstring) :
  forallb plainSegment segs = true ->
  forall acc, normalizeSegments acc segs = rev acc ++ segs.
Proof.
  induction segs as [| seg segs IH]; intros H acc.
  - cbn. now rewrite app_nil_r.
  - cbn [forallb] in H. apply andb_true_iff in H as [Hs Hr].
    destruct (plainSegment_parts seg Hs) as (H0 & H1 & H2 & _).
    cbn [normalizeSegments]. rewrite H0, H1, H2. cbn [orb].
    rewrite (IH Hr). cbn [rev]. now rewrite <- app_assoc.
Qed.

Lemma resolve_plain (cwd : jsstring) (segs : list jsstring) :
  segs <> [] -> forallb plainSegment segs = true ->
  resolve cwd (join segs) = normalizeSegments [] (split cwd) ++ segs.
Proof.
  intros Hne Hplain. unfold resolve.
  destruct (join_plain_head segs Hne Hplain) as (c & rest & Hjoin & Hc).
  assert (Hrel : isAbsolute (join segs) = false) by (rewrite Hjoin; exact Hc).
  rewrite Hrel, split_join by (auto using plainSegments_slashFree).
  rewrite normalizeSegments_app, normalizeSegments_plain by exact Hplain.
  now rewrite rev_involutive.
Qed.

Lemma resolve_dot (cwd : jsstring) :
  resolve cwd [DOT] = normalizeSegments [] (split cwd).
Proof.
  unfold resolve. change (isAbsolute [DOT]) with false. cbv iota.
  change (split [DOT]) with [[DOT]].
  rewrite normalizeSegments_app. cbn. now rewrite rev_involutive.
Qed.

Lemma dropCommon_prefix (common a b : list jsstring) :
  dropCommon (common ++ a) (common ++ b) = dropCommon a b.
Proof.
  induction common as [| x common IH]; [reflexivity |].
  cbn [app dropCommon]. now rewrite JSFacts.str_eqb_refl.
Qed.

Lemma relative_from_chunk_directory (cwd loader file : jsstring) (dirs : list jsstring) :
  forallb plainSegment (dirs ++ [file]) = true ->
  plainSegment loader = true ->
  hd [] dirs <> loader ->
  relative cwd (dirname (join (dirs ++ [file]))) loader
  = join (upFrom dirs ++ [loader]).
Proof.
  intros Hplain Hloader Hhd.
  rewrite dirname_of_file by exact Hplain.
  assert (Hto : resolve cwd loader = normalizeSegments [] (split cwd) ++ [loader]).
  { apply (resolve_plain cwd [loader]); [discriminate |].
    cbn [forallb]. now rewrite Hloader. }
  unfold relative. rewrite Hto.
  rewrite forallb_app in Hplain. apply andb_true_iff in Hplain as [Hdirs _].
  destruct dirs as [| d ds].
  - rewrite resolve_dot.
    rewrite <- (app_nil_r (normalizeSegments [] (split cwd))) at 1.
    now rewrite dropCommon_prefix.
  - rewrite resolve_plain by (discriminate || exact Hdirs).
    rewrite dropCommon_prefix. cbn [dropCommon hd] in *.
    apply JSFacts.str_eqb_neq in Hhd. now rewrite Hhd.
Qed.

(** X6: for a chunk file [dirs/file] of plain names, [toRelativePath]
    gives the loader's name after [./] when there is no directory, and
    after one [../] for each directory otherwise, whatever the working
    directory is. *)
Theorem toRelativePath_from_chunk_directory
    (cwd loader file : jsstring) (dirs : list jsstring) :
  forallb plainSegment (dirs ++ [file]) = true ->
  plainSegment loader = true ->
  startsWith loader (js ".") = false ->
  hd [] dirs <> loader ->
  toRelativePath cwd loader (join (dirs ++ [file]))
  = match dirs with
    | [] => js "./" ++ loader
    | _ :: _ => join (upFrom dirs ++ [loader])
    end.
Proof.
  intros Hplain Hloader Hdot Hhd. unfold toRelativePath.
  rewrite relative_from_chunk_directory by assumption.
  destruct dirs as [| d ds].
  - cbn [upFrom map app join]. now rewrite Hdot.
  - cbn [upFrom map app]. rewrite join_cons by (destruct ds; discriminate).
    reflexivity.
Qed.

Lemma toRelativePath_from_chunk_directory_witness :
  toRelativePath (js "/work") (js "bytecode-loader.cjs") (js "dist/chunks/index.js")
  = js "../../bytecode-loader.cjs".
Proof.
  apply (toRelativePath_from_chunk_directory (js "/work") (js "bytecode-loader.cjs")
           (js "index.js") [js "dist"; js "chunks"]).
  - reflexivity.
  - reflexivity.
  - reflexivity.
  - discriminate.
Defined.

Lemma noDollar_join (segs : list jsstring) :
  forallb noDollar segs = true -> noDollar (join segs) = true.
Proof.
  induction segs as [| seg rest IH]; [reflexivity |].
  cbn [forallb]. intros H. apply andb_true_iff in H as [Hs Hr].
  destruct rest as [| seg' rest]; [exact Hs |].
  rewrite join_cons by discriminate. unfold noDollar in *.
  rewrite forallb_app. cbn [forallb]. rewrite Hs. cbn [andb].
  change (negb (SLASH =? 36)%Z) with true. cbn [andb]. now apply IH.
Qed.

Lemma getBytecodeLoaderBlock_plain
    (cwd chunkFileName file : jsstring) (dirs : list jsstring) :
  normalizePath chunkFileName = join (dirs ++ [file]) ->
  forallb plainSegment (dirs ++ [file]) = true ->
  hd [] dirs <> bytecodeModuleLoader ->
  getBytecodeLoaderBlock cwd chunkFileName
  = js "require("
      ++ quoted (match dirs with
                 | [] => js "./bytecode-loader.cjs"
                 | _ :: _ => join (upFrom dirs ++ [bytecodeModuleLoader])
                 end)
      ++ js ");".
Proof.
  intros Hname Hplain Hhd.
  unfold getBytecodeLoaderBlock, toRelativePath. rewrite Hname.
  rewrite relative_from_chunk_directory by (assumption || reflexivity).
  destruct dirs as [| d ds]; [reflexivity |].
  cbn [upFrom map app]. rewrite join_cons by (destruct ds; discriminate).
  unfold quoted. cbn [startsWith app]. rewrite <- !app_assoc. reflexivity.
Qed.

(** X7: the loader block of a chunk file [dirs/file] of plain names,
    written with slashes or backslashes, requires [./bytecode-loader.cjs]
    when there is no directory and one [../] for each directory
    otherwise; it holds no dollar sign, so [String.prototype.replace]
    inserts it as it is. *)
Theorem loader_block_for_chunk_file
    (cwd chunkFileName file : jsstring) (dirs : list jsstring) :
  normalizePath chunkFileName = join (dirs ++ [file]) ->
  forallb plainSegment (dirs ++ [file]) = true ->
  hd [] dirs <> bytecodeModuleLoader ->
  getBytecodeLoaderBlock cwd chunkFileName
  = js "require("
      ++ quoted (match dirs with
                 | [] => js "./bytecode-loader.cjs"
                 | _ :: _ => join (upFrom dirs ++ [bytecodeModuleLoader])
                 end)
      ++ js ");"
  /\ noDollar (getBytecodeLoaderBlock cwd chunkFileName) = true.
Proof.
  intros Hname Hplain Hhd.
  pose proof (getBytecodeLoaderBlock_plain cwd chunkFileName file dirs
                Hname Hplain Hhd) as Hblock.
  split; [exact Hblock |]. rewrite Hblock.
  unfold noDollar, quoted. rewrite !forallb_app.
  apply andb_true_iff. split; [reflexivity |].
  apply andb_true_iff. split; [| reflexivity].
  apply andb_true_iff. split; [reflexivity |].
  apply andb_true_iff. split; [| reflexivity].
  destruct dirs as [| d ds]; [reflexivity |].
  apply noDollar_join. rewrite forallb_app. apply andb_true_iff. split; [| reflexivity].
  unfold upFrom. generalize (d :: ds). intros l.
  induction l as [| x l IH]; [reflexivity |]. cbn [map forallb]. now rewrite IH.
Qed.

Lemma loader_block_for_chunk_file_witness :
  getBytecodeLoaderBlock (js "/work") (js "dist\main.js")
  = js "require(" ++ quoted (js "../bytecode-loader.cjs") ++ js ");"
  /\ noDollar (getBytecodeLoaderBlock (js "/work") (js "dist\main.js")) = true.
Proof.
  apply (loader_block_for_chunk_file (js "/work") (js "dist\main.js")
           (js "main.js") [js "dist"]).
  - reflexivity.
  - reflexivity.
  - discriminate.
Defined.

End LoaderPathFacts.

(* ================================================================== *)
(** * Properties of the output formats and of the hooks *)
(* ================================================================== *)

Module FormatFacts.
Import JS Formats Hooks Plugin.

(** ** Properties of an object *)

Lemma getProperty_setProperty (o : Object) (key : jsstring) (v : PropertyValue) :
  getProperty (setProperty o key v) key = Some v.
Proof.
  induction o as [| [k v'] rest IH]; cbn [setProperty getProperty].
  - now rewrite JSFacts.str_eqb_refl.
  - destruct (str_eqb k key) eqn:Hk; cbn [getProperty]; now rewrite Hk.
Qed.

Lemma getProperty_setProperty_other (o : Object) (key other : jsstring)
    (v : PropertyValue) :
  other <> key ->
  getProperty (setProperty o key v) other = getProperty o other.
Proof.
  intros Hother. induction o as [| [k v'] rest IH]; cbn [setProperty getProperty].
  - assert (H : str_eqb key other = false) by (apply JSFacts.str_eqb_neq; congruence).
    now rewrite H.
  - destruct (str_eqb k key) eqn:Hk; cbn [getProperty].
    + apply JSFacts.str_eqb_eq in Hk. subst k.
      assert (H : str_eqb key other = false) by (apply JSFacts.str_eqb_neq; congruence).
      now rewrite H.
    + now rewrite IH.
Qed.

Lemma formatIs_withFormat (outputs : option Outputs) (format other : jsstring) :
  formatIs (withFormat outputs format) other = str_eqb format other.
Proof. unfold formatIs, withFormat. now rewrite getProperty_setProperty. Qed.

(** ** [resolveBuildOutputs] *)

(** X8: in library mode, for outputs that are not an array,
    [resolveBuildOutputs] returns one output for each library format, in
    order; each carries its format and every other property of the given
    output. *)
Theorem resolveBuildOutputs_expands_formats
    (outputs : option Outputs) (lib : LibraryOptions) :
  notArray outputs = true ->
  exists resolved,
    resolveBuildOutputs outputs (Some lib) = Some (Many resolved)
    /\ length resolved = length (libFormats lib)
    /\ forall i format,
         nth_error (libFormats lib) i = Some format ->
         exists output,
           nth_error resolved i = Some output
           /\ getProperty output FORMAT = Some (StringValue format)
           /\ forall key, key <> FORMAT ->
                getProperty output key
                = match outputs with
                  | Some (Single given) => getProperty given key
                  | _ => None
                  end.
Proof.
  intros Hnot.
  exists (map (fun format => withFormat outputs format) (libFormats lib)).
  split.
  - unfold resolveBuildOutputs, libFormats.
    destruct outputs as [[o | os] |]; [reflexivity | discriminate | reflexivity].
  - split; [apply length_map |].
    intros i format Hi. exists (withFormat outputs format).
    split; [rewrite nth_error_map, Hi; reflexivity |].
    unfold withFormat. split; [apply getProperty_setProperty |].
    intros key Hkey. rewrite getProperty_setProperty_other by exact Hkey.
    destruct outputs as [[o | os] |]; reflexivity.
Qed.

Lemma resolveBuildOutputs_expands_formats_witness :
  exists resolved,
    resolveBuildOutputs (Some (Single [(js "dir", StringValue (js "dist"))]))
      (Some (mkLibrary (Some [js "cjs"; js "es"]))) = Some (Many resolved)
    /\ length resolved = 2
    /\ forall i format,
         nth_error [js "cjs"; js "es"] i = Some format ->
         exists output,
           nth_error resolved i = Some output
           /\ getProperty output FORMAT = Some (StringValue format)
           /\ forall key, key <> FORMAT ->
                getProperty output key
                = getProperty [(js "dir", StringValue (js "dist"))] key.
Proof.
  apply (resolveBuildOutputs_expands_formats
           (Some (Single [(js "dir", StringValue (js "dist"))]))
           (mkLibrary (Some [js "cjs"; js "es"]))).
  reflexivity.
Defined.

(** ** [configResolved] *)

Lemma useInRenderer_In (names : list jsstring) :
  existsb (fun p => str_eqb p RENDERER_PRESET) names = true
  <-> In RENDERER_PRESET names.
Proof.
  rewrite existsb_exists. split.
  - intros (p & Hin & Hp). apply JSFacts.str_eqb_eq in Hp. now subst p.
  - intros Hin. exists RENDERER_PRESET. split; [exact Hin |].
    apply JSFacts.str_eqb_refl.
Qed.

Lemma formatIs_true (output : OutputOptions) (format : jsstring) :
  formatIs output format = true
  <-> getProperty output FORMAT = Some (StringValue format).
Proof.
  unfold formatIs. destruct (getProperty output FORMAT) as [[s | tag] |].
  - rewrite JSFacts.str_eqb_eq. split; congruence.
  - split; discriminate.
  - split; discriminate.
Qed.

Lemma configResolved_cases (config : ResolvedConfig) :
  configResolved false config
  = if existsb (fun p => str_eqb p RENDERER_PRESET) (pluginNames config)
    then Ok (false, [RendererNotSupported])
    else match resolveBuildOutputs (rollupOutput config) (lib config) with
         | None => Ok (false, [])
         | Some _ =>
             match firstOutput config with
             | None => Throws "Cannot read properties of undefined (reading 'format')"
             | Some output =>
                 Ok (formatIs output (js "cjs"),
                     if formatIs output (js "es") then [ESModuleNotSupported] else [])
             end
         end.
Proof.
  unfold configResolved, firstOutput. cbv zeta.
  destruct (existsb (fun p => str_eqb p RENDERER_PRESET) (pluginNames config));
    [reflexivity |].
  destruct (resolveBuildOutputs (rollupOutput config) (lib config)) as [[o | os] |];
    [| | reflexivity].
  - cbn [nth_error negb]. now rewrite andb_true_r.
  - destruct (nth_error os 0); [| reflexivity]. cbn [negb]. now rewrite andb_true_r.
Qed.

(** X9: when [configResolved] returns, the plugin is enabled exactly when
    it was enabled before, or no renderer preset is among the plugins and
    the first resolved output has the format [cjs]; the renderer warning is
    logged exactly for a renderer preset, the module-format warning
    exactly for a first output of format [es], and nothing is logged once
    the plugin is enabled. *)
Theorem configResolved_supported_iff
    (supported : bool) (config : ResolvedConfig)
    (supported' : bool) (warnings : list Warning) :
  configResolved supported config = Ok (supported', warnings) ->
  (supported' = true
   <-> supported = true
       \/ (~ In RENDERER_PRESET (pluginNames config)
           /\ exists output,
                firstOutput config = Some output
                /\ getProperty output FORMAT = Some (StringValue (js "cjs"))))
  /\ (In RendererNotSupported warnings
      <-> supported = false /\ In RENDERER_PRESET (pluginNames config))
  /\ (In ESModuleNotSupported warnings
      <-> supported = false /\ ~ In RENDERER_PRESET (pluginNames config)
          /\ exists output,
               firstOutput config = Some output
               /\ getProperty output FORMAT = Some (StringValue (js "es"))).
Proof.
  destruct supported.
  - cbn. intros [= <- <-]. split; [| split].
    + split; auto.
    + split; [intros [] | intros [H _]; discriminate].
    + split; [intros [] | intros [H _]; discriminate].
  - rewrite configResolved_cases.
    pose proof (useInRenderer_In (pluginNames config)) as Hr.
    destruct (existsb (fun p => str_eqb p RENDERER_PRESET) (pluginNames config)).
    + intros [= <- <-].
      assert (Hin : In RENDERER_PRESET (pluginNames config)) by now apply Hr.
      split; [| split].
      * split; [discriminate |].
        intros [H | [H _]]; [discriminate | contradiction].
      * split; [intros _; now split | intros _; now left].
      * split; [intros [H | []]; discriminate |].
        intros (_ & H & _). contradiction.
    + assert (Hout : ~ In RENDERER_PRESET (pluginNames config)).
      { intros H. apply Hr in H. discriminate. }
      destruct (resolveBuildOutputs (rollupOutput config) (lib config)) eqn:Hres.
      * destruct (firstOutput config) as [output |] eqn:Hfirst; [| discriminate].
        intros [= <- <-]. split; [| split].
        -- rewrite formatIs_true. split.
           ++ intros H. right. split; [exact Hout |]. now exists output.
           ++ intros [H | (_ & o2 & [= <-] & Ho)]; [discriminate | exact Ho].
        -- split.
           ++ destruct (formatIs output (js "es")); cbn; intros H;
                [destruct H as [H | []]; discriminate | contradiction].
           ++ intros [_ H]. contradiction.
        -- split.
           ++ destruct (formatIs output (js "es")) eqn:Hes; cbn; [| contradiction].
              intros _. split; [reflexivity |]. split; [exact Hout |].
              exists output. split; [reflexivity |]. now apply formatIs_true.
           ++ intros (_ & _ & o2 & [= <-] & Ho). apply formatIs_true in Ho.
              rewrite Ho. now left.
      * assert (Hfirst : firstOutput config = None).
        { unfold firstOutput. now rewrite Hres. }
        intros [= <- <-]. split; [| split].
        -- split; [discriminate |].
           intros [H | (_ & o2 & Ho & _)]; [discriminate | congruence].
        -- cbn. split; [contradiction | intros [_ H]; contradiction].
        -- cbn. split; [contradiction |].
           intros (_ & _ & o2 & Ho & _). congruence.
Qed.

Lemma configResolved_supported_iff_witness :
  (true = true
   <-> false = true
       \/ (~ In RENDERER_PRESET [js "vite:bytecode"]
           /\ exists output,
                firstOutput (mkConfig [js "vite:bytecode"]
                               (Some (Single [(FORMAT, StringValue (js "cjs"))])) None)
                = Some output
                /\ getProperty output FORMAT = Some (StringValue (js "cjs"))))
  /\ (In RendererNotSupported []
      <-> false = false /\ In RENDERER_PRESET [js "vite:bytecode"])
  /\ (In ESModuleNotSupported []
      <-> false = false /\ ~ In RENDERER_PRESET [js "vite:bytecode"]
          /\ exists output,
               firstOutput (mkConfig [js "vite:bytecode"]
                              (Some (Single [(FORMAT, StringValue (js "cjs"))])) None)
               = Some output
               /\ getProperty output FORMAT = Some (StringValue (js "es"))).
Proof.
  apply (configResolved_supported_iff false
           (mkConfig [js "vite:bytecode"]
              (Some (Single [(FORMAT, StringValue (js "cjs"))])) None)
           true []).
  reflexivity.
Defined.

(** X10: in library mode, for outputs that are not an array, the format
    the output itself carries is not looked at: the first library format
    decides.  [cjs] enables the plugin, [es] leaves it disabled with a
    warning, any other format leaves it disabled, and without a library
    format the hook throws. *)
Theorem configResolved_first_library_format_decides
    (config : ResolvedConfig) (library : LibraryOptions) :
  lib config = Some library ->
  notArray (rollupOutput config) = true ->
  ~ In RENDERER_PRESET (pluginNames config) ->
  configResolved false config
  = match libFormats library with
    | [] => Throws "Cannot read properties of undefined (reading 'format')"
    | format :: _ =>
        Ok (str_eqb format (js "cjs"),
            if str_eqb format (js "es") then [ESModuleNotSupported] else [])
    end.
Proof.
  intros Hlib Hnot Hout. rewrite configResolved_cases.
  destruct (existsb (fun p => str_eqb p RENDERER_PRESET) (pluginNames config)) eqn:Hr.
  { apply useInRenderer_In in Hr. contradiction. }
  unfold firstOutput. rewrite Hlib.
  assert (Hres : resolveBuildOutputs (rollupOutput config) (Some library)
                 = Some (Many (map (fun format => withFormat (rollupOutput config) format)
                                 (libFormats library)))).
  { unfold resolveBuildOutputs, libFormats.
    destruct (rollupOutput config) as [[o | os] |];
      [reflexivity | discriminate | reflexivity]. }
  rewrite Hres. destruct (libFormats library) as [| format rest]; [reflexivity |].
  cbn [map nth_error]. now rewrite !formatIs_withFormat.
Qed.

Lemma configResolved_first_library_format_decides_witness :
  configResolved false
    (mkConfig [] (Some (Single [(FORMAT, StringValue (js "es"))]))
       (Some (mkLibrary (Some [js "cjs"]))))
  = Ok (true, []).
Proof.
  apply (configResolved_first_library_format_decides
           (mkConfig [] (Some (Single [(FORMAT, StringValue (js "es"))]))
              (Some (mkLibrary (Some [js "cjs"]))))
           (mkLibrary (Some [js "cjs"]))).
  - reflexivity.
  - reflexivity.
  - intros [].
Defined.

(** X11: [configResolved] throws exactly when the plugin is not enabled
    yet, no renderer preset is among the plugins, and there is no first
    output to read the format of: the outputs are an empty array, or the
    build is in library mode with outputs that are not an array and
    without a library format. *)
Theorem configResolved_throws_iff (supported : bool) (config : ResolvedConfig) :
  (exists message, configResolved supported config = Throws message)
  <-> supported = false
      /\ ~ In RENDERER_PRESET (pluginNames config)
      /\ (rollupOutput config = Some (Many [])
          \/ exists library,
               lib config = Some library
               /\ notArray (rollupOutput config) = true
               /\ libFormats library = []).
Proof.
  destruct supported.
  { cbn. split; [intros [m H]; discriminate | intros [H _]; discriminate]. }
  rewrite configResolved_cases.
  pose proof (useInRenderer_In (pluginNames config)) as Hr.
  destruct (existsb (fun p => str_eqb p RENDERER_PRESET) (pluginNames config)).
  { split; [intros [m H]; discriminate |].
    intros (_ & H & _). exfalso. apply H, Hr. reflexivity. }
  assert (Hout : ~ In RENDERER_PRESET (pluginNames config)).
  { intros H. apply Hr in H. discriminate. }
  assert (Hres : resolveBuildOutputs (rollupOutput config) (lib config) = Some (Many [])
                 <-> rollupOutput config = Some (Many [])
                     \/ exists library,
                          lib config = Some library
                          /\ notArray (rollupOutput config) = true
                          /\ libFormats library = []).
  { unfold resolveBuildOutputs, notArray.
    destruct (lib config) as [library |] eqn:Hlib.
    - fold (libFormats library).
      destruct (rollupOutput config) as [[o | os] |] eqn:Hro.
      + split.
        * intros [= H]. apply map_eq_nil in H. right. now exists library.
        * intros [H | (l & [= <-] & _ & H)]; [discriminate | now rewrite H].
      + split; [now left |].
        intros [H | (l & _ & H & _)]; [exact H | discriminate].
      + split.
        * intros [= H]. apply map_eq_nil in H. right. now exists library.
        * intros [H | (l & [= <-] & _ & H)]; [discriminate | now rewrite H].
    - split; [now left |].
      intros [H | (l & H & _)]; [exact H | discriminate]. }
  rewrite <- Hres. unfold firstOutput.
  destruct (resolveBuildOutputs (rollupOutput config) (lib config))
    as [[o | [| o os]] |]; cbn [nth_error].
  - split; [intros [m H]; discriminate | intros (_ & _ & H); discriminate].
  - split; [now intros _ | intros _; eexists; reflexivity].
  - split; [intros [m H]; discriminate | intros (_ & _ & H); discriminate].
  - split; [intros [m H]; discriminate | intros (_ & _ & H); discriminate].
Qed.

(** ** [detectModuleFormat] *)

Lemma endsInWord_cons (c : Z) (text : jsstring) :
  endsInWord (c :: text)
  = match text with
    | [] => isWordChar c
    | _ :: _ => endsInWord text
    end.
Proof.
  unfold endsInWord. cbn [rev].
  destruct text as [| d text]; [reflexivity |].
  destruct (rev (d :: text)) as [| x xs] eqn:Hrev; [| reflexivity].
  apply (f_equal (@length Z)) in Hrev. rewrite length_rev in Hrev. discriminate.
Qed.

Lemma keywordHere_parts (text : jsstring) :
  keywordHere text = true
  <-> exists keyword space after,
        text = keyword ++ space :: after
        /\ (keyword = IMPORT \/ keyword = EXPORT)
        /\ Text.isWhiteSpace space = true.
Proof.
  unfold keywordHere. split.
  - intros H. apply andb_true_iff in H as [Hk Hs].
    destruct (nth_error text 6) as [space |] eqn:Hnth; [| discriminate].
    assert (Hskip : skipn 6 text = space :: skipn 7 text).
    { clear Hk Hs.
      do 6 (destruct text as [| ? text]; [discriminate |]).
      destruct text as [| ? text]; [discriminate |].
      cbn in Hnth. injection Hnth as ->. reflexivity. }
    apply orb_true_iff in Hk as [Hk | Hk];
      apply JSFacts.startsWith_prefix in Hk.
    + exists IMPORT, space, (skipn 7 text).
      split; [| split; [now left | exact Hs]].
      rewrite Hk at 1. change (length IMPORT) with 6. now rewrite Hskip.
    + exists EXPORT, space, (skipn 7 text).
      split; [| split; [now right | exact Hs]].
      rewrite Hk at 1. change (length EXPORT) with 6. now rewrite Hskip.
  - intros (keyword & space & after & -> & Hk & Hs).
    destruct Hk as [-> | ->]; cbn; exact Hs.
Qed.

Lemma esmPattern_test_true (text : jsstring) :
  forall wordBefore,
    esmPattern_test wordBefore text = true
    <-> exists before keyword space after,
          text = before ++ keyword ++ space :: after
          /\ (keyword = IMPORT \/ keyword = EXPORT)
          /\ Text.isWhiteSpace space = true
          /\ match before with
             | [] => wordBefore
             | _ :: _ => endsInWord before
             end = false.
Proof.
  induction text as [| c text IH]; intros wordBefore.
  - cbn [esmPattern_test]. rewrite orb_false_r. split.
    + intros H. apply andb_true_iff in H as [_ H]. discriminate.
    + intros (before & keyword & space & after & H & Hk & _).
      destruct before; destruct Hk as [-> | ->]; discriminate.
  - cbn [esmPattern_test]. rewrite orb_true_iff, andb_true_iff, negb_true_iff.
    rewrite keywordHere_parts, IH. split.
    + intros [[Hw (keyword & space & after & Htext & Hk & Hs)]
             | (before & keyword & space & after & Htext & Hk & Hs & Hb)].
      * exists [], keyword, space, after. auto.
      * exists (c :: before), keyword, space, after.
        rewrite Htext. repeat split; try assumption.
        rewrite endsInWord_cons. exact Hb.
    + intros (before & keyword & space & after & Htext & Hk & Hs & Hb).
      destruct before as [| b before].
      * left. split; [exact Hb |]. now exists keyword, space, after.
      * right. cbn [app] in Htext. injection Htext as <- ->.
        exists before, keyword, space, after. repeat split; try assumption.
        rewrite endsInWord_cons in Hb. exact Hb.
Qed.

(** X12: [detectModuleFormat] answers [esm] exactly when the code holds
    [import] or [export] followed by a white space and not preceded by a
    letter, a digit or an underscore; comments and strings count like any
    other text. *)
Theorem detectModuleFormat_esm_iff (code : jsstring) :
  detectModuleFormat code = ESM
  <-> exists before keyword space after,
        code = before ++ keyword ++ space :: after
        /\ (keyword = IMPORT \/ keyword = EXPORT)
        /\ Text.isWhiteSpace space = true
        /\ endsInWord before = false.
Proof.
  unfold detectModuleFormat.
  pose proof (esmPattern_test_true code false) as H.
  destruct (esmPattern_test false code).
  - split; [intros _ | reflexivity].
    destruct (proj1 H eq_refl) as (before & keyword & space & after & H1 & H2 & H3 & H4).
    exists before, keyword, space, after. repeat split; try assumption.
    now destruct before.
  - split; [discriminate |].
    intros (before & keyword & space & after & H1 & H2 & H3 & H4).
    assert (Hfalse : false = true); [| discriminate].
    apply H. exists before, keyword, space, after.
    repeat split; try assumption. now destruct before.
Qed.

(** ** [writeBundle] *)

Lemma endsWith_snoc (s suffix : jsstring) (c : Z) :
  endsWith (s ++ [c]) (suffix ++ [c]) = endsWith s suffix.
Proof.
  unfold endsWith. rewrite !rev_app_distr. cbn [rev app startsWith].
  now rewrite Z.eqb_refl.
Qed.

Lemma artifact_name_test (key : jsstring) :
  bytecodeChunkExtensionRE_test (key ++ js "c")
  = endsWith key (js ".js") || endsWith key (js ".cjs").
Proof.
  unfold bytecodeChunkExtensionRE_test.
  change (js ".jsc") with (js ".js" ++ js "c").
  change (js ".cjsc") with (js ".cjs" ++ js "c").
  change (js "c") with [99%Z]. now rewrite !endsWith_snoc.
Qed.

(** X13: [writeBundle] logs nothing for a plugin that is not enabled;
    otherwise, of the artifacts [key + "c"] written for the chunks
    [compiled], it counts those whose chunk key ends in [.js] or [.cjs],
    beside the other keys that end in [.jsc] or [.cjsc]. *)
Theorem writeBundle_counts_js_artifacts (others compiled : list jsstring) :
  writeBundle false (others ++ map (fun key => key ++ js "c") compiled) = None
  /\ writeBundle true (others ++ map (fun key => key ++ js "c") compiled)
     = Some (length (filter bytecodeChunkExtensionRE_test others)
             + length (filter (fun key => endsWith key (js ".js")
                                          || endsWith key (js ".cjs")) compiled)).
Proof.
  split; [reflexivity |]. unfold writeBundle.
  rewrite filter_app, length_app. do 2 f_equal.
  induction compiled as [| key compiled IH]; [reflexivity |].
  cbn [map filter]. rewrite artifact_name_test.
  destruct (endsWith key (js ".js") || endsWith key (js ".cjs"));
    cbn [length]; now rewrite IH.
Qed.

End FormatFacts.

(* ================================================================== *)
(** * More properties of src/transforms.ts *)
(* ================================================================== *)

Module LiteralFacts.
Import JS Transforms Literals Plugin Hooks.

(** ** String literals *)

Lemma includes_nil_false (ps : list jsstring) (value : jsstring) :
  includes ps value = true -> (0 <? length ps)%nat = true.
Proof. destruct ps; [discriminate | reflexivity]. Qed.

Lemma created_mentions (ps : list jsstring) (value : jsstring) :
  mentions ps (createFromCharCodeFunction value) = false.
Proof.
  unfold createFromCharCodeFunction. cbn [mentions existsb orb].
  rewrite orb_false_r.
  induction (map charCodeAt0 (arrayFrom value)) as [| c codes IH]; [reflexivity |].
  cbn [map existsb mentions orb]. exact IH.
Qed.

(** X14: a string literal is replaced exactly when it is one of the
    protected strings and does not sit at one of the three skipped
    positions; what replaces it is the call on its character codes, which
    holds no string literal; any other string literal stays as it is. *)
Theorem string_literal_replaced_iff_protected
    (ps : list jsstring) (pos : Position) (value : jsstring) (fuel : nat) :
  traverse (6 + fuel) (plugins ps) pos (StringLiteral value)
  = Some (if negb (skipped pos) && includes ps value
          then createFromCharCodeFunction value
          else StringLiteral value)
  /\ mentions ps (createFromCharCodeFunction value) = false.
Proof.
  split; [| apply created_mentions].
  change (6 + fuel) with (S (5 + fuel)).
  rewrite TransformsFacts.traverse_S, TransformsFacts.enter_plugins.
  destruct (includes ps value) eqn:Hin.
  - rewrite (includes_nil_false ps value Hin). cbn [andb].
    rewrite andb_true_r.
    destruct (negb (skipped pos)); [| reflexivity].
    apply TransformsFacts.traverse_created.
  - now rewrite !andb_false_r.
Qed.

(** ** Programs the transformation leaves alone *)

Lemma visitProperties_identity (f : Position -> Expr -> option Expr)
    (props : list ObjectProperty) :
  (forall k c v, In (Property k c v) props ->
     forall pos, f pos k = Some k /\ f pos v = Some v) ->
  visitProperties f props = Some props.
Proof.
  induction props as [| [k c v] rest IH]; intros H; [reflexivity |].
  cbn [visitProperties].
  destruct (H k c v (or_introl eq_refl) (PropertyKey c)) as [Hk _].
  destruct (H k c v (or_introl eq_refl) PropertyValue) as [_ Hv].
  rewrite Hk, Hv, IH; [reflexivity |].
  intros k' c' v' Hin. apply (H k' c' v'). now right.
Qed.

Lemma existsb_false_In {A : Type} (f : A -> bool) (l : list A) (x : A) :
  existsb f l = false -> In x l -> f x = false.
Proof.
  intros H Hin. destruct (f x) eqn:Hx; [| reflexivity].
  rewrite <- H. symmetry. apply existsb_exists. now exists x.
Qed.

Lemma forallb_true_In {A : Type} (f : A -> bool) (l : list A) (x : A) :
  forallb f l = true -> In x l -> f x = true.
Proof. intros H. now apply forallb_forall. Qed.

Lemma traverse_identity (ps : list jsstring) (fuel : nat) :
  forall pos node,
    nesting node <= fuel ->
    noTemplateLiteral node = true ->
    mentions ps node = false ->
    traverse fuel (plugins ps) pos node = Some node.
Proof.
  induction fuel as [| fuel IH]; intros pos node Hfuel Hno Hm.
  - pose proof (TransformsFacts.nesting_positive node). lia.
  - rewrite TransformsFacts.traverse_S, TransformsFacts.enter_plugins.
    destruct node; cbn [nesting] in Hfuel; cbn [noTemplateLiteral] in Hno;
      cbn [mentions] in Hm; cbv zeta.
    + reflexivity.
    + now rewrite Hm, andb_false_r.
    + reflexivity.
    + discriminate.
    + apply andb_true_iff in Hno as [Hn1 Hn2].
      apply orb_false_iff in Hm as [Hm1 Hm2].
      rewrite (IH Elsewhere node1), (IH Elsewhere node2) by (assumption || lia).
      reflexivity.
    + apply andb_true_iff in Hno as [Hn1 Hn2].
      apply orb_false_iff in Hm as [Hm1 Hm2].
      rewrite (IH MemberObject node1), (IH (MemberProperty computed) node2)
        by (assumption || lia).
      reflexivity.
    + apply andb_true_iff in Hno as [Hn1 Hn2].
      apply orb_false_iff in Hm as [Hm1 Hm2].
      rewrite (IH Callee node) by (assumption || lia).
      rewrite TransformsFacts.visitAll_identity; [reflexivity |].
      intros n Hn pos'. pose proof (TransformsFacts.nesting_In n _ Hn).
      apply IH; [lia | |].
      * exact (forallb_true_In _ _ _ Hn2 Hn).
      * exact (existsb_false_In _ _ _ Hm2 Hn).
    + rewrite visitProperties_identity; [reflexivity |].
      intros k c v Hin pos'.
      pose proof (TransformsFacts.nesting_In_property k v c _ Hin).
      pose proof (forallb_true_In _ _ _ Hno Hin) as Hkv. cbv beta iota in Hkv.
      pose proof (existsb_false_In _ _ _ Hm Hin) as Mkv. cbv beta iota in Mkv.
      apply andb_true_iff in Hkv as [Hk Hv].
      apply orb_false_iff in Mkv as [Mk Mv].
      split; apply IH; (assumption || lia).
    + rewrite TransformsFacts.visitAll_identity; [reflexivity |].
      intros n Hn pos'. pose proof (TransformsFacts.nesting_In n _ Hn).
      apply IH; [lia | |].
      * exact (forallb_true_In _ _ _ Hno Hn).
      * exact (existsb_false_In _ _ _ Hm Hn).
    + rewrite (IH Elsewhere node) by (assumption || lia). reflexivity.
    + apply andb_true_iff in Hno as [Hn1 Hn2].
      apply orb_false_iff in Hm as [Hm1 Hm2].
      rewrite TransformsFacts.visitAll_identity.
      * rewrite (IH Elsewhere node) by (assumption || lia). reflexivity.
      * intros n Hn pos'. pose proof (TransformsFacts.nesting_In n _ Hn).
        apply IH; [lia | |].
        -- exact (forallb_true_In _ _ _ Hn1 Hn).
        -- exact (existsb_false_In _ _ _ Hm1 Hn).
    + apply andb_true_iff in Hno as [Hn1 Hn2].
      apply orb_false_iff in Hm as [Hm1 Hm2].
      rewrite (IH MemberObject node1), (IH (OptionalMemberProperty computed) node2)
        by (assumption || lia).
      reflexivity.
    + apply andb_true_iff in Hno as [Hn1 Hn2].
      apply orb_false_iff in Hm as [Hm1 Hm2].
      rewrite (IH Callee node) by (assumption || lia).
      rewrite TransformsFacts.visitAll_identity; [reflexivity |].
      intros n Hn pos'. pose proof (TransformsFacts.nesting_In n _ Hn).
      apply IH; [lia | |].
      * exact (forallb_true_In _ _ _ Hn2 Hn).
      * exact (existsb_false_In _ _ _ Hm2 Hn).
Qed.

(** X15: a program without template literals in which no string literal
    is a protected string goes through [transformCode] unchanged. *)
Theorem transformCode_keeps_plain_programs (code : Program) (ps : list jsstring) :
  forallb (fun s => noTemplateLiteral (expressionOf s)
                    && negb (mentions ps (expressionOf s))) code = true ->
  transformCode code ps = Some code.
Proof.
  induction code as [| s rest IH]; [reflexivity |].
  cbn [forallb transformCode]. intros H.
  apply andb_true_iff in H as [Hs Hrest].
  apply andb_true_iff in Hs as [Hno Hm]. apply negb_true_iff in Hm.
  rewrite (IH Hrest).
  destruct s as [e | kind id init]; cbn [expressionOf] in *;
    cbn [transformStatement]; unfold transformExpr;
    now rewrite traverse_identity by (assumption || lia).
Qed.

Lemma transformCode_keeps_plain_programs_witness :
  transformCode
    [VariableDeclaration (js "const") (js "x")
       (CallExpression (Identifier (js "require")) [StringLiteral (js "fs")])]
    [js "SECRET"]
  = Some
      [VariableDeclaration (js "const") (js "x")
         (CallExpression (Identifier (js "require")) [StringLiteral (js "fs")])].
Proof.
  apply (transformCode_keeps_plain_programs
           [VariableDeclaration (js "const") (js "x")
              (CallExpression (Identifier (js "require")) [StringLiteral (js "fs")])]
           [js "SECRET"]).
  reflexivity.
Defined.

(** ** [renderChunk] *)

Lemma transformCode_result (code : Program) (ps : list jsstring) :
  exists code',
    transformCode code ps = Some code'
    /\ length code' = length code
    /\ forallb (fun s => noTemplateLiteral (expressionOf s)) code' = true.
Proof.
  induction code as [| s rest IH].
  - now exists [].
  - destruct IH as (rest' & Hrest & Hlen & Hno).
    cbn [transformCode]. rewrite Hrest.
    destruct s as [e | kind id init]; cbn [transformStatement];
      destruct (TransformsFacts.transformExpr_noTemplateLiteral ps e)
        as (e' & He & Hne) || 
      destruct (TransformsFacts.transformExpr_noTemplateLiteral ps init)
        as (e' & He & Hne);
      rewrite He; cbn [option_map];
      eexists; (split; [reflexivity |]); cbn [length forallb expressionOf];
      now rewrite Hlen, Hne, Hno.
Qed.


(** ** Template literals and the concatenation that replaces them *)

Lemma eval_pieces (quasis : list jsstring) :
  forall expressions values,
    evalAll expressions = Some values ->
    exists parts,
      evalAll (pieces quasis expressions) = Some parts
      /\ templateString quasis values = concat (map ToString parts).
Proof.
  induction quasis as [| quasi quasis IH]; intros expressions values Hvalues.
  - now exists [].
  - cbn [pieces templateString].
    destruct expressions as [| expr expressions].
    + cbn in Hvalues. injection Hvalues as <-.
      destruct (IH [] [] eq_refl) as (parts & Hparts & Hstring).
      destruct quasi as [| c quasi]; cbn [truthy app].
      * exists parts. split; [exact Hparts |]. exact Hstring.
      * exists (VString (c :: quasi) :: parts).
        cbn [evalAll eval]. rewrite Hparts. split; [reflexivity |].
        cbn [map concat ToString]. now rewrite Hstring.
    + cbn [evalAll] in Hvalues.
      destruct (eval expr) as [v |] eqn:Hv; [| discriminate].
      destruct (evalAll expressions) as [vs |] eqn:Hvs; [| discriminate].
      injection Hvalues as <-.
      destruct (IH expressions vs Hvs) as (parts & Hparts & Hstring).
      destruct quasi as [| c quasi]; cbn [truthy app].
      * exists (v :: parts). cbn [evalAll]. rewrite Hv, Hparts.
        split; [reflexivity |]. cbn [map concat]. now rewrite Hstring.
      * exists (VString (c :: quasi) :: v :: parts).
        cbn [evalAll eval]. rewrite Hv, Hparts. split; [reflexivity |].
        cbn [map concat ToString]. now rewrite Hstring.
Qed.

Lemma appendPiece_string (parts : list Expr) :
  forall r s values,
    eval r = Some (VString s) ->
    evalAll parts = Some values ->
    exists r',
      fold_left appendPiece parts (Some r) = Some r'
      /\ eval r' = Some (VString (s ++ concat (map ToString values))).
Proof.
  induction parts as [| part parts IH]; intros r s values Hr Hvalues.
  - cbn in Hvalues. injection Hvalues as <-. exists r.
    cbn. now rewrite app_nil_r.
  - cbn [evalAll] in Hvalues.
    destruct (eval part) as [v |] eqn:Hv; [| discriminate].
    destruct (evalAll parts) as [vs |] eqn:Hvs; [| discriminate].
    injection Hvalues as <-. cbn [fold_left appendPiece].
    destruct (IH (BinaryExpression (js "+") r part) (s ++ ToString v) vs)
      as (r' & Hfold & Heval); [| reflexivity |].
    + rewrite TransformsFacts.eval_plus, Hr, Hv. reflexivity.
    + exists r'. split; [exact Hfold |]. rewrite Heval.
      cbn [map concat]. now rewrite <- app_assoc.
Qed.

(** X17: the concatenation that replaces a template literal evaluates to
    the same string as the literal when the literal has no part at all,
    or when the first or the second of its parts (its non-empty
    substrings and its interpolations, in order) evaluates to a string. *)
Theorem concatenation_equivalent_with_leading_string
    (quasis : list jsstring) (expressions : list Expr) (values : list Value) :
  evalAll expressions = Some values ->
  leadingString (pieces quasis expressions) = true ->
  eval (concatResult quasis expressions)
  = eval (TemplateLiteral quasis expressions).
Proof.
  intros Hvalues Hlead.
  rewrite TransformsFacts.eval_TemplateLiteral, Hvalues. cbn [option_map].
  destruct (eval_pieces quasis expressions values Hvalues)
    as (parts & Hparts & ->).
  unfold concatResult. rewrite TransformsFacts.concatLoop_fold.
  destruct (pieces quasis expressions) as [| first rest].
  - cbn in Hparts. injection Hparts as <-. reflexivity.
  - cbn [evalAll] in Hparts.
    destruct (eval first) as [v1 |] eqn:H1; [| discriminate].
    destruct (evalAll rest) as [vs |] eqn:Hrest; [| discriminate].
    injection Hparts as <-. cbn [fold_left appendPiece].
    destruct v1 as [s1 | n1].
    + destruct (appendPiece_string rest first s1 vs H1 Hrest) as (r' & -> & ->).
      reflexivity.
    + unfold leadingString, isString in Hlead. rewrite H1 in Hlead.
      cbn [orb] in Hlead.
      destruct rest as [| second rest]; [discriminate |].
      cbn [evalAll] in Hrest.
      destruct (eval second) as [[s2 | n2] |] eqn:H2; try discriminate.
      destruct (evalAll rest) as [vs2 |] eqn:Hrest2; [| discriminate].
      injection Hrest as <-. cbn [fold_left appendPiece].
      destruct (appendPiece_string rest
                  (BinaryExpression (js "+") first second)
                  (ToString (VNumber n1) ++ s2) vs2) as (r' & -> & ->).
      * rewrite TransformsFacts.eval_plus, H1, H2. reflexivity.
      * exact Hrest2.
      * cbn [map concat ToString]. now rewrite <- app_assoc.
Qed.

Lemma concatenation_equivalent_with_leading_string_witness :
  eval (concatResult [[]; js " items"; []] [NumericLiteral 3; NumericLiteral 4])
  = eval (TemplateLiteral [[]; js " items"; []] [NumericLiteral 3; NumericLiteral 4]).
Proof.
  apply (concatenation_equivalent_with_leading_string
           [[]; js " items"; []] [NumericLiteral 3; NumericLiteral 4]
           [VNumber 3; VNumber 4]).
  - reflexivity.
  - reflexivity.
Defined.

End LiteralFacts.

(* ================================================================== *)
(** * What the transformation leaves *)
(* ================================================================== *)

Module SettledFacts.
Import JS Transforms Literals Settled.

Lemma settled_call (ps : list jsstring) (pos : Position) (callee : Expr)
    (args : list Expr) :
  settled ps pos (CallExpression callee args)
  = settled ps Callee callee && settledAll ps (fun i => Argument callee i) 0 args.
Proof.
  cbn [settled]. f_equal. generalize 0.
  induction args as [| n rest IH]; intros i; [reflexivity |].
  cbn [settledAll]. now rewrite IH.
Qed.

Lemma settled_optional_call (ps : list jsstring) (pos : Position) (callee : Expr)
    (args : list Expr) :
  settled ps pos (OptionalCallExpression callee args)
  = settled ps Callee callee
    && settledAll ps (fun i => OptionalArgument callee i) 0 args.
Proof.
  cbn [settled]. f_equal. generalize 0.
  induction args as [| n rest IH]; intros i; [reflexivity |].
  cbn [settledAll]. now rewrite IH.
Qed.

Lemma settledAll_constant (ps : list jsstring) (pos : Position) (nodes : list Expr) :
  forall i, settledAll ps (fun _ => pos) i nodes = forallb (settled ps pos) nodes.
Proof.
  induction nodes as [| n rest IH]; intros i; [reflexivity |].
  cbn [settledAll forallb]. now rewrite IH.
Qed.

(** ** What the traversal returns is settled *)

Lemma visitAll_settled (ps : list jsstring) (f : Position -> Expr -> option Expr)
    (at_ : nat -> Position) (nodes : list Expr) :
  (forall pos n n', f pos n = Some n' -> settled ps pos n' = true) ->
  forall i nodes',
    visitAll f at_ i nodes = Some nodes' -> settledAll ps at_ i nodes' = true.
Proof.
  intros Hf. induction nodes as [| n rest IH]; intros i nodes' H; cbn [visitAll] in H.
  - injection H as <-. reflexivity.
  - destruct (f (at_ i) n) as [n' |] eqn:Hn; [| discriminate].
    destruct (visitAll f at_ (S i) rest) as [rest' |] eqn:Hrest; [| discriminate].
    injection H as <-. cbn [settledAll].
    now rewrite (Hf _ _ _ Hn), (IH _ _ Hrest).
Qed.

Lemma visitProperties_settled (ps : list jsstring)
    (f : Position -> Expr -> option Expr) (props : list ObjectProperty) :
  (forall pos n n', f pos n = Some n' -> settled ps pos n' = true) ->
  forall props',
    visitProperties f props = Some props' ->
    forallb (fun p => match p with
                      | Property k computed v =>
                          settled ps (PropertyKey computed) k
                          && settled ps PropertyValue v
                      end) props' = true.
Proof.
  intros Hf. induction props as [| [k c v] rest IH]; intros props' H;
    cbn [visitProperties] in H.
  - injection H as <-. reflexivity.
  - destruct (f (PropertyKey c) k) as [k' |] eqn:Hk; [| discriminate].
    destruct (f PropertyValue v) as [v' |] eqn:Hv; [| discriminate].
    destruct (visitProperties f rest) as [rest' |] eqn:Hrest; [| discriminate].
    injection H as <-. cbn [forallb].
    now rewrite (Hf _ _ _ Hk), (Hf _ _ _ Hv), (IH _ eq_refl).
Qed.

Lemma traverse_settled (ps : list jsstring) (fuel : nat) :
  forall pos node node',
    traverse fuel (plugins ps) pos node = Some node' ->
    settled ps pos node' = true.
Proof.
  induction fuel as [| fuel IH]; intros pos node node' H; [discriminate |].
  rewrite TransformsFacts.traverse_S, TransformsFacts.enter_plugins in H.
  destruct node; cbv zeta in H.
  - injection H as <-. reflexivity.
  - destruct ((0 <? length ps)%nat && negb (skipped pos) && includes ps value) eqn:Hc.
    + exact (IH _ _ _ H).
    + injection H as <-. cbn [settled].
      destruct (skipped pos); [reflexivity |].
      destruct (includes ps value) eqn:Hin; [| reflexivity].
      rewrite (LiteralFacts.includes_nil_false ps value Hin) in Hc. discriminate.
  - injection H as <-. reflexivity.
  - exact (IH _ _ _ H).
  - destruct (traverse fuel (plugins ps) Elsewhere node1) as [l' |] eqn:E1;
      [| discriminate].
    destruct (traverse fuel (plugins ps) Elsewhere node2) as [r' |] eqn:E2;
      [| discriminate].
    injection H as <-. cbn [settled]. now rewrite (IH _ _ _ E1), (IH _ _ _ E2).
  - destruct (traverse fuel (plugins ps) MemberObject node1) as [o' |] eqn:E1;
      [| discriminate].
    destruct (traverse fuel (plugins ps) (MemberProperty computed) node2)
      as [p' |] eqn:E2; [| discriminate].
    injection H as <-. cbn [settled]. now rewrite (IH _ _ _ E1), (IH _ _ _ E2).
  - destruct (traverse fuel (plugins ps) Callee node) as [callee' |] eqn:E1;
      [| discriminate].
    destruct (visitAll (traverse fuel (plugins ps))
                (fun i => Argument callee' i) 0 arguments) as [args' |] eqn:E2;
      [| discriminate].
    injection H as <-. rewrite settled_call, (IH _ _ _ E1).
    exact (visitAll_settled ps _ _ _ IH _ _ E2).
  - destruct (visitProperties (traverse fuel (plugins ps)) properties)
      as [props' |] eqn:E1; [| discriminate].
    injection H as <-. cbn [settled].
    exact (visitProperties_settled ps _ _ IH _ E1).
  - destruct (visitAll (traverse fuel (plugins ps)) (fun _ => Elsewhere) 0 elements)
      as [elements' |] eqn:E1; [| discriminate].
    injection H as <-. cbn [settled].
    rewrite <- (settledAll_constant ps Elsewhere elements' 0).
    exact (visitAll_settled ps _ _ _ IH _ _ E1).
  - destruct (traverse fuel (plugins ps) Elsewhere node) as [a' |] eqn:E1;
      [| discriminate].
    injection H as <-. cbn [settled]. exact (IH _ _ _ E1).
  - destruct (visitAll (traverse fuel (plugins ps)) (fun _ => Elsewhere) 0 params)
      as [params' |] eqn:E1; [| discriminate].
    destruct (traverse fuel (plugins ps) Elsewhere node) as [e' |] eqn:E2;
      [| discriminate].
    injection H as <-. cbn [settled].
    rewrite <- (settledAll_constant ps Elsewhere params' 0).
    now rewrite (visitAll_settled ps _ _ _ IH _ _ E1), (IH _ _ _ E2).
  - destruct (traverse fuel (plugins ps) MemberObject node1) as [o' |] eqn:E1;
      [| discriminate].
    destruct (traverse fuel (plugins ps) (OptionalMemberProperty computed) node2)
      as [p' |] eqn:E2; [| discriminate].
    injection H as <-. cbn [settled]. now rewrite (IH _ _ _ E1), (IH _ _ _ E2).
  - destruct (traverse fuel (plugins ps) Callee node) as [callee' |] eqn:E1;
      [| discriminate].
    destruct (visitAll (traverse fuel (plugins ps))
                (fun i => OptionalArgument callee' i) 0 arguments) as [args' |] eqn:E2;
      [| discriminate].
    injection H as <-. rewrite settled_optional_call, (IH _ _ _ E1).
    exact (visitAll_settled ps _ _ _ IH _ _ E2).
Qed.

(** ** A settled expression is left as it is *)

Lemma visitAll_kept (ps : list jsstring) (f : Position -> Expr -> option Expr)
    (at_ : nat -> Position) (nodes : list Expr) :
  (forall n, In n nodes -> forall pos, settled ps pos n = true -> f pos n = Some n) ->
  forall i, settledAll ps at_ i nodes = true -> visitAll f at_ i nodes = Some nodes.
Proof.
  induction nodes as [| n rest IH]; intros Hf i H; [reflexivity |].
  cbn [settledAll] in H. apply andb_true_iff in H as [Hn Hrest].
  cbn [visitAll]. rewrite (Hf n (or_introl eq_refl) _ Hn).
  rewrite IH; [reflexivity | | exact Hrest].
  intros n' Hin. apply Hf. now right.
Qed.

Lemma visitProperties_kept (ps : list jsstring)
    (f : Position -> Expr -> option Expr) (props : list ObjectProperty) :
  (forall k c v, In (Property k c v) props ->
     forall pos, (settled ps pos k = true -> f pos k = Some k)
                 /\ (settled ps pos v = true -> f pos v = Some v)) ->
  forallb (fun p => match p with
                    | Property k computed v =>
                        settled ps (PropertyKey computed) k
                        && settled ps PropertyValue v
                    end) props = true ->
  visitProperties f props = Some props.
Proof.
  induction props as [| [k c v] rest IH]; intros Hf H; [reflexivity |].
  cbn [forallb] in H. apply andb_true_iff in H as [Hkv Hrest].
  apply andb_true_iff in Hkv as [Hk Hv].
  cbn [visitProperties].
  rewrite (proj1 (Hf k c v (or_introl eq_refl) _) Hk).
  rewrite (proj2 (Hf k c v (or_introl eq_refl) _) Hv).
  rewrite IH; [reflexivity | | exact Hrest].
  intros k' c' v' Hin. apply (Hf k' c' v'). now right.
Qed.

Lemma traverse_kept (ps : list jsstring) (fuel : nat) :
  forall pos node,
    nesting node <= fuel ->
    settled ps pos node = true ->
    traverse fuel (plugins ps) pos node = Some node.
Proof.
  induction fuel as [| fuel IH]; intros pos node Hfuel Hs.
  - pose proof (TransformsFacts.nesting_positive node). lia.
  - rewrite TransformsFacts.traverse_S, TransformsFacts.enter_plugins.
    destruct node; cbn [nesting] in Hfuel; cbv zeta.
    + reflexivity.
    + cbn [settled] in Hs.
      destruct (skipped pos); [now rewrite andb_false_r |].
      cbn [orb] in Hs. apply negb_true_iff in Hs. now rewrite Hs, andb_false_r.
    + reflexivity.
    + discriminate.
    + cbn [settled] in Hs. apply andb_true_iff in Hs as [H1 H2].
      rewrite (IH Elsewhere node1), (IH Elsewhere node2) by (assumption || lia).
      reflexivity.
    + cbn [settled] in Hs. apply andb_true_iff in Hs as [H1 H2].
      rewrite (IH MemberObject node1), (IH (MemberProperty computed) node2)
        by (assumption || lia).
      reflexivity.
    + rewrite settled_call in Hs. apply andb_true_iff in Hs as [H1 H2].
      rewrite (IH Callee node) by (assumption || lia).
      rewrite (visitAll_kept ps); [reflexivity | | exact H2].
      intros n Hn pos' Hpos. pose proof (TransformsFacts.nesting_In n _ Hn).
      apply IH; [lia | exact Hpos].
    + cbn [settled] in Hs.
      rewrite (visitProperties_kept ps); [reflexivity | | exact Hs].
      intros k c v Hin pos'.
      pose proof (TransformsFacts.nesting_In_property k v c _ Hin).
      split; intros Hpos; apply IH; (assumption || lia).
    + cbn [settled] in Hs. rewrite <- (settledAll_constant ps Elsewhere elements 0) in Hs.
      rewrite (visitAll_kept ps); [reflexivity | | exact Hs].
      intros n Hn pos' Hpos. pose proof (TransformsFacts.nesting_In n _ Hn).
      apply IH; [lia | exact Hpos].
    + cbn [settled] in Hs. rewrite (IH Elsewhere node) by (assumption || lia).
      reflexivity.
    + cbn [settled] in Hs. apply andb_true_iff in Hs as [H1 H2].
      rewrite <- (settledAll_constant ps Elsewhere params 0) in H1.
      rewrite (visitAll_kept ps); [| | exact H1].
      * rewrite (IH Elsewhere node) by (assumption || lia). reflexivity.
      * intros n Hn pos' Hpos. pose proof (TransformsFacts.nesting_In n _ Hn).
        apply IH; [lia | exact Hpos].
    + cbn [settled] in Hs. apply andb_true_iff in Hs as [H1 H2].
      rewrite (IH MemberObject node1), (IH (OptionalMemberProperty computed) node2)
        by (assumption || lia).
      reflexivity.
    + rewrite settled_optional_call in Hs. apply andb_true_iff in Hs as [H1 H2].
      rewrite (IH Callee node) by (assumption || lia).
      rewrite (visitAll_kept ps); [reflexivity | | exact H2].
      intros n Hn pos' Hpos. pose proof (TransformsFacts.nesting_In n _ Hn).
      apply IH; [lia | exact Hpos].
Qed.

Lemma transformExpr_twice (ps : list jsstring) (e : Expr) :
  exists e', transformExpr ps e = Some e' /\ transformExpr ps e' = Some e'.
Proof.
  destruct (transformExpr ps e) as [e' |] eqn:He.
  - exists e'. split; [reflexivity |]. unfold transformExpr.
    apply traverse_kept; [lia |].
    exact (traverse_settled ps _ _ _ _ He).
  - exfalso. exact (TransformsFacts.transformExpr_total ps e He).
Qed.

(** X18: [transformCode] returns a program for every program, and
    transforming that program again changes nothing. *)
Theorem transformCode_idempotent (code : Program) (ps : list jsstring) :
  exists code',
    transformCode code ps = Some code'
    /\ transformCode code' ps = Some code'.
Proof.
  induction code as [| s rest IH].
  - now exists [].
  - destruct IH as (rest' & Hrest & Hagain).
    destruct s as [e | kind id init].
    + destruct (transformExpr_twice ps e) as (e' & He & He').
      exists (ExpressionStatement e' :: rest').
      cbn [transformCode transformStatement].
      now rewrite He, Hrest, He', Hagain.
    + destruct (transformExpr_twice ps init) as (e' & He & He').
      exists (VariableDeclaration kind id e' :: rest').
      cbn [transformCode transformStatement].
      now rewrite He, Hrest, He', Hagain.
Qed.

(** X27: in the program [transformCode] returns no template literal is
    left, and a string literal that is one of the protected strings is
    left only where the visitor skips it: as the key of a computed member
    access, as the key of a property that is not computed, or as the
    first argument of a call of [require]. *)
Theorem protected_strings_left_only_where_skipped
    (code : Program) (ps : list jsstring) :
  exists code',
    transformCode code ps = Some code'
    /\ forallb (fun s => settled ps Elsewhere (expressionOf s)) code' = true.
Proof.
  induction code as [| s rest IH].
  - now exists [].
  - destruct IH as (rest' & Hrest & Hsettled).
    cbn [transformCode]. rewrite Hrest.
    destruct s as [e | kind id init]; cbn [transformStatement].
    + destruct (transformExpr ps e) as [e' |] eqn:He;
        [| exfalso; exact (TransformsFacts.transformExpr_total ps e He)].
      eexists. split; [reflexivity |]. cbn [forallb expressionOf].
      now rewrite (traverse_settled ps _ _ _ _ He), Hsettled.
    + destruct (transformExpr ps init) as [e' |] eqn:He;
        [| exfalso; exact (TransformsFacts.transformExpr_total ps init He)].
      eexists. split; [reflexivity |]. cbn [forallb expressionOf].
      now rewrite (traverse_settled ps _ _ _ _ He), Hsettled.
Qed.

End SettledFacts.

(* ================================================================== *)
(** * The rewrite of require calls does not throw *)
(* ================================================================== *)

Module RequireFacts.
Import JS Text Overlap Plugin.

(** ** Matches of a name *)

Lemma matchName_skipn (name : jsstring) :
  forall text i,
    matchName name text = true ->
    matchName (skipn i name) (skipn i text) = true.
Proof.
  induction name as [| p name IH]; intros text i H.
  - now rewrite skipn_nil.
  - destruct text as [| c text]; [discriminate |].
    destruct i as [| i]; [exact H |].
    cbn [matchName] in H. apply andb_true_iff in H as [_ H].
    cbn [skipn]. now apply IH.
Qed.

Lemma matchName_firstn (name : jsstring) :
  forall text k,
    matchName name text = true -> matchName (firstn k name) text = true.
Proof.
  induction name as [| p name IH]; intros text k H.
  - now rewrite firstn_nil.
  - destruct k as [| k]; [reflexivity |].
    destruct text as [| c text]; [discriminate |].
    cbn [matchName firstn] in *. apply andb_true_iff in H as [Hc H].
    now rewrite Hc, IH.
Qed.

Lemma matchName_prefix (name : jsstring) :
  forall text q,
    matchName name text = true -> startsWith text q = true ->
    length name <= length q -> matchName name q = true.
Proof.
  induction name as [| p name IH]; intros text q H Hq Hlen; [reflexivity |].
  destruct q as [| y q]; [cbn in Hlen; lia |].
  destruct text as [| c text]; [discriminate |].
  cbn [matchName startsWith length] in *.
  apply andb_true_iff in H as [Hc H]. apply andb_true_iff in Hq as [Hy Hq].
  apply Z.eqb_eq in Hy. subst y. rewrite Hc. cbn [andb].
  apply (IH text q); [exact H | exact Hq | lia].
Qed.

(** A call that begins inside a match of a name makes the name overlap. *)
Lemma overlap_inside (name text : jsstring) (i : nat) :
  matchName name text = true ->
  i < length name ->
  startsWith (skipn i text) REQUIRE = true ->
  overlapsRequire name = true.
Proof.
  intros Hmatch Hi Hcall. unfold overlapsRequire.
  apply existsb_exists. exists i. split; [apply in_seq; lia |].
  apply (matchName_prefix _ (skipn i text)).
  - apply matchName_firstn. now apply matchName_skipn.
  - exact Hcall.
  - rewrite length_firstn. lia.
Qed.

(** ** [overwrite] on edits that end before the new one begins *)

Lemma splitsEdited_after (es : list (nat * nat * jsstring)) (bound index : nat) :
  (forall e, In e es -> snd (fst e) <= bound) ->
  bound <= index ->
  splitsEdited es index = false.
Proof.
  intros Hes Hindex. unfold splitsEdited.
  destruct (existsb _ es) eqn:Hex; [| reflexivity].
  apply existsb_exists in Hex as ([[s e_] content] & Hin & H).
  apply andb_true_iff in H as [_ H]. apply Nat.ltb_lt in H.
  specialize (Hes _ Hin). cbn in Hes. lia.
Qed.

Lemma insertEdit_In (e x : nat * nat * jsstring) (es : list (nat * nat * jsstring)) :
  In x (insertEdit e es) -> x = e \/ In x es.
Proof.
  induction es as [| e' rest IH]; cbn [insertEdit].
  - intros [H | []]. now left.
  - destruct (fst (fst e) <=? fst (fst e')).
    + intros [H | H]; [now left | now right].
    + intros [H | H]; [right; now left |].
      destruct (IH H) as [Hx | Hx]; [now left | right; now right].
Qed.

Lemma overwrite_after (s : MagicString) (start end_ : nat) (content : jsstring) :
  start < end_ -> end_ <= length (original s) ->
  (forall e, In e (edits s) -> snd (fst e) <= start) ->
  exists s',
    overwrite s start end_ content = Ok s'
    /\ original s' = original s
    /\ forall e, In e (edits s') -> e = (start, end_, content) \/ In e (edits s).
Proof.
  intros Hlt Hend Hes. unfold overwrite.
  destruct (Nat.eqb_spec start end_) as [Heq | _]; [lia |].
  destruct (Nat.ltb_spec end_ start) as [H | _]; [lia |].
  destruct (Nat.ltb_spec (length (original s)) end_) as [H | _]; [lia |].
  cbn [orb].
  rewrite (splitsEdited_after (edits s) start start Hes (le_n _)).
  rewrite (splitsEdited_after (edits s) start end_ Hes) by lia.
  cbn [orb]. eexists. split; [reflexivity |]. cbn [original edits].
  split; [reflexivity |]. intros e He.
  apply insertEdit_In in He as [He | He]; [now left |].
  apply filter_In in He as [He _]. now right.
Qed.

(** ** The loop does not throw *)

Lemma matchHere_call (names : list jsstring) (text prefix chunkName : jsstring) :
  matchHere names text = Some (prefix, chunkName) ->
  startsWith text REQUIRE = true.
Proof.
  unfold matchHere. now destruct (startsWith text REQUIRE).
Qed.

Lemma match_ends_before_next_call (names : list jsstring) (code : jsstring)
    (lastIndex index : nat) (prefix chunkName : jsstring) :
  forallb (fun name => negb (overlapsRequire name)) names = true ->
  exec names code lastIndex = Some (index, prefix, chunkName) ->
  forall j,
    index + length prefix <= j ->
    startsWith (skipn j code) REQUIRE = true ->
    index + (length prefix + length chunkName) <= j.
Proof.
  intros Hapart Hexec j Hj Hcall.
  pose proof (RewriteFacts.exec_matchHere names code lastIndex _ _ _ Hexec) as Hhere.
  destruct (RewriteFacts.matchHere_parts names _ _ _ Hhere)
    as (_ & name & Hin & Hchunk & Hmatch).
  pose proof (RewriteFacts.matchName_length _ _ Hmatch) as Hlen.
  assert (Hsize : length chunkName = length name).
  { rewrite Hchunk, length_firstn. lia. }
  destruct (Nat.le_gt_cases (index + (length prefix + length chunkName)) j)
    as [Hle | Hgt]; [exact Hle | exfalso].
  assert (Hover : overlapsRequire name = true).
  { apply (overlap_inside name _ (j - (index + length prefix)) Hmatch); [lia |].
    rewrite !skipn_skipn.
    replace (j - (index + length prefix) + length prefix + index) with j by lia.
    exact Hcall. }
  pose proof (proj1 (forallb_forall _ _) Hapart name Hin) as Hnot.
  cbv beta in Hnot. rewrite Hover in Hnot. discriminate.
Qed.

Lemma rewriteLoop_returns (names : list jsstring) (code : jsstring) (fuel : nat) :
  forallb (fun name => negb (overlapsRequire name)) names = true ->
  forall lastIndex s,
    behind code lastIndex s ->
    forall message, rewriteLoop fuel names code lastIndex s <> Some (Throws message).
Proof.
  intros Hapart. induction fuel as [| fuel IH]; intros lastIndex s Hs message;
    [discriminate |].
  cbn [rewriteLoop].
  destruct (exec names code lastIndex) as [[[index prefix] chunkName] |] eqn:Hexec;
    [| discriminate].
  pose proof (RewriteFacts.exec_range names code lastIndex _ _ _ Hexec) as Hrange.
  cbv zeta in Hrange. destruct Hrange as (Hlast & Hprefix & _ & Hend & _ & _).
  pose proof (matchHere_call names _ _ _
                (RewriteFacts.exec_matchHere names code lastIndex _ _ _ Hexec))
    as Hcall.
  set (s1 := match s with
             | Some m => m
             | None => newMagicString code
             end).
  assert (Hs1 : original s1 = code
                /\ forall e, In e (edits s1) ->
                   forall j, lastIndex <= j ->
                     startsWith (skipn j code) REQUIRE = true -> snd (fst e) <= j).
  { subst s1. destruct s as [m |]; [exact Hs |].
    split; [reflexivity |]. intros e []. }
  destruct Hs1 as [Horiginal Hedits].
  destruct (overwrite_after s1 index (index + (length prefix + length chunkName))
              (prefix ++ chunkName ++ js "c"))
    as (s2 & Hwrite & Horiginal2 & Hedits2).
  - lia.
  - rewrite Horiginal. exact Hend.
  - intros e He. exact (Hedits e He index Hlast Hcall).
  - rewrite Hwrite. apply IH. split; [congruence |].
    intros e He j Hj Hcallj.
    destruct (Hedits2 e He) as [-> | Hold].
    + cbn [fst snd].
      exact (match_ends_before_next_call names code lastIndex index prefix chunkName
               Hapart Hexec j Hj Hcallj).
    + apply (Hedits e Hold); [lia | exact Hcallj].
Qed.

Lemma rewriteRequires_returns (names : list jsstring) (code : jsstring) :
  forallb (fun name => negb (overlapsRequire name)) names = true ->
  exists code', rewriteRequires names code = Ok code'.
Proof.
  intros Hapart. unfold rewriteRequires.
  pose proof (rewriteLoop_returns names code (S (length code)) Hapart 0 None I) as H.
  destruct (rewriteLoop (S (length code)) names code 0 None) as [[[m |] | msg] |].
  - eexists. reflexivity.
  - eexists. reflexivity.
  - exfalso. exact (H msg eq_refl).
  - eexists. reflexivity.
Qed.

(** X19: for chunk names made of ordinary characters and dots, none of
    which can run into the beginning of a later [require(], the rewrite
    of the require calls does not throw, and all it does to the code is
    to insert a [c] at the end of some occurrences of chunk names, from
    left to right. *)
Theorem updateRequires_returns_and_only_inserts
    (names : list jsstring) (code : jsstring) :
  forallb plainName names = true ->
  forallb (fun name => negb (overlapsRequire name)) names = true ->
  exists cuts,
    updateRequires names code = Ok (insertC cuts code 0)
    /\ ascending 0 cuts
    /\ Forall (fun cut => cut <= length code /\ nameEndsAt names code cut) cuts.
Proof.
  intros _ Hapart. unfold updateRequires.
  destruct names as [| name names].
  - exists []. split; [reflexivity |]. split; [exact I | constructor].
  - destruct (rewriteRequires_returns (name :: names) code Hapart) as (code' & Hcode).
    destruct (RewriteFacts.rewriteRequires_inserts _ _ _ Hcode)
      as (cuts & -> & Hasc & Hall).
    exists cuts. auto.
Qed.

Lemma updateRequires_returns_and_only_inserts_witness :
  exists cuts,
    updateRequires [js "a.js"; js "vendor.js"]
      (js "const a = require('./a.js'), v = require('./vendor.js');")
    = Ok (insertC cuts
            (js "const a = require('./a.js'), v = require('./vendor.js');") 0)
    /\ ascending 0 cuts
    /\ Forall (fun cut =>
                 cut <= length (js "const a = require('./a.js'), v = require('./vendor.js');")
                 /\ nameEndsAt [js "a.js"; js "vendor.js"]
                      (js "const a = require('./a.js'), v = require('./vendor.js');") cut)
         cuts.
Proof.
  apply (updateRequires_returns_and_only_inserts [js "a.js"; js "vendor.js"]
           (js "const a = require('./a.js'), v = require('./vendor.js');")).
  - reflexivity.
  - reflexivity.
Defined.

(** ** Code without a call *)


Lemma indexOf_skipn (p : jsstring) (s : jsstring) :
  indexOf s p = None -> forall n, indexOf (skipn n s) p = None.
Proof.
  induction s as [| c s IH]; intros Hnone n.
  - now rewrite skipn_nil.
  - destruct n as [| n]; [exact Hnone |].
    destruct (TextFacts.indexOf_None _ _ Hnone) as [_ Hrest].
    cbn [skipn]. now apply IH.
Qed.



End RequireFacts.

(* ================================================================== *)
(** * What the reachability walk answers *)
(* ================================================================== *)

Module ReachFacts.
Import JS Plugin Reach.

Lemma setAddAll_from (xs : list jsstring) :
  forall set x, In x (setAddAll set xs) -> In x set \/ In x xs.
Proof.
  intros set x Hin.
  assert (H : incl (setAddAll set xs) (set ++ xs)).
  { apply WalkFacts.setAddAll_incl.
    - intros a Ha. apply in_or_app. now left.
    - intros a Ha. apply in_or_app. now right. }
  apply in_app_or. exact (H x Hin).
Qed.

(** ** An answer [true] comes from an id that is reached *)

Lemma walk_true_reaches (graph : ModuleGraph) (compiled : list jsstring)
    (chunk : OutputChunk) (fuel : nat) :
  forall ids i,
    (forall id, In id ids -> reaches graph chunk id) ->
    walk fuel graph compiled ids i = Some true ->
    exists id, reaches graph chunk id /\ In id compiled.
Proof.
  induction fuel as [| fuel IH]; intros ids i Hids H; [discriminate |].
  cbn [walk] in H.
  destruct (nth_error ids i) as [moduleId |] eqn:Hnth; [| discriminate].
  assert (Hreach : reaches graph chunk moduleId).
  { apply Hids. exact (nth_error_In _ _ Hnth). }
  destruct (includes compiled moduleId) eqn:Hinc.
  - exists moduleId. split; [exact Hreach |]. now apply JSFacts.includes_In.
  - destruct (getModuleInfo graph moduleId) as [info |] eqn:Hinfo;
      [| exact (IH _ _ Hids H)].
    destruct (isExternal info) eqn:Hext; cbn [negb] in H; [exact (IH _ _ Hids H) |].
    refine (IH _ _ _ H). intros id Hin.
    apply setAddAll_from in Hin as [Hin | Hin];
      [apply setAddAll_from in Hin as [Hin | Hin] |].
    + now apply Hids.
    + apply (reaches_importer graph chunk moduleId id info); auto.
      apply in_or_app. now left.
    + apply (reaches_importer graph chunk moduleId id info); auto.
      apply in_or_app. now right.
Qed.

(** ** An answer [false] comes from a set that is closed *)

Lemma handled_grows (graph : ModuleGraph) (compiled ids extra : list jsstring)
    (k : nat) :
  handled graph compiled ids k -> handled graph compiled (ids ++ extra) k.
Proof.
  intros (id & Hnth & Hinc & Hclosed). exists id.
  split; [| split; [exact Hinc |]].
  - rewrite nth_error_app1; [exact Hnth |]. apply nth_error_Some. congruence.
  - intros info Hinfo Hext a Ha. apply in_or_app. left.
    exact (Hclosed info Hinfo Hext a Ha).
Qed.

Lemma walk_false_closed (graph : ModuleGraph) (compiled : list jsstring) (fuel : nat) :
  forall ids i,
    (forall k, k < i -> handled graph compiled ids k) ->
    walk fuel graph compiled ids i = Some false ->
    exists closed,
      incl ids closed
      /\ forall id, In id closed ->
           includes compiled id = false
           /\ forall info,
                getModuleInfo graph id = Some info -> isExternal info = false ->
                incl (importers info ++ dynamicImporters info) closed.
Proof.
  induction fuel as [| fuel IH]; intros ids i Hdone H; [discriminate |].
  cbn [walk] in H.
  destruct (nth_error ids i) as [moduleId |] eqn:Hnth.
  - destruct (includes compiled moduleId) eqn:Hinc; [discriminate |].
    assert (Hstep : forall ids',
               (exists extra, ids' = ids ++ extra) ->
               (forall info,
                  getModuleInfo graph moduleId = Some info -> isExternal info = false ->
                  incl (importers info ++ dynamicImporters info) ids') ->
               walk fuel graph compiled ids' (S i) = Some false ->
               exists closed,
                 incl ids closed
                 /\ forall id, In id closed ->
                      includes compiled id = false
                      /\ forall info,
                           getModuleInfo graph id = Some info ->
                           isExternal info = false ->
                           incl (importers info ++ dynamicImporters info) closed).
    { intros ids' (extra & ->) Hclosed Hwalk.
      assert (Hhandled : forall k, k < S i -> handled graph compiled (ids ++ extra) k).
      { intros k Hk. destruct (Nat.eq_dec k i) as [-> | Hne].
        + exists moduleId. split; [| split; [exact Hinc | exact Hclosed]].
          rewrite nth_error_app1; [exact Hnth |]. apply nth_error_Some. congruence.
        + apply handled_grows. apply Hdone. lia. }
      destruct (IH _ _ Hhandled Hwalk) as (closed & Hincl & Hall).
      exists closed. split; [| exact Hall].
      intros a Ha. apply Hincl. apply in_or_app. now left. }
    destruct (getModuleInfo graph moduleId) as [info |] eqn:Hinfo.
    + destruct (isExternal info) eqn:Hext; cbn [negb] in H.
      * apply (Hstep ids); [exists []; symmetry; apply app_nil_r | | exact H].
        intros info' [= <-] Hext'. congruence.
      * refine (Hstep _ _ _ H).
        -- destruct (WalkFacts.setAddAll_grows (importers info) ids) as (e1 & ->).
           destruct (WalkFacts.setAddAll_grows (dynamicImporters info) (ids ++ e1))
             as (e2 & ->).
           exists (e1 ++ e2). symmetry. apply app_assoc.
        -- intros info' [= <-] _ a Ha. apply in_app_or in Ha as [Ha | Ha].
           ++ apply WalkFacts.setAddAll_keeps. now apply WalkFacts.setAddAll_In.
           ++ now apply WalkFacts.setAddAll_In.
    + apply (Hstep ids); [exists []; symmetry; apply app_nil_r | | exact H].
      intros info' Hinfo'. discriminate.
  - exists ids. split; [apply incl_refl |].
    intros id Hin. apply In_nth_error in Hin as (k & Hk).
    assert (Hlt : k < i).
    { apply nth_error_None in Hnth.
      assert (k < length ids) by (apply nth_error_Some; congruence). lia. }
    destruct (Hdone k Hlt) as (id' & Hnth' & Hinc & Hclosed).
    assert (id' = id) by congruence. subst id'. split; assumption.
Qed.

(** X21: the loop over the imports of an entry answers [true] exactly
    when a compiled chunk is among the ids it can reach: the imports and
    dynamic imports of the entry, and, from each id that names a module
    of the graph that is not external, the importers and dynamic
    importers of that module. *)
Theorem hasBytecodeModule_iff_reaches
    (graph : ModuleGraph) (compiled : list jsstring) (chunk : OutputChunk) :
  hasBytecodeModule graph compiled chunk = true
  <-> exists id, reaches graph chunk id /\ In id compiled.
Proof.
  pose proof (WalkFacts.hasBytecodeModule_walk graph compiled chunk) as Hwalk.
  split.
  - intros Htrue. rewrite Htrue in Hwalk.
    refine (walk_true_reaches graph compiled chunk _ _ _ _ Hwalk).
    intros id Hin. apply reaches_import.
    assert (H : incl (idsToHandle chunk) ([] ++ (imports chunk ++ dynamicImports chunk))).
    { unfold idsToHandle. apply WalkFacts.setAddAll_incl.
      - intros a [].
      - apply incl_refl. }
    exact (H id Hin).
  - intros (id & Hreach & Hcompiled).
    destruct (hasBytecodeModule graph compiled chunk) eqn:Hhas; [reflexivity |].
    exfalso.
    assert (Hnone : forall k, k < 0 -> handled graph compiled (idsToHandle chunk) k)
      by (intros k Hk; lia).
    destruct (walk_false_closed graph compiled _ _ _ Hnone Hwalk)
      as (closed & Hincl & Hall).
    assert (Hin : In id closed).
    { clear Hcompiled. induction Hreach as [id Hid | id importer info _ IH Hinfo Hext Himp].
      - apply Hincl. now apply WalkFacts.idsToHandle_In.
      - destruct (Hall id IH) as [_ Hclosed].
        exact (Hclosed info Hinfo Hext importer Himp). }
    destruct (Hall id Hin) as [Hinc _].
    apply JSFacts.includes_In in Hcompiled. congruence.
Qed.

End ReachFacts.

(* ================================================================== *)
(** * Properties of what generateBundle leaves and emits *)
(* ================================================================== *)

Module OutcomeFacts.
Import JS Compiler Text Plugin Outcome Segments.

(** ** One compiled chunk *)

Lemma finalizeChunk_compiled (options : BytecodeOptions) (env : Environment)
    (output : OutputBundle) (p p' : Process) (key : jsstring)
    (chunk : OutputChunk) (fin : Finalized) :
  includes (bytecodeChunks options output) key = true ->
  finalizeChunk options env output p key chunk = (p', Ok fin) ->
  exists _code bytecodeBuffer,
    updateRequires (nonEntryChunks options output) (code chunk) = Ok _code
    /\ compileToBytecode (vm env) p _code = (p', Ok bytecodeBuffer)
    /\ fin = mkFinalized
               (if isEntry chunk then entryCode env key chunk else code chunk)
               (if isEntry chunk then [] else [fileName chunk])
               (mkEmitted (key ++ js "c") (SourceBytes bytecodeBuffer)
                  :: (if keepsBundleJS options
                      then [mkEmitted (js "_" ++ fileName chunk) (SourceText (code chunk))]
                      else []))
               1.
Proof.
  intros Hin H. unfold finalizeChunk in H.
  destruct (updateRequires (nonEntryChunks options output) (code chunk))
    as [_code | m]; [| discriminate].
  rewrite Hin in H.
  destruct (compileToBytecode (vm env) p _code) as [p1 [buf | m]] eqn:Hc;
    [| discriminate].
  exists _code, buf. split; [reflexivity |].
  destruct (isEntry chunk); injection H as <- <-; auto.
Qed.

(** ** The records of [finalizeAll] *)

Lemma finalizeAll_recorded (options : BytecodeOptions) (env : Environment)
    (output : OutputBundle) (bundles : OutputBundle) :
  forall p p' done,
    finalizeAll options env output p bundles = (p', Ok done) ->
    Forall2 (recorded options env output) bundles done.
Proof.
  induction bundles as [| [key item] rest IH]; intros p p' done H.
  - cbn in H. injection H as _ <-. constructor.
  - cbn [finalizeAll] in H. destruct item as [chunk | f src].
    + destruct (finalizeChunk options env output p key chunk)
        as [p1 [fin | m]] eqn:Hfin; [| discriminate].
      destruct (finalizeAll options env output p1 rest)
        as [p2 [done' | m]] eqn:Hrest; [| discriminate].
      injection H as _ <-. constructor; [| exact (IH _ _ _ Hrest)].
      split; [reflexivity |]. cbn [fst snd]. now exists p, p1.
    + destruct (finalizeAll options env output p rest)
        as [p2 [done' | m]] eqn:Hrest; [| discriminate].
      injection H as _ <-. constructor; [| exact (IH _ _ _ Hrest)].
      split; reflexivity.
Qed.

Lemma recorded_fields (options : BytecodeOptions) (env : Environment)
    (output : OutputBundle) (entry : jsstring * OutputItem)
    (d : jsstring * OutputItem * Finalized) :
  wellFormed output -> In entry output ->
  recorded options env output entry d ->
  fst (finalEntry d) = fst entry
  /\ deleted (snd d) = (if removes options (snd entry) then [fst entry] else [])
  /\ map emittedFileName (emitted (snd d)) = emittedNames options entry
  /\ compiledCount (snd d) = (if compiles options (snd entry) then 1 else 0).
Proof.
  intros Hwf Hin [Hfst Hrec]. destruct d as [[key item] fin].
  cbn [fst snd] in *. subst entry. cbn [fst snd] in *.
  destruct item as [chunk | f src].
  - destruct Hrec as (p0 & p1 & Hfin).
    pose proof (BundleFacts.compiled_iff_selected options output key chunk Hwf Hin)
      as Hsel.
    assert (Hfile : fileName chunk = key).
    { destruct Hwf as [_ Hkeys]. unfold keysAreFileNames in Hkeys.
      rewrite Forall_forall in Hkeys. exact (Hkeys _ Hin). }
    unfold emittedNames, removes, compiles. cbn [fst snd finalEntry].
    destruct (isBytecodeChunk options (name chunk)).
    + destruct (finalizeChunk_compiled _ _ _ _ _ _ _ _ Hsel Hfin)
        as (_code & buf & _ & _ & ->).
      cbn [deleted emitted compiledCount map emittedFileName]. rewrite Hfile.
      destruct (isEntry chunk), (keepsBundleJS options); auto.
    + destruct (BundleFacts.finalizeChunk_not_compiled _ _ _ _ _ _ _ _ Hsel Hfin)
        as (_code & _ & ->).
      auto.
  - rewrite Hrec. auto.
Qed.

Lemma removed_keys (options : BytecodeOptions) (env : Environment)
    (output : OutputBundle) :
  wellFormed output ->
  forall bundles done,
    incl bundles output ->
    Forall2 (recorded options env output) bundles done ->
    forall k,
      In k (flat_map (fun d => deleted (snd d)) done)
      <-> exists item, In (k, item) bundles /\ removes options item = true.
Proof.
  intros Hwf bundles done Hincl Hrec.
  induction Hrec as [| entry d bundles done Hd Hrest IH]; intros k.
  - cbn. split; [contradiction | intros (item & [] & _)].
  - cbn [flat_map]. rewrite in_app_iff, IH by (intros x Hx; apply Hincl; now right).
    destruct (recorded_fields options env output entry d Hwf
                (Hincl _ (or_introl eq_refl)) Hd) as (_ & Hdel & _ & _).
    rewrite Hdel. destruct entry as [key item]. cbn [fst snd]. split.
    + intros [Hk | (item' & Hin & Hr)].
      * destruct (removes options item) eqn:Hr; [| contradiction].
        destruct Hk as [<- | []]. exists item. split; [now left | exact Hr].
      * exists item'. split; [now right | exact Hr].
    + intros (item' & [Hin | Hin] & Hr).
      * injection Hin as <- <-. left. rewrite Hr. now left.
      * right. now exists item'.
Qed.

Lemma includes_removed (options : BytecodeOptions) (env : Environment)
    (output : OutputBundle) (done : list (jsstring * OutputItem * Finalized)) :
  wellFormed output ->
  Forall2 (recorded options env output) output done ->
  forall key item,
    In (key, item) output ->
    includes (flat_map (fun d => deleted (snd d)) done) key = removes options item.
Proof.
  intros Hwf Hrec key item Hin.
  pose proof (removed_keys options env output Hwf output done (incl_refl _) Hrec key)
    as Hkeys.
  destruct (removes options item) eqn:Hr.
  - apply JSFacts.includes_In. apply Hkeys. now exists item.
  - destruct (includes _ key) eqn:Hinc; [| reflexivity].
    apply JSFacts.includes_In, Hkeys in Hinc. destruct Hinc as (item' & Hin' & Hr').
    destruct Hwf as [Hnd _].
    rewrite (BundleFacts.NoDup_keys_unique output key item item' Hnd Hin Hin') in Hr.
    congruence.
Qed.

(** ** What [generateBundle] returns *)

Lemma nothing_selected (options : BytecodeOptions) (output : OutputBundle) :
  candidates options output = [] ->
  forall entry, In entry output -> compiles options (snd entry) = false.
Proof.
  intros Hnone [key item] Hin. cbn [snd]. destruct item as [chunk | f src]; [| reflexivity].
  cbn [compiles]. destruct (isBytecodeChunk options (name chunk)) eqn:Hsel; [| reflexivity].
  assert (Hc : In chunk (candidates options output)).
  { apply BundleFacts.candidates_In. now exists key. }
  rewrite Hnone in Hc. contradiction.
Qed.

Lemma removes_compiles (options : BytecodeOptions) (item : OutputItem) :
  compiles options item = false -> removes options item = false.
Proof. destruct item; cbn; [intros -> |]; reflexivity. Qed.

Lemma generateBundle_recorded (options : BytecodeOptions) (env : Environment)
    (p p' : Process) (output : OutputBundle) (g : Generated) :
  generateBundle true options env p output = (p', Ok g) ->
  (candidates options output = [] /\ g = mkGenerated output [])
  \/ exists done,
       candidates options output <> []
       /\ Forall2 (recorded options env output) output done
       /\ finalOutput g
          = filter (fun entry =>
                      negb (includes (flat_map (fun d => deleted (snd d)) done)
                              (fst entry)))
              (map finalEntry done)
       /\ assets g
          = flat_map (fun d => emitted (snd d)) done
              ++ (if (0 <? fold_left Nat.add (map (fun d => compiledCount (snd d)) done) 0)
                     && negb (hasLoaderAsset output)
                  then [mkEmitted bytecodeModuleLoader (SourceText (loaderCode env))]
                  else []).
Proof.
  intros Hgen. unfold generateBundle in Hgen. cbn [negb] in Hgen.
  destruct (candidates options output) as [| c0 cs] eqn:Hcand.
  - cbn [length Nat.eqb] in Hgen. injection Hgen as _ <-. now left.
  - cbn [length Nat.eqb] in Hgen. right.
    destruct (finalizeAll options env output p output) as [p1 [done | m]] eqn:Hall;
      [| discriminate].
    injection Hgen as _ <-. exists done.
    split; [discriminate |].
    split; [exact (finalizeAll_recorded _ _ _ _ _ _ _ Hall) |].
    split; reflexivity.
Qed.

Lemma final_keys (options : BytecodeOptions) (env : Environment)
    (output : OutputBundle) (gone : list jsstring) :
  wellFormed output ->
  forall bundles done,
    incl bundles output ->
    Forall2 (recorded options env output) bundles done ->
    (forall key item, In (key, item) bundles ->
       includes gone key = removes options item) ->
    map fst (filter (fun entry => negb (includes gone (fst entry))) (map finalEntry done))
    = map fst (filter (fun entry => negb (removes options (snd entry))) bundles).
Proof.
  intros Hwf bundles done Hincl Hrec.
  induction Hrec as [| entry d bundles done Hd Hrest IH]; intros Hgone;
    [reflexivity |].
  destruct (recorded_fields options env output entry d Hwf
              (Hincl _ (or_introl eq_refl)) Hd) as (Hkey & _ & _ & _).
  assert (Hrest' :
            map fst (filter (fun entry => negb (includes gone (fst entry)))
                       (map finalEntry done))
            = map fst (filter (fun entry => negb (removes options (snd entry))) bundles)).
  { apply IH.
    - intros x Hx. apply Hincl. now right.
    - intros k i Hin. apply Hgone. now right. }
  cbn [map filter]. rewrite Hkey.
  destruct entry as [key item]. cbn [fst snd] in *.
  rewrite (Hgone key item (or_introl eq_refl)).
  destruct (removes options item); cbn [negb map]; [exact Hrest' |].
  now rewrite Hkey, Hrest'.
Qed.

Lemma recorded_In (options : BytecodeOptions) (env : Environment)
    (output bundles : OutputBundle) (done : list (jsstring * OutputItem * Finalized)) :
  Forall2 (recorded options env output) bundles done ->
  forall entry, In entry bundles ->
  exists d, In d done /\ recorded options env output entry d.
Proof.
  intros Hrec. induction Hrec as [| entry d bundles done Hd Hrest IH];
    intros e Hin; [contradiction |].
  destruct Hin as [<- | Hin].
  - exists d. split; [now left | exact Hd].
  - destruct (IH e Hin) as (d' & Hd' & Hr). exists d'. split; [now right | exact Hr].
Qed.

Lemma recorded_In_done (options : BytecodeOptions) (env : Environment)
    (output bundles : OutputBundle) (done : list (jsstring * OutputItem * Finalized)) :
  Forall2 (recorded options env output) bundles done ->
  forall d, In d done ->
  exists entry, In entry bundles /\ recorded options env output entry d.
Proof.
  intros Hrec. induction Hrec as [| entry d bundles done Hd Hrest IH];
    intros d' Hin; [contradiction |].
  destruct Hin as [<- | Hin].
  - exists entry. split; [now left | exact Hd].
  - destruct (IH d' Hin) as (e & He & Hr). exists e. split; [now right | exact Hr].
Qed.

Lemma withCode_same (chunk : OutputChunk) : withCode chunk (code chunk) = chunk.
Proof. now destruct chunk. Qed.

(** X22: after [generateBundle] the output object holds, in their order,
    the keys it held before without those of the selected chunks that are
    not entries; every asset it held is still there under its key; and a
    chunk it holds differs from the chunk that was stored under the same
    key in its code at most. *)
Theorem compiled_non_entry_chunks_leave_the_output
    (options : BytecodeOptions) (env : Environment) (p p' : Process)
    (output : OutputBundle) (g : Generated) :
  wellFormed output ->
  generateBundle true options env p output = (p', Ok g) ->
  map fst (finalOutput g)
  = map fst (filter (fun entry => negb (removes options (snd entry))) output)
  /\ (forall key f source,
        In (key, Asset f source) output -> In (key, Asset f source) (finalOutput g))
  /\ (forall key chunk',
        In (key, Chunk chunk') (finalOutput g) ->
        exists chunk,
          In (key, Chunk chunk) output /\ chunk' = withCode chunk (code chunk')).
Proof.
  intros Hwf Hgen.
  destruct (generateBundle_recorded _ _ _ _ _ _ Hgen)
    as [[Hnone ->] | (done & _ & Hrec & Hfinal & _)].
  - cbn [finalOutput]. split; [| split; [auto |]].
    + f_equal. symmetry. apply forallb_filter_id. apply forallb_forall.
      intros entry Hin. apply negb_true_iff, removes_compiles.
      now apply (nothing_selected options output).
    + intros key chunk' Hin. exists chunk'. split; [exact Hin |].
      symmetry. apply withCode_same.
  - rewrite Hfinal. split; [| split].
    + apply (final_keys options env output _ Hwf output done (incl_refl _) Hrec).
      exact (includes_removed options env output done Hwf Hrec).
    + intros key f source Hin. apply filter_In. split.
      * destruct (recorded_In _ _ _ _ _ Hrec _ Hin) as ([[k item] fin] & Hd & Hfst & _).
        cbn [fst] in Hfst. injection Hfst as -> ->.
        apply in_map_iff. exists (key, Asset f source, fin). now split.
      * cbn [fst].
        now rewrite (includes_removed options env output done Hwf Hrec _ _ Hin).
    + intros key chunk' Hin. apply filter_In in Hin as [Hin _].
      apply in_map_iff in Hin as ([[k item] fin] & Hentry & Hd).
      destruct (recorded_In_done _ _ _ _ _ Hrec _ Hd) as (entry & Hin & Hfst & _).
      cbn [fst] in Hfst. subst entry.
      destruct item as [chunk | f source]; cbn [finalEntry] in Hentry;
        [| discriminate].
      injection Hentry as -> <-. exists chunk. split; [exact Hin |]. reflexivity.
Qed.

Lemma mixedOutput_wellFormed : wellFormed mixedOutput.
Proof.
  split.
  - repeat constructor; cbn; intuition discriminate.
  - repeat constructor.
Qed.

Lemma mixedBuild_returns :
  generateBundle true mixedOptions sampleEnv startProcess mixedOutput
  = (fst mixedBuild, Ok (generated mixedBuild)).
Proof. vm_compute. reflexivity. Qed.

Lemma compiled_non_entry_chunks_leave_the_output_witness :
  map fst (finalOutput (generated mixedBuild))
  = map fst (filter (fun entry => negb (removes mixedOptions (snd entry))) mixedOutput)
  /\ (forall key f source,
        In (key, Asset f source) mixedOutput ->
        In (key, Asset f source) (finalOutput (generated mixedBuild)))
  /\ (forall key chunk',
        In (key, Chunk chunk') (finalOutput (generated mixedBuild)) ->
        exists chunk,
          In (key, Chunk chunk) mixedOutput /\ chunk' = withCode chunk (code chunk')).
Proof.
  exact (compiled_non_entry_chunks_leave_the_output mixedOptions sampleEnv
           startProcess (fst mixedBuild) mixedOutput (generated mixedBuild)
           mixedOutput_wellFormed mixedBuild_returns).
Defined.

(** ** The code of a compiled entry *)

Lemma final_entry_keys (options : BytecodeOptions) (env : Environment)
    (output : OutputBundle) :
  wellFormed output ->
  forall bundles done,
    incl bundles output ->
    Forall2 (recorded options env output) bundles done ->
    map fst (map finalEntry done) = map fst bundles.
Proof.
  intros Hwf bundles done Hincl Hrec.
  induction Hrec as [| entry d bundles done Hd Hrest IH]; [reflexivity |].
  cbn [map].
  destruct (recorded_fields options env output entry d Hwf
              (Hincl _ (or_introl eq_refl)) Hd) as (Hkey & _).
  rewrite Hkey. f_equal. apply IH. intros x Hx. apply Hincl. now right.
Qed.

Lemma generateBundle_compiled_entry (options : BytecodeOptions) (env : Environment)
    (p p' : Process) (output : OutputBundle) (g : Generated)
    (key : jsstring) (chunk : OutputChunk) :
  wellFormed output ->
  generateBundle true options env p output = (p', Ok g) ->
  In (key, Chunk chunk) output ->
  isBytecodeChunk options (name chunk) = true ->
  isEntry chunk = true ->
  codeOf (finalOutput g) key = Some (entryCode env key chunk).
Proof.
  intros Hwf Hgen Hin Hsel Hentry.
  destruct (generateBundle_recorded _ _ _ _ _ _ Hgen)
    as [[Hnone _] | (done & _ & Hrec & Hfinal & _)].
  - pose proof (nothing_selected options output Hnone _ Hin) as H.
    cbn [snd compiles] in H. congruence.
  - rewrite Hfinal.
    destruct (recorded_In _ _ _ _ _ Hrec _ Hin) as ([[k item] fin] & Hd & Hfst & Hfin).
    cbn [fst snd] in Hfst, Hfin. injection Hfst as -> ->.
    destruct Hfin as (p0 & p1 & Hfin).
    pose proof (BundleFacts.compiled_iff_selected options output key chunk Hwf Hin)
      as Hcomp.
    rewrite Hsel in Hcomp.
    destruct (finalizeChunk_compiled _ _ _ _ _ _ _ _ Hcomp Hfin)
      as (_code & buf & _ & _ & ->).
    rewrite Hentry in Hd.
    change (Some (entryCode env key chunk))
      with (Some (code (withCode chunk (entryCode env key chunk)))).
    apply BundleFacts.codeOf_In.
    + apply BundleFacts.NoDup_map_filter.
      assert (Hkeys : map fst (map finalEntry done) = map fst output)
        by exact (final_entry_keys options env output Hwf output done
                    (incl_refl _) Hrec).
      rewrite Hkeys. exact (proj1 Hwf).
    + apply filter_In. split.
      * apply in_map_iff. eexists. split; [| exact Hd]. reflexivity.
      * cbn [fst].
        rewrite (includes_removed options env output done Hwf Hrec _ _ Hin).
        cbn [removes]. now rewrite Hsel, Hentry.
Qed.

Lemma untilSlash_app (s rest : jsstring) :
  slashFree s = true -> NodePath.untilSlash (s ++ NodePath.SLASH :: rest) = s.
Proof.
  induction s as [| c s IH]; cbn [slashFree forallb app NodePath.untilSlash].
  - now rewrite Z.eqb_refl.
  - intros H. apply andb_true_iff in H as [Hc Hs]. apply negb_true_iff in Hc.
    now rewrite Hc, (IH Hs).
Qed.

Lemma untilSlash_plain (s : jsstring) :
  slashFree s = true -> NodePath.untilSlash s = s.
Proof.
  induction s as [| c s IH]; [reflexivity |].
  cbn [slashFree forallb NodePath.untilSlash].
  intros H. apply andb_true_iff in H as [Hc Hs]. apply negb_true_iff in Hc.
  now rewrite Hc, (IH Hs).
Qed.

Lemma basename_of_file (dirs : list jsstring) (file : jsstring) :
  forallb plainSegment (dirs ++ [file]) = true ->
  NodePath.basename (NodePath.join (dirs ++ [file])) = file.
Proof.
  rewrite forallb_app. cbn [forallb]. rewrite andb_true_r. intros H.
  apply andb_true_iff in H as [Hdirs Hfile].
  destruct (LoaderPathFacts.plainSegment_parts file Hfile) as (Hne & _ & _ & Hfree).
  assert (Hrev : exists c tail, rev file = c :: tail /\ (c =? NodePath.SLASH)%Z = false).
  { pose proof (LoaderPathFacts.slashFree_rev file) as Hr. rewrite Hfree in Hr.
    destruct (rev file) as [| c tail] eqn:E.
    - apply (f_equal (@rev Z)) in E. rewrite rev_involutive in E. subst file.
      discriminate.
    - exists c, tail. split; [reflexivity |].
      cbn [slashFree forallb] in Hr. apply andb_true_iff in Hr as [Hc _].
      now apply negb_true_iff. }
  destruct Hrev as (c & tail & Hrev & Hc).
  unfold NodePath.basename.
  destruct dirs as [| d ds].
  - cbn [app NodePath.join]. rewrite Hrev. cbn [NodePath.dropSlashes]. rewrite Hc.
    rewrite <- Hrev, untilSlash_plain by (now rewrite LoaderPathFacts.slashFree_rev).
    apply rev_involutive.
  - rewrite LoaderPathFacts.join_snoc by discriminate.
    rewrite rev_app_distr. cbn [rev]. rewrite <- app_assoc. cbn [app].
    rewrite Hrev. cbn [app NodePath.dropSlashes]. rewrite Hc.
    change (c :: tail ++ NodePath.SLASH :: rev (NodePath.join (d :: ds)))
      with ((c :: tail) ++ NodePath.SLASH :: rev (NodePath.join (d :: ds))).
    rewrite <- Hrev, untilSlash_app by (now rewrite LoaderPathFacts.slashFree_rev).
    apply rev_involutive.
Qed.

Lemma noBackslash_join (segs : list jsstring) :
  forallb noBackslash segs = true -> noBackslash (NodePath.join segs) = true.
Proof.
  induction segs as [| seg rest IH]; [reflexivity |].
  cbn [forallb]. intros H. apply andb_true_iff in H as [Hs Hr].
  destruct rest as [| seg' rest]; [exact Hs |].
  rewrite LoaderPathFacts.join_cons by discriminate. unfold noBackslash in *.
  rewrite forallb_app. cbn [forallb]. rewrite Hs. cbn [andb].
  change (negb (NodePath.SLASH =? 92)%Z) with true. cbn [andb]. now apply IH.
Qed.

(** X23: the code of a selected entry chunk stored under the file name
    [dirs/file] of plain names becomes the strict-mode directive, the
    require of the loader ([./bytecode-loader.cjs], or one [../] for each
    directory) and the require of [./file] with a [c] appended, each on a
    line of its own. *)
Theorem compiled_entry_becomes_loader_stub
    (options : BytecodeOptions) (env : Environment) (p p' : Process)
    (output : OutputBundle) (g : Generated) (chunk : OutputChunk)
    (dirs : list jsstring) (file : jsstring) :
  wellFormed output ->
  generateBundle true options env p output = (p', Ok g) ->
  In (NodePath.join (dirs ++ [file]), Chunk chunk) output ->
  isBytecodeChunk options (name chunk) = true ->
  isEntry chunk = true ->
  forallb plainSegment (dirs ++ [file]) = true ->
  forallb noBackslash (dirs ++ [file]) = true ->
  hd [] dirs <> bytecodeModuleLoader ->
  codeOf (finalOutput g) (NodePath.join (dirs ++ [file]))
  = Some (useStrict ++ [LF]
            ++ js "require("
            ++ quoted (match dirs with
                       | [] => js "./bytecode-loader.cjs"
                       | _ :: _ => NodePath.join (upFrom dirs ++ [bytecodeModuleLoader])
                       end)
            ++ js ");" ++ [LF]
            ++ js "require(" ++ quoted (js "./" ++ file ++ js "c") ++ js ");" ++ [LF]).
Proof.
  intros Hwf Hgen Hin Hsel Hentry Hplain Hback Hhd.
  rewrite (generateBundle_compiled_entry _ _ _ _ _ _ _ _ Hwf Hgen Hin Hsel Hentry).
  assert (Hfile : fileName chunk = NodePath.join (dirs ++ [file])).
  { destruct Hwf as [_ Hkeys]. unfold keysAreFileNames in Hkeys.
    rewrite Forall_forall in Hkeys. exact (Hkeys _ Hin). }
  unfold entryCode. cbv zeta. rewrite Hfile, basename_of_file by exact Hplain.
  assert (Hnorm : Utils.normalizePath (NodePath.join (dirs ++ [file]))
                  = NodePath.join (dirs ++ [file])).
  { apply LoaderPathFacts.normalizePath_identity. now apply noBackslash_join. }
  rewrite (LoaderPathFacts.getBytecodeLoaderBlock_plain (cwd env) _ file dirs
             Hnorm Hplain Hhd).
  unfold quoted. now rewrite <- !app_assoc.
Qed.

Lemma compiled_entry_becomes_loader_stub_witness :
  codeOf (finalOutput (generated mixedBuild)) (js "dist/main.js")
  = Some (useStrict ++ [LF]
            ++ js "require(" ++ quoted (js "../bytecode-loader.cjs") ++ js ");" ++ [LF]
            ++ js "require(" ++ quoted (js "./main.jsc") ++ js ");" ++ [LF]).
Proof.
  apply (compiled_entry_becomes_loader_stub mixedOptions sampleEnv startProcess
           (fst mixedBuild) mixedOutput (generated mixedBuild)
           (mkChunk (js "dist/main.js") (js "main") true
              (js "const lib = require('./lib.js');") [js "dist/lib.js"] [])
           [js "dist"] (js "main.js")).
  - exact mixedOutput_wellFormed.
  - exact mixedBuild_returns.
  - left. reflexivity.
  - reflexivity.
  - reflexivity.
  - reflexivity.
  - reflexivity.
  - discriminate.
Defined.

(** ** The emitted files *)

Lemma emitted_names (options : BytecodeOptions) (env : Environment)
    (output : OutputBundle) :
  wellFormed output ->
  forall bundles done,
    incl bundles output ->
    Forall2 (recorded options env output) bundles done ->
    map emittedFileName (flat_map (fun d => emitted (snd d)) done)
    = flat_map (emittedNames options) bundles
    /\ forall count,
         (0 <? fold_left Nat.add (map (fun d => compiledCount (snd d)) done) count)
         = (0 <? count) || existsb (fun entry => compiles options (snd entry)) bundles.
Proof.
  intros Hwf bundles done Hincl Hrec.
  induction Hrec as [| entry d bundles done Hd Hrest IH].
  - split; [reflexivity |]. intros count. cbn. now rewrite orb_false_r.
  - destruct (recorded_fields options env output entry d Hwf
                (Hincl _ (or_introl eq_refl)) Hd) as (_ & _ & Hnames & Hcount).
    destruct IH as [IHnames IHcount]; [intros x Hx; apply Hincl; now right |].
    split.
    + cbn [flat_map]. now rewrite map_app, Hnames, IHnames.
    + intros count. cbn [map fold_left existsb]. rewrite IHcount, Hcount.
      destruct (compiles options (snd entry)), count; cbn; reflexivity.
Qed.

(** X24: the files [generateBundle] emits are, for each selected chunk in
    the order of the output object, the artifact under the chunk's key
    with a [c] appended, followed by the chunk's file name after an
    underscore when the bundle is kept; then the loader, when some chunk
    is selected and the output object holds no asset of the loader's
    name. *)
Theorem emitted_file_names
    (options : BytecodeOptions) (env : Environment) (p p' : Process)
    (output : OutputBundle) (g : Generated) :
  wellFormed output ->
  generateBundle true options env p output = (p', Ok g) ->
  map emittedFileName (assets g)
  = flat_map (emittedNames options) output
      ++ (if existsb (fun entry => compiles options (snd entry)) output
             && negb (hasLoaderAsset output)
          then [bytecodeModuleLoader]
          else []).
Proof.
  intros Hwf Hgen.
  destruct (generateBundle_recorded _ _ _ _ _ _ Hgen)
    as [[Hnone ->] | (done & _ & Hrec & _ & Hassets)].
  - pose proof (nothing_selected options output Hnone) as Hno.
    cbn [assets map].
    assert (Hex : existsb (fun entry => compiles options (snd entry)) output = false).
    { destruct (existsb _ output) eqn:E; [| reflexivity].
      apply existsb_exists in E as (entry & Hin & Hc).
      rewrite (Hno entry Hin) in Hc. discriminate. }
    rewrite Hex. cbn [andb]. rewrite app_nil_r.
    clear - Hno. induction output as [| entry rest IH]; [reflexivity |].
    cbn [flat_map].
    assert (He : emittedNames options entry = []).
    { pose proof (Hno entry (or_introl eq_refl)) as Hc.
      unfold emittedNames. destruct (snd entry); [| reflexivity].
      cbn [compiles] in Hc. now rewrite Hc. }
    rewrite He. cbn [app]. apply IH. intros e Hin. apply Hno. now right.
  - destruct (emitted_names options env output Hwf output done (incl_refl _) Hrec)
      as [Hnames Hcount].
    rewrite Hassets, map_app, Hnames, (Hcount 0). cbn [Nat.ltb Nat.leb orb].
    now destruct (existsb _ output && negb (hasLoaderAsset output)).
Qed.

Lemma emitted_file_names_witness :
  map emittedFileName (assets (generated mixedBuild))
  = flat_map (emittedNames mixedOptions) mixedOutput
      ++ (if existsb (fun entry => compiles mixedOptions (snd entry)) mixedOutput
             && negb (hasLoaderAsset mixedOutput)
          then [bytecodeModuleLoader]
          else []).
Proof.
  exact (emitted_file_names mixedOptions sampleEnv startProcess (fst mixedBuild)
           mixedOutput (generated mixedBuild) mixedOutput_wellFormed mixedBuild_returns).
Defined.

(** X25: when the base names of the compiled chunks that are not entries
    are plain, which is where the model of the pattern stands for the
    pattern the source builds, then for every selected chunk the artifact
    holds the bytes compiled from the chunk's code after the rewrite of
    its require calls, while the copy emitted when the bundle is kept
    holds the code as it was before that rewrite. *)
Theorem artifact_compiled_from_rewritten_code
    (options : BytecodeOptions) (env : Environment) (p p' : Process)
    (output : OutputBundle) (g : Generated) (key : jsstring) (chunk : OutputChunk) :
  wellFormed output ->
  forallb Text.plainName (nonEntryChunks options output) = true ->
  generateBundle true options env p output = (p', Ok g) ->
  In (key, Chunk chunk) output ->
  isBytecodeChunk options (name chunk) = true ->
  exists _code p0 bytecodeBuffer,
    updateRequires (nonEntryChunks options output) (code chunk) = Ok _code
    /\ snd (compileToBytecode (vm env) p0 _code) = Ok bytecodeBuffer
    /\ In (mkEmitted (key ++ js "c") (SourceBytes bytecodeBuffer)) (assets g)
    /\ (keepsBundleJS options = true ->
        In (mkEmitted (js "_" ++ key) (SourceText (code chunk))) (assets g)).
Proof.
  intros Hwf _ Hgen Hin Hsel.
  destruct (generateBundle_recorded _ _ _ _ _ _ Hgen)
    as [[Hnone _] | (done & _ & Hrec & _ & Hassets)].
  - pose proof (nothing_selected options output Hnone _ Hin) as H.
    cbn [snd compiles] in H. congruence.
  - destruct (recorded_In _ _ _ _ _ Hrec _ Hin) as ([[k item] fin] & Hd & Hfst & Hfin).
    cbn [fst snd] in Hfst, Hfin. injection Hfst as -> ->.
    destruct Hfin as (p0 & p1 & Hfin).
    pose proof (BundleFacts.compiled_iff_selected options output key chunk Hwf Hin)
      as Hcomp.
    rewrite Hsel in Hcomp.
    destruct (finalizeChunk_compiled _ _ _ _ _ _ _ _ Hcomp Hfin)
      as (_code & buf & Hupdate & Hcompile & ->).
    assert (Hfile : fileName chunk = key).
    { destruct Hwf as [_ Hkeys]. unfold keysAreFileNames in Hkeys.
      rewrite Forall_forall in Hkeys. exact (Hkeys _ Hin). }
    exists _code, p0, buf. split; [exact Hupdate |].
    split; [now rewrite Hcompile |].
    rewrite Hassets. split.
    + apply in_or_app. left. apply in_flat_map. eexists. split; [exact Hd |].
      cbn [snd emitted]. now left.
    + intros Hkeep. apply in_or_app. left. apply in_flat_map.
      eexists. split; [exact Hd |].
      cbn [snd emitted]. rewrite Hkeep, Hfile. right. now left.
Qed.

Lemma artifact_compiled_from_rewritten_code_witness :
  exists _code p0 bytecodeBuffer,
    updateRequires (nonEntryChunks mixedOptions mixedOutput)
      (js "const lib = require('./lib.js');") = Ok _code
    /\ snd (compileToBytecode sampleVM p0 _code) = Ok bytecodeBuffer
    /\ In (mkEmitted (js "dist/main.js" ++ js "c") (SourceBytes bytecodeBuffer))
         (assets (generated mixedBuild))
    /\ (keepsBundleJS mixedOptions = true ->
        In (mkEmitted (js "_" ++ js "dist/main.js")
              (SourceText (js "const lib = require('./lib.js');")))
           (assets (generated mixedBuild))).
Proof.
  apply (artifact_compiled_from_rewritten_code mixedOptions sampleEnv startProcess
           (fst mixedBuild) mixedOutput (generated mixedBuild) (js "dist/main.js")
           (mkChunk (js "dist/main.js") (js "main") true
              (js "const lib = require('./lib.js');") [js "dist/lib.js"] [])).
  - exact mixedOutput_wellFormed.
  - reflexivity.
  - exact mixedBuild_returns.
  - left. reflexivity.
  - reflexivity.
Defined.

(** ** The chunks [renderChunk] transforms *)

(** X28: in a well-formed output object the chunks [generateBundle]
    compiles are the chunks whose code [renderChunk] transforms: both
    select by the name of the chunk. *)
Theorem transformed_iff_compiled
    (options : BytecodeOptions) (output : OutputBundle) (key : jsstring)
    (chunk : OutputChunk) (code : Transforms.Program) :
  wellFormed output ->
  In (key, Chunk chunk) output ->
  (exists code',
     Hooks.renderChunk true options code (name chunk) = Some (Hooks.Transformed code'))
  <-> includes (bytecodeChunks options output) key = true.
Proof.
  intros Hwf Hin.
  rewrite (BundleFacts.compiled_iff_selected options output key chunk Hwf Hin).
  unfold Hooks.renderChunk. cbn [andb].
  destruct (isBytecodeChunk options (name chunk)).
  - split; [reflexivity | intros _].
    destruct (LiteralFacts.transformCode_result code (Hooks._protectedStrings options))
      as (code' & -> & _).
    now exists code'.
  - split; [intros (code' & H); discriminate | discriminate].
Qed.

Lemma transformed_iff_compiled_witness :
  (exists code',
     Hooks.renderChunk true mixedOptions
       [Transforms.ExpressionStatement (Transforms.TemplateLiteral [js "lib"] [])]
       (js "lib")
     = Some (Hooks.Transformed code'))
  <-> includes (bytecodeChunks mixedOptions mixedOutput) (js "dist/lib.js") = true.
Proof.
  apply (transformed_iff_compiled mixedOptions mixedOutput (js "dist/lib.js")
           (mkChunk (js "dist/lib.js") (js "lib") false (js "exports.lib = 1;") [] [])).
  - exact mixedOutput_wellFormed.
  - right. right. left. reflexivity.
Defined.

End OutcomeFacts.

(* ================================================================== *)
(** * generateBundle returns *)
(* ================================================================== *)

Module ReturnFacts.
Import JS Compiler Text Overlap Plugin.

Lemma compileToBytecode_returns (vm : VM) (p : Process) (code : jsstring) :
  vm (scripts p) (wrapInModuleWrapper code) <> None ->
  exists p' bytecodeBuffer, compileToBytecode vm p code = (p', Ok bytecodeBuffer).
Proof.
  intros Hvm. unfold compileToBytecode, newScript. cbv zeta.
  destruct (vm (scripts p) (wrapInModuleWrapper code)) as [blob |]; [| congruence].
  destruct (setFlagHashHeader vm (mkProcess (S (scripts p)) (dummyBytecode p)) blob)
    as [p2 patched].
  now exists p2, patched.
Qed.

Lemma updateRequires_total (names : list jsstring) (code : jsstring) :
  forallb (fun name => negb (overlapsRequire name)) names = true ->
  exists code', updateRequires names code = Ok code'.
Proof.
  intros Hapart. unfold updateRequires. destruct names as [| name names].
  - now exists code.
  - exact (RequireFacts.rewriteRequires_returns (name :: names) code Hapart).
Qed.

Lemma finalizeChunk_returns (options : BytecodeOptions) (env : Environment)
    (output : OutputBundle) (p : Process) (key : jsstring) (chunk : OutputChunk) :
  (forall k src, vm env k src <> None) ->
  forallb (fun name => negb (overlapsRequire name)) (nonEntryChunks options output)
  = true ->
  exists p' fin, finalizeChunk options env output p key chunk = (p', Ok fin).
Proof.
  intros Hvm Hapart. unfold finalizeChunk.
  destruct (updateRequires_total _ (code chunk) Hapart) as (_code & ->).
  destruct (includes (bytecodeChunks options output) key); [| eauto].
  destruct (compileToBytecode_returns (vm env) p _code (Hvm _ _)) as (p' & buf & ->).
  destruct (isEntry chunk); eauto.
Qed.

Lemma finalizeAll_returns (options : BytecodeOptions) (env : Environment)
    (output : OutputBundle) (bundles : OutputBundle) :
  (forall k src, vm env k src <> None) ->
  forallb (fun name => negb (overlapsRequire name)) (nonEntryChunks options output)
  = true ->
  forall p, exists p' done, finalizeAll options env output p bundles = (p', Ok done).
Proof.
  intros Hvm Hapart. induction bundles as [| [key item] rest IH]; intros p.
  - now exists p, [].
  - cbn [finalizeAll]. destruct item as [chunk | f src].
    + destruct (finalizeChunk_returns options env output p key chunk Hvm Hapart)
        as (p1 & fin & ->).
      destruct (IH p1) as (p' & done & ->). eauto.
    + destruct (IH p) as (p' & done & ->). eauto.
Qed.

(** X26: when the virtual machine hands out cached data for every source
    and the names of the selected chunks that are not entries are made of
    ordinary characters and dots, none of which can run into the
    beginning of a later [require(], [generateBundle] does not reject. *)
Theorem generateBundle_returns
    (supported : bool) (options : BytecodeOptions) (env : Environment)
    (p : Process) (output : OutputBundle) :
  (forall k src, vm env k src <> None) ->
  forallb plainName (nonEntryChunks options output) = true ->
  forallb (fun name => negb (overlapsRequire name)) (nonEntryChunks options output)
  = true ->
  exists p' g, generateBundle supported options env p output = (p', Ok g).
Proof.
  intros Hvm _ Hapart. unfold generateBundle.
  destruct (negb supported); [eauto |].
  destruct (length (candidates options output) =? 0); [eauto |].
  destruct (finalizeAll_returns options env output output Hvm Hapart p)
    as (p' & done & ->).
  eauto.
Qed.

Lemma generateBundle_returns_witness :
  exists p' g,
    generateBundle true chainOptions sampleEnv startProcess chainOutput = (p', Ok g).
Proof.
  apply (generateBundle_returns true chainOptions sampleEnv startProcess chainOutput).
  - intros k src. discriminate.
  - reflexivity.
  - reflexivity.
Defined.

(** ** A virtual machine without cached data *)

Lemma finalizeAll_rejects (options : BytecodeOptions) (env : Environment)
    (output : OutputBundle) (bundles : OutputBundle) :
  (forall k src, vm env k src = None) ->
  forallb (fun name => negb (overlapsRequire name)) (nonEntryChunks options output)
  = true ->
  (exists key chunk,
     In (key, Chunk chunk) bundles
     /\ includes (bytecodeChunks options output) key = true) ->
  forall p,
    snd (finalizeAll options env output p bundles)
    = Throws "Failed to generate bytecode: cachedData is undefined".
Proof.
  intros Hvm Hapart. induction bundles as [| [key item] rest IH];
    intros (k & c & Hin & Hinc) p; [contradiction |].
  cbn [finalizeAll]. destruct item as [chunk | f src].
  - unfold finalizeChunk.
    destruct (updateRequires_total _ (code chunk) Hapart) as (_code & ->).
    destruct (includes (bytecodeChunks options output) key) eqn:Hkey.
    + unfold compileToBytecode, newScript. cbv zeta. now rewrite Hvm.
    + assert (Hrest : exists key chunk,
                 In (key, Chunk chunk) rest
                 /\ includes (bytecodeChunks options output) key = true).
      { destruct Hin as [Hin | Hin]; [| now exists k, c].
        injection Hin as -> ->. congruence. }
      specialize (IH Hrest p).
      destruct (finalizeAll options env output p rest) as [p' [done | m]];
        cbn [snd] in *; [discriminate | exact IH].
  - assert (Hrest : exists key chunk,
               In (key, Chunk chunk) rest
               /\ includes (bytecodeChunks options output) key = true).
    { destruct Hin as [Hin | Hin]; [discriminate | now exists k, c]. }
    specialize (IH Hrest p).
    destruct (finalizeAll options env output p rest) as [p' [done | m]];
      cbn [snd] in *; [discriminate | exact IH].
Qed.

(** X29: when the virtual machine hands out no cached data, a supported
    build in which some chunk is selected is rejected with the error of
    [compileToBytecode] (for a well-formed output object and chunk names
    made of ordinary characters and dots, none of which can run into the
    beginning of a later [require(]). *)
Theorem generateBundle_rejects_without_cached_data
    (options : BytecodeOptions) (env : Environment) (p : Process)
    (output : OutputBundle) :
  (forall k src, vm env k src = None) ->
  forallb plainName (nonEntryChunks options output) = true ->
  forallb (fun name => negb (overlapsRequire name)) (nonEntryChunks options output)
  = true ->
  wellFormed output ->
  candidates options output <> [] ->
  snd (generateBundle true options env p output)
  = Throws "Failed to generate bytecode: cachedData is undefined".
Proof.
  intros Hvm _ Hapart Hwf Hsome. unfold generateBundle. cbn [negb].
  destruct (candidates options output) as [| c0 cs] eqn:Hcand; [congruence |].
  cbn [length Nat.eqb].
  assert (Hin : In c0 (candidates options output)) by (rewrite Hcand; now left).
  apply BundleFacts.candidates_In in Hin as (key & Hin & Hsel).
  pose proof (finalizeAll_rejects options env output output Hvm Hapart) as H.
  specialize (H ltac:(exists key, c0; split; [exact Hin |];
                      now rewrite (BundleFacts.compiled_iff_selected
                                     options output key c0 Hwf Hin)) p).
  destruct (finalizeAll options env output p output) as [p' [done | m]];
    cbn [snd] in *; [discriminate | now injection H as ->].
Qed.

Lemma generateBundle_rejects_without_cached_data_witness :
  snd (generateBundle true chainOptions
         (mkEnvironment (js "/work") (fun _ _ => None) [] (js "/* loader */"))
         startProcess chainOutput)
  = Throws "Failed to generate bytecode: cachedData is undefined".
Proof.
  apply (generateBundle_rejects_without_cached_data chainOptions
           (mkEnvironment (js "/work") (fun _ _ => None) [] (js "/* loader */"))
           startProcess chainOutput).
  - reflexivity.
  - reflexivity.
  - reflexivity.
  - exact BundleFacts.chainOutput_wellFormed.
  - discriminate.
Defined.

End ReturnFacts.
